(** * Gesture-Music-Paint: music engine and sequencer

    A shallow embedding of [config.py], [project_model.py],
    [music_engine.py] and [sequencer.py], followed by the properties of
    the specification that concern them.

    Conventions of the embedding.
    - Python [int] is [Z].  Wall-clock readings ([time.time()]), event
      times and sample values are exact rationals [Q]; every call that
      reads the clock takes the reading as an argument [now].
    - Sample counts of the audio export depend on binary64 rounding
      ([int(44100 * 0.7)] is 30869), so [export_audio] computes them on
      primitive binary64 floats; a rational timestamp enters that
      arithmetic as the nearest double.
    - A Python exception is a value [Raise e] of type [result]; a method
      returns the object after the call together with its result.
    - [dict]s with string keys are [gmap string _]; a played sound is an
      entry appended to the mixer trace of the engine.
    - The synthesis of waveforms (sines, noise, envelopes) and the
      playback thread of the sequencer are outside the embedding. *)

From Stdlib Require Import ZArith QArith Qround Qabs Qminmax Qpower Lqa Lia List Ascii String.
From Stdlib Require Import Sorting.Sorted.
From Stdlib Require Import Floats.PrimFloat Floats.SpecFloat Floats.FloatOps.
From stdpp Require Import gmap strings pretty.

Open Scope Z_scope.

(** ** Python preliminaries *)

Inductive exn := ZeroDivisionError | ValueError | OverflowError | IOError.

Inductive result (A : Type) :=
| Return (a : A)
| Raise (e : exn).
Arguments Return {A} a.
Arguments Raise {A} e.

Definition rbind {A B : Type} (m : result A) (k : A → result B) : result B :=
  match m with
  | Return a => k a
  | Raise e => Raise e
  end.

#[global] Instance result_bind : MBind result := fun A B k m => rbind m k.

(** [int(q)] on a float: truncation towards zero. *)
Definition py_int (q : Q) : Z := Z.quot (Qnum q) (Z.pos (Qden q)).

(** [round(q)]: nearest integer, halves to the even neighbour. *)
Definition py_round (q : Q) : Z :=
  let f := Qfloor q in
  match (q - inject_Z f ?= 1 # 2)%Q with
  | Lt => f
  | Gt => f + 1
  | Eq => if Z.even f then f else f + 1
  end.

(** [min(l, key=key)] from a first candidate [best]: a later element
    replaces the candidate only when its key is strictly smaller, so the
    first of several minimal elements is returned. *)
Fixpoint min_from (key : Z → Z) (best : Z) (l : list Z) : Z :=
  match l with
  | [] => best
  | s :: l' => min_from key (if key s <? key best then s else best) l'
  end.

(** [min] raises [ValueError] on an empty sequence; every list it is
    applied to below is a value of [SCALE_TYPES], none of which is empty,
    so the first branch is never taken. *)
Definition py_min (key : Z → Z) (l : list Z) : Z :=
  match l with
  | [] => 0
  | s :: l' => min_from key s l'
  end.

(** [a < b] on clock readings. *)
Definition Qltb (a b : Q) : bool := negb (Qle_bool b a).

(** [list.sort(key=...)] is stable: an element is inserted in front of
    the first later element that is not smaller. *)
Fixpoint insert_by {A : Type} (le : A → A → bool) (a : A) (l : list A) : list A :=
  match l with
  | [] => [a]
  | b :: l' => if le a b then a :: b :: l' else b :: insert_by le a l'
  end.

Definition py_sort {A : Type} (le : A → A → bool) (l : list A) : list A :=
  foldr (insert_by le) [] l.

(** [l[i]]: a negative index counts from the end; [None] stands for
    [IndexError]. *)
Definition py_index {A : Type} (l : list A) (i : Z) : option A :=
  if 0 <=? i then l !! Z.to_nat i
  else if - Z.of_nat (length l) <=? i then l !! Z.to_nat (Z.of_nat (length l) + i)
  else None.

(** *** binary64 on rationals

    A double is modelled by its value.  [b64 q] is the double nearest to
    [q], as every arithmetic operation of binary64 returns it for its
    exact result: 53 significant bits, the last of them not below
    [2^-1074], halves to the even neighbour.  From [2^1024] on the
    result is infinite, for which [2^1024] stands. *)

(** [floor (log2 q)] of a positive rational. *)
Definition ilog2 (q : Q) : Z :=
  let l := Z.log2 (Qnum q) - Z.log2 (Z.pos (Qden q)) in
  if Qle_bool (2 ^ l) q then l else l - 1.

(** The exponent of the last place of the double nearest to [q]. *)
Definition ulp_exp (q : Q) : Z := Z.max (-1074) (ilog2 q - 52).

(** The nearest multiple of the last place, before the overflow test. *)
Definition nearest (q : Q) : Q :=
  (inject_Z (py_round (q / 2 ^ ulp_exp q)) * 2 ^ ulp_exp q)%Q.

Definition b64_pos (q : Q) : Q :=
  Qred (if Qle_bool (2 ^ 1024) (nearest q) then 2 ^ 1024 else nearest q)%Q.

Definition b64 (q : Q) : Q :=
  match Qnum q with
  | Z.neg _ => (- b64_pos (- q))%Q
  | _ => b64_pos q
  end.

(** [int(lo + ratio * span)] on floats, the form of the maps of
    [config.py]. *)
Definition affine (lo span : Z) (ratio : Q) : Z :=
  py_int (b64 (inject_Z lo + b64 (ratio * inject_Z span))).

(** An infinite result. *)
Definition is_inf (q : Q) : bool := Qle_bool (2 ^ 1024) (Qabs q).

(** The double nearest to the square root of a double [q]: the integer
    square root of [q] scaled to 53 bits, then the nearer neighbour. *)
Definition b64_sqrt (q : Q) : Q :=
  if Qle_bool q 0 then 0%Q
  else
    let u := ilog2 q / 2 - 52 in
    let s := (q / 2 ^ (2 * u))%Q in
    let m := Z.sqrt (Qfloor s) in
    let half := ((inject_Z m + (1 # 2)) * (inject_Z m + (1 # 2)))%Q in
    let m' :=
      match (s ?= half)%Q with
      | Lt => m
      | Gt => m + 1
      | Eq => if Z.even m then m else m + 1
      end in
    Qred (inject_Z m' * 2 ^ u)%Q.

(** [float(n)] of an int, also where an int meets a float in an
    operation: [OverflowError] when the nearest double is infinite. *)
Definition py_float (n : Z) : result Q :=
  let f := b64 (inject_Z n) in
  if is_inf f then Raise OverflowError else Return f.

(** [a / b] on two ints: the double nearest to the exact quotient. *)
Definition int_truediv (a b : Z) : result Q :=
  if b =? 0 then Raise ZeroDivisionError
  else
    let f := b64 (inject_Z a / inject_Z b) in
    if is_inf f then Raise OverflowError else Return f.

(** [a / b] on two floats, [b] finite: an infinite [a] gives the
    infinity of the sign of the quotient. *)
Definition float_truediv (a b : Q) : result Q :=
  if Qeq_bool b 0 then Raise ZeroDivisionError
  else if is_inf a
       then Return (b64 (if Qle_bool 0 (a / b) then 2 ^ 1024 else - 2 ^ 1024))
       else Return (b64 (a / b)).

(** [round(f)] on a float: [OverflowError] on an infinity. *)
Definition round_float (f : Q) : result Z :=
  if is_inf f then Raise OverflowError else Return (py_round f).

(** *** Primitive binary64

    [float] is the primitive binary64 type, with the arithmetic of
    Python floats. *)

Definition float_of_Z (z : Z) : float :=
  SF2Prim (binary_normalize prec emax z 0 false).

(** The double nearest to [q] (numerator and denominator below [2^53]). *)
Definition float_of_Q (q : Q) : float :=
  (float_of_Z (Qnum q) / float_of_Z (Z.pos (Qden q)))%float.

(** [int(f)]: truncation towards zero; [ValueError] on NaN and
    [OverflowError] on an infinity. *)
Definition int_of_float (f : float) : result Z :=
  match Prim2SF f with
  | S754_nan => Raise ValueError
  | S754_infinity _ => Raise OverflowError
  | S754_zero _ => Return 0
  | S754_finite sign m e =>
      let magnitude :=
        if 0 <=? e then Z.shiftl (Z.pos m) e else Z.shiftr (Z.pos m) (- e) in
      Return (if sign then - magnitude else magnitude)
  end.

(** *** Strings *)

Definition ascii_lower (c : ascii) : ascii :=
  let n := nat_of_ascii c in
  if ((65 <=? n) && (n <=? 90))%nat then ascii_of_nat (n + 32) else c.

(** [s.lower()] on ASCII text. *)
Definition str_lower (s : string) : string :=
  string_of_list_ascii (map ascii_lower (list_ascii_of_string s)).

(** [s.endswith(suffix)] *)
Definition str_endswith (s suffix : string) : bool :=
  let l := list_ascii_of_string s in
  let k := list_ascii_of_string suffix in
  bool_decide (length k <= length l)%nat
  && bool_decide (drop (length l - length k) l = k).

Fixpoint after_first_dot (l : list ascii) : option (list ascii) :=
  match l with
  | [] => None
  | c :: l' => if Ascii.eqb c "." then Some l' else after_first_dot l'
  end.

(** [s.rsplit('.', 1)[0]]: the text before the last dot, all of [s]
    when it has none. *)
Definition rsplit_dot_head (s : string) : string :=
  match after_first_dot (rev (list_ascii_of_string s)) with
  | Some l => string_of_list_ascii (rev l)
  | None => s
  end.

(** [os.path.join(folder, name)] for a folder without trailing slash. *)
Definition path_join (folder name : string) : string :=
  if String.prefix "/" name then name else folder +:+ "/" +:+ name.

(** ** config.py *)

Module config.

Definition CAMERA_WIDTH : Z := 640.
Definition CAMERA_HEIGHT : Z := 480.
Definition HEADER_HEIGHT : Z := 60.

Definition MIN_NOTE : Z := 48.
Definition MAX_NOTE : Z := 84.
Definition MIN_NOTE_DURATION : Z := 100.
Definition MAX_NOTE_DURATION : Z := 500.
Definition MIN_VOLUME : Z := 30.
Definition MAX_VOLUME : Z := 127.

Definition MIN_BRUSH_THICKNESS : Z := 3.
Definition MAX_BRUSH_THICKNESS : Z := 30.

Definition RECORDING_FOLDER : string := "Recordings".

(** [INSTRUMENTS]: only the ['wave_type'] entry is read by the engine. *)
Definition INSTRUMENTS : gmap string string :=
  list_to_map
    [ ("piano", "sine"); ("guitar", "triangle"); ("drums", "noise");
      ("synth", "square"); ("strings", "sawtooth") ]%string.

Definition INSTRUMENT_LIST : list string :=
  [ "piano"; "guitar"; "drums"; "synth"; "strings" ]%string.
Definition DEFAULT_INSTRUMENT : string := "piano".

Definition SCALE_TYPES : gmap string (list Z) :=
  list_to_map
    [ ("major"%string, [0; 2; 4; 5; 7; 9; 11]);
      ("minor"%string, [0; 2; 3; 5; 7; 8; 10]);
      ("pentatonic"%string, [0; 2; 4; 7; 9]);
      ("blues"%string, [0; 3; 5; 6; 7; 10]);
      ("chromatic"%string, [0; 1; 2; 3; 4; 5; 6; 7; 8; 9; 10; 11]) ].

Definition DEFAULT_SCALE : string := "pentatonic".
Definition DEFAULT_ROOT : Z := 60.

(** The arithmetic is that of the source: an int division, then a
    product and a sum of floats, each rounded to a double, then [int]. *)
Definition map_x_to_note (x width : Z) : result Z :=
  let x := Z.max 0 (Z.min x (width - 1)) in
  ratio ← int_truediv x width;
  Return (py_int (b64 (inject_Z MIN_NOTE
                       + b64 (ratio * inject_Z (MAX_NOTE - MIN_NOTE))))).

Definition map_y_to_duration (y height : Z) : result Z :=
  let y := Z.max HEADER_HEIGHT (Z.min y (height - 1)) in
  let effective_height := height - HEADER_HEIGHT in
  ratio ← int_truediv (y - HEADER_HEIGHT) effective_height;
  Return (py_int (b64 (inject_Z MIN_NOTE_DURATION
                       + b64 (ratio * inject_Z (MAX_NOTE_DURATION
                                                - MIN_NOTE_DURATION))))).

Definition map_thickness_to_volume (thickness : Z) : Z :=
  let thickness := Z.max MIN_BRUSH_THICKNESS (Z.min thickness MAX_BRUSH_THICKNESS) in
  let ratio := (inject_Z (thickness - MIN_BRUSH_THICKNESS)
                / inject_Z (MAX_BRUSH_THICKNESS - MIN_BRUSH_THICKNESS))%Q in
  py_int (inject_Z MIN_VOLUME + ratio * inject_Z (MAX_VOLUME - MIN_VOLUME)).

(** [SCALE_TYPES.get(scale_type, SCALE_TYPES['pentatonic'])] *)
Definition active_scale (scale_type : string) : list Z :=
  default (SCALE_TYPES !!! "pentatonic"%string) (SCALE_TYPES !! scale_type).

Definition quantize_to_scale (note : Z) (scale_type : string) (root : Z) : Z :=
  let scale := active_scale scale_type in
  let relative := (note - root) mod 12 in
  let octave := (note - root) / 12 in
  let closest := py_min (fun s => Z.abs (s - relative)) scale in
  root + octave * 12 + closest.

(** The scale degree that [quantize_to_scale] selects ([closest]). *)
Definition closest_degree (note : Z) (scale_type : string) (root : Z) : Z :=
  py_min (fun s => Z.abs (s - (note - root) mod 12)) (active_scale scale_type).

End config.

(** ** project_model.py *)

Module project_model.

Record Point := {
  x : Z;
  y : Z;
  t : Q;
  thickness : Z
}.

Record Stroke := {
  instrument : string;
  color : Z * Z * Z;
  points : list Point;
  start_t : Q;
  end_t : Q;
  stroke_id : string
}.

Record Project := {
  name : string;
  bpm : Z;
  quantize : string;
  scale : string;
  root_note : Z;
  width : Z;
  height : Z;
  strokes : list Stroke;
  created_at : string;
  duration : Q
}.

(** [quantize_time]: [60.0 / bpm] converts [bpm] to a float and raises
    on [bpm = 0]; [round] raises on an infinite quotient. *)
Definition quantize_time (t : Q) (bpm : Z) (quantize : string) : result Q :=
  bpm_float ← py_float bpm;
  beat_duration ← float_truediv 60 bpm_float;
  let grid :=
    if String.eqb quantize "1/4" then beat_duration
    else if String.eqb quantize "1/8" then b64 (beat_duration / 2)
    else if String.eqb quantize "1/16" then b64 (beat_duration / 4)
    else b64 (beat_duration / 2) in
  steps ← float_truediv t grid;
  steps ← round_float steps;
  steps ← py_float steps;
  Return (b64 (steps * grid)).

(** The grid step that [quantize_time] computes ([grid]). *)
Definition grid_step (bpm : Z) (quantize : string) : result Q :=
  bpm_float ← py_float bpm;
  beat_duration ← float_truediv 60 bpm_float;
  Return (if String.eqb quantize "1/4" then beat_duration
          else if String.eqb quantize "1/8" then b64 (beat_duration / 2)
          else if String.eqb quantize "1/16" then b64 (beat_duration / 4)
          else b64 (beat_duration / 2)).

(** [Stroke.add_point] *)
Definition add_point (s : Stroke) (x y thickness : Z) (relative_t : Q) : Stroke :=
  let pts := points s ++ [ {| x := x; y := y; t := relative_t;
                              thickness := thickness |} ] in
  {| instrument := instrument s;
     color := color s;
     points := pts;
     start_t :=
       if match pts with [] => true | _ => false end || (length pts =? 1)%nat
       then relative_t else start_t s;
     end_t := relative_t;
     stroke_id := stroke_id s |}.

(** [Stroke.get_duration] *)
Definition get_duration (s : Stroke) : Q := (end_t s - start_t s)%Q.

(** [max] over the values [first :: rest]: a later value replaces the
    candidate only when it is greater. *)
Definition py_max (first : Q) (rest : list Q) : Q :=
  foldl (fun best v => if Qltb best v then v else best) first rest.

Definition assign_strokes_duration (l : list Stroke) (d : Q) (p : Project)
    : Project := {|
  name := name p;
  bpm := bpm p;
  quantize := quantize p;
  scale := scale p;
  root_note := root_note p;
  width := width p;
  height := height p;
  strokes := l;
  created_at := created_at p;
  duration := d
|}.

(** [Project._update_duration] *)
Definition _update_duration (p : Project) : Project :=
  match strokes p with
  | [] => p
  | stroke :: rest =>
      assign_strokes_duration (strokes p) (py_max (end_t stroke) (map end_t rest)) p
  end.

(** [Project.add_stroke] *)
Definition add_stroke (p : Project) (stroke : Stroke) : Project :=
  _update_duration (assign_strokes_duration (strokes p ++ [stroke]) (duration p) p).

(** [Project.clear] *)
Definition clear (p : Project) : Project := assign_strokes_duration [] 0 p.

(** A stroke as [Stroke(instrument, color)] constructs it, with the
    identifier [stroke_id]. *)
Definition new_stroke (instrument : string) (color : Z * Z * Z) (stroke_id : string)
    : Stroke := {|
  instrument := instrument;
  color := color;
  points := [];
  start_t := 0;
  end_t := 0;
  stroke_id := stroke_id
|}.

(** The stroke after a run of [add_point] calls; an entry of [drawn] is
    [(x, y, thickness, relative_t)]. *)
Definition draw (s : Stroke) (drawn : list (Z * Z * Z * Q)) : Stroke :=
  foldl (fun s '(x, y, thickness, relative_t) => add_point s x y thickness relative_t)
        s drawn.

Definition drawn_point (d : Z * Z * Z * Q) : Point :=
  let '(x, y, thickness, relative_t) := d in
  {| x := x; y := y; t := relative_t; thickness := thickness |}.

End project_model.

(** ** music_engine.py *)

Module music_engine.

Import config.

Record NoteEvent := {
  note : Z;
  velocity : Z;
  duration : Z;
  instrument : string;
  timestamp : Q;
  x : Z;
  y : Z
}.

(** A [pygame.mixer.Sound] is identified by the voice it was synthesised
    for; the PCM samples themselves (sines, noise) are not represented. *)
Inductive Sound :=
| Tone (wave_type : string) (note : Z)
| BassTone (note : Z)
| Drum (drum_type : string)
| Tick (freq : Z).

(** The attributes of [MusicEngine] read or written by the operations
    below.  [mixer] is the trace of [sound.set_volume(v); sound.play()]
    calls, oldest first.  The visualisation state ([waveform_data],
    [active_notes]) and the drum, chord and metronome counters are left out. *)
Record MusicEngine := {
  audio_initialized : bool;
  current_instrument : string;
  instrument_index : Z;
  scale_type : string;
  root_note : Z;
  is_playing : bool;
  is_recording : bool;
  last_note : Z;
  last_note_time : Q;
  min_note_interval : Q;
  last_preview_x : Z;
  last_preview_y : Z;
  last_preview_time : Q;
  preview_min_interval : Q;
  preview_min_distance : Z;
  recorded_notes : list NoteEvent;
  recording_start_time : Q;
  bass_enabled : bool;
  bass_interval : Q;
  last_bass_time : Q;
  note_cache : gmap string Sound;
  mixer : list (Sound * Q)
}.

(** Attribute assignment [self.f = v]. *)
Definition assign_current_instrument (v : string) (e : MusicEngine) : MusicEngine :=
  Build_MusicEngine (audio_initialized e) v (instrument_index e) (scale_type
    e) (root_note e) (is_playing e) (is_recording e) (last_note e)
    (last_note_time e) (min_note_interval e) (last_preview_x e)
    (last_preview_y e) (last_preview_time e) (preview_min_interval e)
    (preview_min_distance e) (recorded_notes e) (recording_start_time e)
    (bass_enabled e) (bass_interval e) (last_bass_time e) (note_cache e)
    (mixer e).

Definition assign_instrument_index (v : Z) (e : MusicEngine) : MusicEngine :=
  Build_MusicEngine (audio_initialized e) (current_instrument e) v (scale_type
    e) (root_note e) (is_playing e) (is_recording e) (last_note e)
    (last_note_time e) (min_note_interval e) (last_preview_x e)
    (last_preview_y e) (last_preview_time e) (preview_min_interval e)
    (preview_min_distance e) (recorded_notes e) (recording_start_time e)
    (bass_enabled e) (bass_interval e) (last_bass_time e) (note_cache e)
    (mixer e).

Definition assign_scale_type (v : string) (e : MusicEngine) : MusicEngine :=
  Build_MusicEngine (audio_initialized e) (current_instrument e)
    (instrument_index e) v (root_note e) (is_playing e) (is_recording e)
    (last_note e) (last_note_time e) (min_note_interval e) (last_preview_x e)
    (last_preview_y e) (last_preview_time e) (preview_min_interval e)
    (preview_min_distance e) (recorded_notes e) (recording_start_time e)
    (bass_enabled e) (bass_interval e) (last_bass_time e) (note_cache e)
    (mixer e).

Definition assign_is_playing (v : bool) (e : MusicEngine) : MusicEngine :=
  Build_MusicEngine (audio_initialized e) (current_instrument e)
    (instrument_index e) (scale_type e) (root_note e) v (is_recording e)
    (last_note e) (last_note_time e) (min_note_interval e) (last_preview_x e)
    (last_preview_y e) (last_preview_time e) (preview_min_interval e)
    (preview_min_distance e) (recorded_notes e) (recording_start_time e)
    (bass_enabled e) (bass_interval e) (last_bass_time e) (note_cache e)
    (mixer e).

Definition assign_is_recording (v : bool) (e : MusicEngine) : MusicEngine :=
  Build_MusicEngine (audio_initialized e) (current_instrument e)
    (instrument_index e) (scale_type e) (root_note e) (is_playing e) v
    (last_note e) (last_note_time e) (min_note_interval e) (last_preview_x e)
    (last_preview_y e) (last_preview_time e) (preview_min_interval e)
    (preview_min_distance e) (recorded_notes e) (recording_start_time e)
    (bass_enabled e) (bass_interval e) (last_bass_time e) (note_cache e)
    (mixer e).

Definition assign_last_note (v : Z) (e : MusicEngine) : MusicEngine :=
  Build_MusicEngine (audio_initialized e) (current_instrument e)
    (instrument_index e) (scale_type e) (root_note e) (is_playing e)
    (is_recording e) v (last_note_time e) (min_note_interval e)
    (last_preview_x e) (last_preview_y e) (last_preview_time e)
    (preview_min_interval e) (preview_min_distance e) (recorded_notes e)
    (recording_start_time e) (bass_enabled e) (bass_interval e)
    (last_bass_time e) (note_cache e) (mixer e).

Definition assign_last_note_time (v : Q) (e : MusicEngine) : MusicEngine :=
  Build_MusicEngine (audio_initialized e) (current_instrument e)
    (instrument_index e) (scale_type e) (root_note e) (is_playing e)
    (is_recording e) (last_note e) v (min_note_interval e) (last_preview_x e)
    (last_preview_y e) (last_preview_time e) (preview_min_interval e)
    (preview_min_distance e) (recorded_notes e) (recording_start_time e)
    (bass_enabled e) (bass_interval e) (last_bass_time e) (note_cache e)
    (mixer e).

Definition assign_last_preview_x (v : Z) (e : MusicEngine) : MusicEngine :=
  Build_MusicEngine (audio_initialized e) (current_instrument e)
    (instrument_index e) (scale_type e) (root_note e) (is_playing e)
    (is_recording e) (last_note e) (last_note_time e) (min_note_interval e) v
    (last_preview_y e) (last_preview_time e) (preview_min_interval e)
    (preview_min_distance e) (recorded_notes e) (recording_start_time e)
    (bass_enabled e) (bass_interval e) (last_bass_time e) (note_cache e)
    (mixer e).

Definition assign_last_preview_y (v : Z) (e : MusicEngine) : MusicEngine :=
  Build_MusicEngine (audio_initialized e) (current_instrument e)
    (instrument_index e) (scale_type e) (root_note e) (is_playing e)
    (is_recording e) (last_note e) (last_note_time e) (min_note_interval e)
    (last_preview_x e) v (last_preview_time e) (preview_min_interval e)
    (preview_min_distance e) (recorded_notes e) (recording_start_time e)
    (bass_enabled e) (bass_interval e) (last_bass_time e) (note_cache e)
    (mixer e).

Definition assign_last_preview_time (v : Q) (e : MusicEngine) : MusicEngine :=
  Build_MusicEngine (audio_initialized e) (current_instrument e)
    (instrument_index e) (scale_type e) (root_note e) (is_playing e)
    (is_recording e) (last_note e) (last_note_time e) (min_note_interval e)
    (last_preview_x e) (last_preview_y e) v (preview_min_interval e)
    (preview_min_distance e) (recorded_notes e) (recording_start_time e)
    (bass_enabled e) (bass_interval e) (last_bass_time e) (note_cache e)
    (mixer e).

Definition assign_recorded_notes (v : list NoteEvent) (e : MusicEngine) : MusicEngine :=
  Build_MusicEngine (audio_initialized e) (current_instrument e)
    (instrument_index e) (scale_type e) (root_note e) (is_playing e)
    (is_recording e) (last_note e) (last_note_time e) (min_note_interval e)
    (last_preview_x e) (last_preview_y e) (last_preview_time e)
    (preview_min_interval e) (preview_min_distance e) v (recording_start_time
    e) (bass_enabled e) (bass_interval e) (last_bass_time e) (note_cache e)
    (mixer e).

Definition assign_recording_start_time (v : Q) (e : MusicEngine) : MusicEngine :=
  Build_MusicEngine (audio_initialized e) (current_instrument e)
    (instrument_index e) (scale_type e) (root_note e) (is_playing e)
    (is_recording e) (last_note e) (last_note_time e) (min_note_interval e)
    (last_preview_x e) (last_preview_y e) (last_preview_time e)
    (preview_min_interval e) (preview_min_distance e) (recorded_notes e) v
    (bass_enabled e) (bass_interval e) (last_bass_time e) (note_cache e)
    (mixer e).

Definition assign_bass_enabled (v : bool) (e : MusicEngine) : MusicEngine :=
  Build_MusicEngine (audio_initialized e) (current_instrument e)
    (instrument_index e) (scale_type e) (root_note e) (is_playing e)
    (is_recording e) (last_note e) (last_note_time e) (min_note_interval e)
    (last_preview_x e) (last_preview_y e) (last_preview_time e)
    (preview_min_interval e) (preview_min_distance e) (recorded_notes e)
    (recording_start_time e) v (bass_interval e) (last_bass_time e)
    (note_cache e) (mixer e).

Definition assign_last_bass_time (v : Q) (e : MusicEngine) : MusicEngine :=
  Build_MusicEngine (audio_initialized e) (current_instrument e)
    (instrument_index e) (scale_type e) (root_note e) (is_playing e)
    (is_recording e) (last_note e) (last_note_time e) (min_note_interval e)
    (last_preview_x e) (last_preview_y e) (last_preview_time e)
    (preview_min_interval e) (preview_min_distance e) (recorded_notes e)
    (recording_start_time e) (bass_enabled e) (bass_interval e) v (note_cache
    e) (mixer e).

Definition assign_note_cache (v : gmap string Sound) (e : MusicEngine) : MusicEngine :=
  Build_MusicEngine (audio_initialized e) (current_instrument e)
    (instrument_index e) (scale_type e) (root_note e) (is_playing e)
    (is_recording e) (last_note e) (last_note_time e) (min_note_interval e)
    (last_preview_x e) (last_preview_y e) (last_preview_time e)
    (preview_min_interval e) (preview_min_distance e) (recorded_notes e)
    (recording_start_time e) (bass_enabled e) (bass_interval e)
    (last_bass_time e) v (mixer e).

Definition assign_mixer (v : list (Sound * Q)) (e : MusicEngine) : MusicEngine :=
  Build_MusicEngine (audio_initialized e) (current_instrument e)
    (instrument_index e) (scale_type e) (root_note e) (is_playing e)
    (is_recording e) (last_note e) (last_note_time e) (min_note_interval e)
    (last_preview_x e) (last_preview_y e) (last_preview_time e)
    (preview_min_interval e) (preview_min_distance e) (recorded_notes e)
    (recording_start_time e) (bass_enabled e) (bass_interval e)
    (last_bass_time e) (note_cache e) v.

(** [f"{prefix}_{n}"] *)
Definition cache_key (prefix : string) (n : Z) : string :=
  prefix +:+ "_" +:+ pretty n.

(** [sound.set_volume(volume); sound.play()] *)
Definition play (sound : Sound) (volume : Q) (e : MusicEngine) : MusicEngine :=
  assign_mixer (mixer e ++ [(sound, volume)]) e.

(** Construction of a [pygame.mixer.Sound] can fail; [mixer_ok] tells for
    which voices it succeeds.  The synthesis functions return [None] on
    failure and without an audio device. *)
Definition _generate_tone (mixer_ok : Sound → bool) (e : MusicEngine)
    (note : Z) (wave_type : string) : option Sound :=
  if negb (audio_initialized e) then None
  else if mixer_ok (Tone wave_type note) then Some (Tone wave_type note)
  else None.

Definition _generate_bass_tone (mixer_ok : Sound → bool) (note : Z) : option Sound :=
  if mixer_ok (BassTone note) then Some (BassTone note) else None.

Definition _generate_drum_sound (mixer_ok : Sound → bool) (drum_type : string)
    : option Sound :=
  if String.eqb drum_type "kick" || String.eqb drum_type "snare"
     || String.eqb drum_type "hihat"
  then if mixer_ok (Drum drum_type) then Some (Drum drum_type) else None
  else None.

Definition _generate_metronome_tick (mixer_ok : Sound → bool) (freq : Z)
    : option Sound :=
  if mixer_ok (Tick freq) then Some (Tick freq) else None.

(** [if sound: self.note_cache[key] = sound] *)
Definition cache_store (key : string) (sound : option Sound)
    (cache : gmap string Sound) : gmap string Sound :=
  match sound with
  | Some snd => <[key := snd]> cache
  | None => cache
  end.

(** [range(lo, hi)] *)
Definition py_range (lo hi : Z) : list Z := seqZ lo (hi - lo).

Definition _pregenerate_notes (mixer_ok : Sound → bool) (e : MusicEngine)
    : MusicEngine :=
  if negb (audio_initialized e) then e
  else
    assign_note_cache
      (foldl (fun cache instrument_key =>
                let wave_type := INSTRUMENTS !!! instrument_key in
                foldl (fun cache note =>
                         cache_store (cache_key instrument_key note)
                           (_generate_tone mixer_ok e note wave_type) cache)
                      cache (py_range MIN_NOTE (MAX_NOTE + 1)))
             (note_cache e) INSTRUMENT_LIST)
      e.

Definition _pregenerate_drums (mixer_ok : Sound → bool) (e : MusicEngine)
    : MusicEngine :=
  if negb (audio_initialized e) then e
  else
    assign_note_cache
      (cache_store "drum_hihat" (_generate_drum_sound mixer_ok "hihat")
        (cache_store "drum_snare" (_generate_drum_sound mixer_ok "snare")
          (cache_store "drum_kick" (_generate_drum_sound mixer_ok "kick")
            (note_cache e))))
      e.

Definition _pregenerate_bass (mixer_ok : Sound → bool) (e : MusicEngine)
    : MusicEngine :=
  if negb (audio_initialized e) then e
  else
    assign_note_cache
      (foldl (fun cache note =>
                cache_store (cache_key "bass" note)
                  (_generate_bass_tone mixer_ok note) cache)
             (note_cache e) (py_range 24 49))
      e.

Definition _pregenerate_metronome (mixer_ok : Sound → bool) (e : MusicEngine)
    : MusicEngine :=
  if negb (audio_initialized e) then e
  else
    assign_note_cache
      (cache_store "metronome_low" (_generate_metronome_tick mixer_ok 800)
        (cache_store "metronome_high" (_generate_metronome_tick mixer_ok 1200)
          (note_cache e)))
      e.

(** [MusicEngine.__init__]; [audio_ok] tells whether [_init_audio]
    succeeded.  The warm-up plays at volume 0 are not traced. *)
Definition new_engine (audio_ok : bool) (mixer_ok : Sound → bool) : MusicEngine :=
  let e := {|
    audio_initialized := audio_ok;
    current_instrument := DEFAULT_INSTRUMENT;
    instrument_index := 0;
    scale_type := DEFAULT_SCALE;
    root_note := DEFAULT_ROOT;
    is_playing := true;
    is_recording := false;
    last_note := -1;
    last_note_time := 0;
    min_note_interval := 0.02;
    last_preview_x := 0;
    last_preview_y := 0;
    last_preview_time := 0;
    preview_min_interval := 0.08;
    preview_min_distance := 30;
    recorded_notes := [];
    recording_start_time := 0;
    bass_enabled := false;
    bass_interval := 0.5;
    last_bass_time := 0;
    note_cache := ∅;
    mixer := []
  |} in
  _pregenerate_metronome mixer_ok
    (_pregenerate_bass mixer_ok
      (_pregenerate_drums mixer_ok
        (_pregenerate_notes mixer_ok e))).

Definition set_bass_enabled (e : MusicEngine) (enabled : bool) : MusicEngine :=
  assign_bass_enabled enabled e.

Definition toggle_play (e : MusicEngine) : MusicEngine * bool :=
  (assign_is_playing (negb (is_playing e)) e, negb (is_playing e)).

Definition set_instrument (e : MusicEngine) (instrument_key : string) : MusicEngine :=
  match list_find (fun k => k = instrument_key) INSTRUMENT_LIST with
  | Some (i, _) =>
      assign_current_instrument instrument_key
        (assign_instrument_index (Z.of_nat i) e)
  | None => e
  end.

Definition set_scale (e : MusicEngine) (scale : string) : MusicEngine :=
  match SCALE_TYPES !! scale with
  | Some _ => assign_scale_type scale e
  | None => e
  end.

(** [start_recording], with the clock reading [now]. *)
Definition start_recording (e : MusicEngine) (now : Q) : MusicEngine :=
  assign_is_recording true
    (assign_recording_start_time now
      (assign_recorded_notes [] e)).

Definition stop_recording (e : MusicEngine) : MusicEngine * list NoteEvent :=
  (assign_is_recording false e, recorded_notes e).

(** [if self.is_recording: self.recorded_notes.append(NoteEvent(...))] *)
Definition record_note (e : MusicEngine) (now : Q)
    (note velocity duration x y : Z) : MusicEngine :=
  if is_recording e then
    assign_recorded_notes
      (recorded_notes e ++
         [ {| note := note;
              velocity := velocity;
              duration := duration;
              instrument := current_instrument e;
              timestamp := now - recording_start_time e;
              x := x;
              y := y |} ])
      e
  else e.

Definition play_note (e : MusicEngine) (now : Q)
    (x y thickness width height : Z) : MusicEngine * result () :=
  if negb (is_playing e) || negb (audio_initialized e) then (e, Return ())
  else if Qltb (now - last_note_time e) (min_note_interval e) then (e, Return ())
  else
    match map_x_to_note x width with
    | Raise ex => (e, Raise ex)
    | Return raw_note =>
        let note := quantize_to_scale raw_note (scale_type e) (root_note e) in
        if (note =? last_note e) && Qltb (now - last_note_time e) 0.2
        then (e, Return ())
        else
          match map_y_to_duration y height with
          | Raise ex => (e, Raise ex)
          | Return duration =>
              let velocity := map_thickness_to_volume thickness in
              match note_cache e !! cache_key (current_instrument e) note with
              | None => (e, Return ())
              | Some sound =>
                  let e := play sound (inject_Z velocity / 127) e in
                  let e := assign_last_note note e in
                  let e := assign_last_note_time now e in
                  (record_note e now note velocity duration x y, Return ())
              end
          end
    end.

(** [distance = (dx * dx + dy * dy) ** 0.5]: the int is converted to a
    float, which raises [OverflowError] from [2^1024] on, and the power
    is the C library's [pow], taken here to return the double nearest to
    the square root. *)
Definition preview_distance (dx dy : Z) : result Q :=
  squared ← py_float (dx * dx + dy * dy);
  Return (b64_sqrt squared).

(** The trigger condition of [play_preview_note]. *)
Definition should_trigger (e : MusicEngine) (now : Q) (distance : Q) : bool :=
  let time_elapsed := (now - last_preview_time e)%Q in
  Qle_bool (preview_min_interval e) time_elapsed
  || (Qle_bool (inject_Z (preview_min_distance e)) distance
      && Qle_bool 0.02 time_elapsed).

Definition play_preview_note (e : MusicEngine) (now : Q)
    (x y thickness width height : Z) : MusicEngine * result bool :=
  if negb (is_playing e) || negb (audio_initialized e) then (e, Return false)
  else
    match preview_distance (x - last_preview_x e) (y - last_preview_y e) with
    | Raise ex => (e, Raise ex)
    | Return distance =>
    let time_elapsed := (now - last_preview_time e)%Q in
    if negb (should_trigger e now distance) then (e, Return false)
    else
      match map_x_to_note x width with
      | Raise ex => (e, Raise ex)
      | Return raw_note =>
          let note := quantize_to_scale raw_note (scale_type e) (root_note e) in
          if (note =? last_note e) && Qltb time_elapsed 0.15
          then (e, Return false)
          else
            let velocity := map_thickness_to_volume thickness in
            match note_cache e !! cache_key (current_instrument e) note with
            | None => (e, Return false)
            | Some sound =>
                let e := play sound (inject_Z velocity / 127) e in
                let e := assign_last_note note e in
                let e := assign_last_note_time now e in
                let e := assign_last_preview_x x e in
                let e := assign_last_preview_y y e in
                let e := assign_last_preview_time now e in
                if is_recording e then
                  match map_y_to_duration y height with
                  | Raise ex => (e, Raise ex)
                  | Return duration =>
                      (record_note e now note velocity duration x y, Return true)
                  end
                else (e, Return true)
            end
      end
    end.

Definition reset_preview_state (e : MusicEngine) : MusicEngine :=
  assign_last_note (-1)
    (assign_last_preview_time 0
      (assign_last_preview_y 0
        (assign_last_preview_x 0 e))).

(** [play_bass_note(root_note=None)] *)
Definition play_bass_note (e : MusicEngine) (now : Q) (root : option Z)
    : MusicEngine :=
  if negb (bass_enabled e) || negb (audio_initialized e) then e
  else if Qltb (now - last_bass_time e) (bass_interval e) then e
  else
    let root_note := match root with Some r => r | None => root_note e end in
    let bass_note := root_note mod 12 + 24 in
    let e :=
      match note_cache e !! cache_key "bass" bass_note with
      | Some sound => play sound 0.5 e
      | None => e
      end in
    assign_last_bass_time now e.

(** *** Audio export *)

(** One stereo frame of the float buffer.  Sample values are exact
    rationals (the source holds them as float32). *)
Abbreviation frame := (Q * Q)%type.

Definition frame_add (a b : frame) : frame := (a.1 + b.1, a.2 + b.2)%Q.

(** A WAV file as handed to the [wave] module. *)
Record Wav := {
  nchannels : Z;
  sampwidth : Z;
  framerate : Z;
  frames : list (Z * Z)
}.

(** The part of the file system the export touches; paths in [locked]
    cannot be created or opened for writing. *)
Record FileSystem := {
  folders : gset string;
  wav_files : gmap string Wav;
  locked : gset string
}.

(** [n_samples = int(sample_rate * duration)] in
    [_render_note_to_audio], for [duration = event.duration / 1000.0]. *)
Definition n_samples (ev : NoteEvent) : result Z :=
  let duration := (float_of_Z (duration ev) / 1000)%float in
  int_of_float (44100 * duration)%float.

(** [_render_note_to_audio].  [synth ev i] is the value of sample [i] of
    the note, [wave * envelope * volume]; the waveform (sine, square,
    noise, ...) is not computed here.  [np.linspace] raises on a negative
    sample count. *)
Definition _render_note_to_audio (synth : NoteEvent → nat → Q) (ev : NoteEvent)
    : result (list frame) :=
  n ← n_samples ev;
  if n <? 0 then Raise ValueError
  else Return (map (fun i => (synth ev i, synth ev i)) (seq 0 (Z.to_nat n))).

(** [start_sample = int(event.timestamp * sample_rate)] *)
Definition start_sample (ev : NoteEvent) : result Z :=
  int_of_float (float_of_Q (timestamp ev) * 44100)%float.

(** An index of [slice(...).indices(n)]. *)
Definition slice_index (n i : Z) : Z :=
  if i <? 0 then Z.max (i + n) 0 else Z.min i n.

(** [l[:k]] *)
Definition slice_to {A : Type} (k : Z) (l : list A) : list A :=
  take (Z.to_nat (slice_index (Z.of_nat (length l)) k)) l.

(** Adds [audio] to [buf] frame by frame from position [lo] on. *)
Fixpoint add_at (lo : nat) (audio buf : list frame) : list frame :=
  match buf with
  | [] => []
  | b :: buf' =>
      match lo with
      | S lo' => b :: add_at lo' audio buf'
      | O =>
          match audio with
          | [] => buf
          | a :: audio' => frame_add b a :: add_at O audio' buf'
          end
      end
  end.

(** [buf[start:stop] += audio].  numpy accepts the operand when it has
    as many rows as the slice, or a single row, which is then added to
    every row of the slice. *)
Definition iadd_slice (buf : list frame) (start stop : Z) (audio : list frame)
    : result (list frame) :=
  let n := Z.of_nat (length buf) in
  let lo := slice_index n start in
  let hi := slice_index n stop in
  let rows := Z.max 0 (hi - lo) in
  if rows =? Z.of_nat (length audio)
  then Return (add_at (Z.to_nat lo) audio buf)
  else
    match audio with
    | [a] => Return (add_at (Z.to_nat lo) (replicate (Z.to_nat rows) a) buf)
    | _ => Raise ValueError
    end.

(** [total_samples]: from the last note of the list. *)
Definition total_samples (last_note : NoteEvent) : result Z :=
  let total_duration :=
    (float_of_Q (timestamp last_note)
     + float_of_Z (duration last_note) / 1000 + 0.5)%float in
  int_of_float (44100 * total_duration)%float.

(** Body of the loop over [notes]. *)
Definition mix_event (synth : NoteEvent → nat → Q) (total_samples : Z)
    (audio_buffer : list frame) (ev : NoteEvent) : result (list frame) :=
  note_audio ← _render_note_to_audio synth ev;
  start_sample ← start_sample ev;
  let end_sample := start_sample + Z.of_nat (length note_audio) in
  let note_audio :=
    if total_samples <? end_sample
    then slice_to (total_samples - start_sample) note_audio
    else note_audio in
  if (start_sample <? total_samples) && (0 <? Z.of_nat (length note_audio))
  then iadd_slice audio_buffer start_sample
         (start_sample + Z.of_nat (length note_audio)) note_audio
  else Return audio_buffer.

Fixpoint mix_events (synth : NoteEvent → nat → Q) (total_samples : Z)
    (audio_buffer : list frame) (notes : list NoteEvent) : result (list frame) :=
  match notes with
  | [] => Return audio_buffer
  | ev :: rest =>
      audio_buffer' ← mix_event synth total_samples audio_buffer ev;
      mix_events synth total_samples audio_buffer' rest
  end.

(** [np.max(np.abs(audio_buffer))], which raises on an empty buffer. *)
Definition max_abs (buf : list frame) : result Q :=
  match buf with
  | [] => Raise ValueError
  | _ => Return (foldr (fun f m => Qmax (Qmax (Qabs f.1) (Qabs f.2)) m) 0%Q buf)
  end.

(** Normalisation to a 0.9 peak, when the buffer is not silent. *)
Definition normalize (max_val : Q) (buf : list frame) : list frame :=
  if Qltb 0 max_val
  then map (fun f => (f.1 / max_val * 0.9, f.2 / max_val * 0.9)%Q) buf
  else buf.

(** [(audio_buffer * 32767).astype(np.int16)]; the values stay inside
    the int16 range, where the conversion truncates. *)
Definition to_int16 (buf : list frame) : list (Z * Z) :=
  map (fun f => (py_int (f.1 * 32767), py_int (f.2 * 32767))) buf.

(** The rendering inside the [try] block, up to [audio_int16]. *)
Definition render_audio (synth : NoteEvent → nat → Q) (notes : list NoteEvent)
    (last_note : NoteEvent) : result (list (Z * Z)) :=
  total ← total_samples last_note;
  if total <? 0 then Raise ValueError
  else
    mixed ← mix_events synth total (replicate (Z.to_nat total) (0, 0)%Q) notes;
    max_val ← max_abs mixed;
    Return (to_int16 (normalize max_val mixed)).

(** [export_audio(filename, notes)].  [stamp] is the formatted
    [datetime.now()] used for the default file name. *)
Definition export_audio (synth : NoteEvent → nat → Q) (stamp : string)
    (e : MusicEngine) (fs : FileSystem)
    (filename : option string) (notes : option (list NoteEvent))
    : FileSystem * result (option string) :=
  let notes := match notes with Some l => l | None => recorded_notes e end in
  match last notes with
  | None => (fs, Return None)
  | Some last_note =>
      if bool_decide (RECORDING_FOLDER ∈ locked fs) then (fs, Raise IOError)
      else
        let fs := {| folders := {[ RECORDING_FOLDER ]} ∪ folders fs;
                     wav_files := wav_files fs;
                     locked := locked fs |} in
        let filename :=
          match filename with
          | Some f => f
          | None => "music_" +:+ stamp +:+ ".wav"
          end in
        let filename :=
          if str_endswith (str_lower filename) ".wav" then filename
          else rsplit_dot_head filename +:+ ".wav" in
        let filepath := path_join RECORDING_FOLDER filename in
        match render_audio synth notes last_note with
        | Raise _ => (fs, Return None)
        | Return audio_int16 =>
            if bool_decide (filepath ∈ locked fs) then (fs, Return None)
            else
              ({| folders := folders fs;
                  wav_files :=
                    <[ filepath := {| nchannels := 2;
                                      sampwidth := 2;
                                      framerate := 44100;
                                      frames := audio_int16 |} ]> (wav_files fs);
                  locked := locked fs |},
               Return (Some filepath))
        end
  end.

(** A call that took the engine from [e] to [e'] triggered a sound. *)
Definition triggered (e e' : MusicEngine) : Prop :=
  length (mixer e') = S (length (mixer e)).

(** *** What the export is to produce *)





(** The path [export_audio] writes to. *)
Definition export_path (stamp : string) (filename : option string) : string :=
  let filename :=
    match filename with
    | Some f => f
    | None => "music_" +:+ stamp +:+ ".wav"
    end in
  let filename :=
    if str_endswith (str_lower filename) ".wav" then filename
    else rsplit_dot_head filename +:+ ".wav" in
  path_join RECORDING_FOLDER filename.


(** A note of [d] milliseconds at time [ts], and a renderer whose
    sample [i] is [i + 1], used in the examples. *)
Definition short_note (ts : Q) (d : Z) : NoteEvent := {|
  note := 60;
  velocity := 100;
  duration := d;
  instrument := "piano";
  timestamp := ts;
  x := 0;
  y := 0
|}.

Definition ramp (ev : NoteEvent) (i : nat) : Q := inject_Z (Z.of_nat i + 1).

Definition left_channel (r : result (list frame)) : list Q :=
  match r with
  | Return buf => map (fun f => Qred f.1) buf
  | Raise _ => []
  end.

(** *** Call sequences

    The calls a drawing session makes on the engine.  [play_note] and
    [play_preview_note] read the clock; the reading is part of the call. *)
Inductive call :=
| PlayNote (now : Q) (x y thickness width height : Z)
| PlayPreviewNote (now : Q) (x y thickness width height : Z)
| ResetPreviewState.

Definition call_time (c : call) : option Q :=
  match c with
  | PlayNote now _ _ _ _ _ => Some now
  | PlayPreviewNote now _ _ _ _ _ => Some now
  | ResetPreviewState => None
  end.

(** The engine after a call; a caller that catches the exception of a
    call goes on with the engine as the call left it. *)
Definition do_call (e : MusicEngine) (c : call) : MusicEngine :=
  match c with
  | PlayNote now x y thickness width height =>
      (play_note e now x y thickness width height).1
  | PlayPreviewNote now x y thickness width height =>
      (play_preview_note e now x y thickness width height).1
  | ResetPreviewState => reset_preview_state e
  end.

Definition do_calls (e : MusicEngine) (calls : list call) : MusicEngine :=
  foldl do_call e calls.

(** [new] is what the calls leading from [e] to [e'] appended to the recording buffer. *)
Definition appends (e e' : MusicEngine) (new : list NoteEvent) : Prop :=
  recorded_notes e' = recorded_notes e ++ new
  ∧ recording_start_time e' = recording_start_time e.

(** The clock readings of a call sequence, in call order. *)
Definition call_times (calls : list call) : list Q := omap call_time calls.

(** A session of two strokes, used in the examples. *)
Definition session : list call :=
  [ PlayPreviewNote 1 100 100 10 640 480;
    PlayPreviewNote 1.5 300 200 10 640 480;
    ResetPreviewState;
    PlayPreviewNote 1.6 500 300 10 640 480;
    PlayNote 2 200 100 10 640 480 ].

(** *** Further operations of the engine *)

(** [switch_instrument(direction)]; the dictionary it returns describes
    [current_instrument] and is not represented. *)
Definition switch_instrument (e : MusicEngine) (direction : Z) : MusicEngine :=
  let index := (instrument_index e + direction) mod Z.of_nat (length INSTRUMENT_LIST) in
  assign_current_instrument (INSTRUMENT_LIST !!! Z.to_nat index)
    (assign_instrument_index index e).

(** [toggle_recording], with the clock reading [now] for a start. *)
Definition toggle_recording (e : MusicEngine) (now : Q)
    : MusicEngine * (option (list NoteEvent) * bool) :=
  if is_recording e then
    let '(e', notes) := stop_recording e in (e', (Some notes, false))
  else (start_recording e now, (None, true)).

(** [instrument_index] is the position of [current_instrument] in
    [INSTRUMENT_LIST]. *)
Definition instrument_consistent (e : MusicEngine) : Prop :=
  0 <= instrument_index e
  ∧ INSTRUMENT_LIST !! Z.to_nat (instrument_index e) = Some (current_instrument e).

(** The mixer entries that the calls leading from [e] to [e'] added. *)
Definition plays (e e' : MusicEngine) (new : list (Sound * Q)) : Prop :=
  mixer e' = mixer e ++ new.



(** The entries that [__init__] can put in the cache. *)
Definition cache_entry (key : string) (sound : Sound) : Prop :=
  (∃ instr n, instr ∈ INSTRUMENT_LIST ∧ MIN_NOTE <= n <= MAX_NOTE
              ∧ key = cache_key instr n
              ∧ sound = Tone (INSTRUMENTS !!! instr) n)
  ∨ (∃ drum_type, drum_type ∈ ["kick"; "snare"; "hihat"]%string
                  ∧ key = ("drum_" +:+ drum_type)%string
                  ∧ sound = Drum drum_type)
  ∨ (∃ n, 24 <= n <= 48 ∧ key = cache_key "bass" n ∧ sound = BassTone n)
  ∨ (key = "metronome_high"%string ∧ sound = Tick 1200)
  ∨ (key = "metronome_low"%string ∧ sound = Tick 800).

(** Every entry of [cache] is one that [__init__] can put there, with a
    sound that the mixer could build. *)
Definition cache_sound (mixer_ok : Sound → bool) (cache : gmap string Sound) : Prop :=
  ∀ key sound, cache !! key = Some sound →
               mixer_ok sound = true ∧ cache_entry key sound.

End music_engine.

(** ** sequencer.py *)

Module sequencer.

Import config project_model.

Inductive PlaybackMode := SCAN | TIMELINE.

Record SequenceEvent := {
  time : Q;
  note : Z;
  velocity : Z;
  duration : Q;
  instrument : string;
  x : Z;
  y : Z
}.

(** The playback thread is not run here; [loops_started] counts the
    scheduling loops that [start] has launched. *)
Record Sequencer := {
  project : option Project;
  is_playing : bool;
  is_paused : bool;
  current_time : Q;
  playback_speed : Q;
  bpm : Z;
  quantize : string;
  mode : PlaybackMode;
  scan_duration : Q;
  scan_position : Z;
  scan_width : Z;
  events : list SequenceEvent;
  event_index : Z;
  stop_event : bool;
  loops_started : nat
}.

(** [Sequencer.__init__] *)
Definition new_sequencer : Sequencer := {|
  project := None;
  is_playing := false;
  is_paused := false;
  current_time := 0;
  playback_speed := 1;
  bpm := 120;
  quantize := "1/8";
  mode := SCAN;
  scan_duration := 4;
  scan_position := 0;
  scan_width := 640;
  events := [];
  event_index := 0;
  stop_event := false;
  loops_started := 0
|}.

Definition set_project (s : Sequencer) (p : Project) : Sequencer := {|
  project := Some p;
  is_playing := is_playing s;
  is_paused := is_paused s;
  current_time := current_time s;
  playback_speed := playback_speed s;
  bpm := project_model.bpm p;
  quantize := quantize s;
  mode := mode s;
  scan_duration := scan_duration s;
  scan_position := scan_position s;
  scan_width := width p;
  events := events s;
  event_index := event_index s;
  stop_event := stop_event s;
  loops_started := loops_started s
|}.

(** The dictionaries collected in [all_points]. *)
Record ScanPoint := {
  p_x : Z;
  p_y : Z;
  p_thickness : Z;
  p_instrument : string
}.

Definition collect_points (strokes : list Stroke) : list ScanPoint :=
  flat_map (fun stroke =>
    map (fun point => {| p_x := project_model.x point;
                         p_y := project_model.y point;
                         p_thickness := thickness point;
                         p_instrument := project_model.instrument stroke |})
        (points stroke)) strokes.

(** Loop state of [generate_scan_events]: [events], [last_note], [last_x]. *)
Definition scan_state : Type := list SequenceEvent * Z * Z.

(** [beat_duration = 60.0 / self.bpm] *)
Definition beat_duration (s : Sequencer) : result Q :=
  bpm_float ← py_float (bpm s);
  float_truediv 60 bpm_float.

(** [abs(t - prev) < 0.1] on floats: the difference is rounded, [0.1] is
    the double nearest to it, and no infinite difference is below it. *)
Definition within_tenth (t prev : Q) : bool :=
  negb (is_inf t) && negb (is_inf prev)
  && Qltb (Qabs (b64 (t - prev))) (b64 0.1).

(** One iteration of the loop over [all_points]. *)
Definition scan_step (s : Sequencer) (proj : Project) (beat_duration : Q)
    (min_x_gap : Z) (st : scan_state) (p : ScanPoint) : result scan_state :=
  let '(events, last_note, last_x) := st in
  if (0 <=? last_x) && (Z.abs (p_x p - last_x) <? min_x_gap) then Return st
  else
    share ← int_truediv (p_x p) (scan_width s);
    let t := b64 (share * scan_duration s) in
    t ← quantize_time t (bpm s) (quantize s);
    raw ← map_x_to_note (p_x p) (scan_width s);
    let note := quantize_to_scale raw (scale proj) (root_note proj) in
    let recent :=
      match last events with
      | Some e => within_tenth t (time e)
      | None => false
      end in
    if (note =? last_note) && recent then Return st
    else
      let velocity := map_thickness_to_volume (p_thickness p) in
      Return (events ++ [ {| time := t;
                             note := note;
                             velocity := velocity;
                             duration := b64 (beat_duration / 2);
                             instrument := p_instrument p;
                             x := p_x p;
                             y := p_y p |} ],
              note, p_x p).

Fixpoint scan_loop (s : Sequencer) (proj : Project) (beat_duration : Q)
    (min_x_gap : Z) (all_points : list ScanPoint) (st : scan_state)
    : result scan_state :=
  match all_points with
  | [] => Return st
  | p :: rest =>
      st' ← scan_step s proj beat_duration min_x_gap st p;
      scan_loop s proj beat_duration min_x_gap rest st'
  end.

Definition generate_scan_events (s : Sequencer) : result (list SequenceEvent) :=
  match project s with
  | None => Return []
  | Some proj =>
      match strokes proj with
      | [] => Return []
      | _ =>
          beat_duration ← beat_duration s;
          let all_points :=
            py_sort (fun p q => p_x p <=? p_x q) (collect_points (strokes proj)) in
          let min_x_gap := scan_width s / 32 in
          st ← scan_loop s proj beat_duration min_x_gap all_points ([], -1, -1);
          Return (st.1.1)
      end
  end.

(** Loop over [enumerate(stroke.points)] in [generate_timeline_events]. *)
Fixpoint timeline_stroke (s : Sequencer) (proj : Project) (beat_duration : Q)
    (stroke : Stroke) (sample_interval : Z) (i : Z) (pts : list Point)
    (events : list SequenceEvent) : result (list SequenceEvent) :=
  match pts with
  | [] => Return events
  | point :: rest =>
      if negb (i mod sample_interval =? 0)
      then timeline_stroke s proj beat_duration stroke sample_interval (i + 1) rest events
      else
        t ← quantize_time (project_model.t point) (bpm s) (quantize s);
        raw ← map_x_to_note (project_model.x point) (width proj);
        let note := quantize_to_scale raw (scale proj) (root_note proj) in
        let velocity := map_thickness_to_volume (thickness point) in
        timeline_stroke s proj beat_duration stroke sample_interval (i + 1) rest
          (events ++ [ {| time := t;
                          note := note;
                          velocity := velocity;
                          duration := b64 (beat_duration / 2);
                          instrument := project_model.instrument stroke;
                          x := project_model.x point;
                          y := project_model.y point |} ])
  end.

Fixpoint timeline_loop (s : Sequencer) (proj : Project) (beat_duration : Q)
    (strokes : list Stroke) (events : list SequenceEvent)
    : result (list SequenceEvent) :=
  match strokes with
  | [] => Return events
  | stroke :: rest =>
      let sample_interval := Z.max 1 (Z.of_nat (length (points stroke)) / 8) in
      events' ← timeline_stroke s proj beat_duration stroke sample_interval 0
                  (points stroke) events;
      timeline_loop s proj beat_duration rest events'
  end.

Definition generate_timeline_events (s : Sequencer) : result (list SequenceEvent) :=
  match project s with
  | None => Return []
  | Some proj =>
      match strokes proj with
      | [] => Return []
      | _ =>
          beat_duration ← beat_duration s;
          events ← timeline_loop s proj beat_duration (strokes proj) [];
          Return (py_sort (fun e1 e2 => Qle_bool (time e1) (time e2)) events)
      end
  end.

Definition with_mode (s : Sequencer) (m : PlaybackMode) : Sequencer := {|
  project := project s;
  is_playing := is_playing s;
  is_paused := is_paused s;
  current_time := current_time s;
  playback_speed := playback_speed s;
  bpm := bpm s;
  quantize := quantize s;
  mode := m;
  scan_duration := scan_duration s;
  scan_position := scan_position s;
  scan_width := scan_width s;
  events := events s;
  event_index := event_index s;
  stop_event := stop_event s;
  loops_started := loops_started s
|}.

(** A method returns the object after the call and what the call
    returned or raised. *)
Definition prepare_playback (s : Sequencer) (new_mode : option PlaybackMode)
    : Sequencer * result () :=
  let s := match new_mode with Some m => with_mode s m | None => s end in
  let generated :=
    match mode s with
    | SCAN => generate_scan_events s
    | TIMELINE => generate_timeline_events s
    end in
  match generated with
  | Raise e => (s, Raise e)
  | Return evs =>
      ({| project := project s;
          is_playing := is_playing s;
          is_paused := is_paused s;
          current_time := 0;
          playback_speed := playback_speed s;
          bpm := bpm s;
          quantize := quantize s;
          mode := mode s;
          scan_duration := scan_duration s;
          scan_position := 0;
          scan_width := scan_width s;
          events := evs;
          event_index := 0;
          stop_event := stop_event s;
          loops_started := loops_started s |},
       Return ())
  end.

Definition start (s : Sequencer) : Sequencer * result () :=
  if is_playing s then (s, Return ())
  else
    match prepare_playback s None with
    | (s', Raise e) => (s', Raise e)
    | (s', Return _) =>
        ({| project := project s';
            is_playing := true;
            is_paused := false;
            current_time := current_time s';
            playback_speed := playback_speed s';
            bpm := bpm s';
            quantize := quantize s';
            mode := mode s';
            scan_duration := scan_duration s';
            scan_position := scan_position s';
            scan_width := scan_width s';
            events := events s';
            event_index := event_index s';
            stop_event := false;
            loops_started := S (loops_started s') |},
         Return ())
    end.

(** *** Playback *)

Definition assign_is_playing (v : bool) (s : Sequencer) : Sequencer := {|
  project := project s;
  is_playing := v;
  is_paused := is_paused s;
  current_time := current_time s;
  playback_speed := playback_speed s;
  bpm := bpm s;
  quantize := quantize s;
  mode := mode s;
  scan_duration := scan_duration s;
  scan_position := scan_position s;
  scan_width := scan_width s;
  events := events s;
  event_index := event_index s;
  stop_event := stop_event s;
  loops_started := loops_started s
|}.

Definition assign_is_paused (v : bool) (s : Sequencer) : Sequencer := {|
  project := project s;
  is_playing := is_playing s;
  is_paused := v;
  current_time := current_time s;
  playback_speed := playback_speed s;
  bpm := bpm s;
  quantize := quantize s;
  mode := mode s;
  scan_duration := scan_duration s;
  scan_position := scan_position s;
  scan_width := scan_width s;
  events := events s;
  event_index := event_index s;
  stop_event := stop_event s;
  loops_started := loops_started s
|}.

Definition assign_current_time (v : Q) (s : Sequencer) : Sequencer := {|
  project := project s;
  is_playing := is_playing s;
  is_paused := is_paused s;
  current_time := v;
  playback_speed := playback_speed s;
  bpm := bpm s;
  quantize := quantize s;
  mode := mode s;
  scan_duration := scan_duration s;
  scan_position := scan_position s;
  scan_width := scan_width s;
  events := events s;
  event_index := event_index s;
  stop_event := stop_event s;
  loops_started := loops_started s
|}.

Definition assign_scan_position (v : Z) (s : Sequencer) : Sequencer := {|
  project := project s;
  is_playing := is_playing s;
  is_paused := is_paused s;
  current_time := current_time s;
  playback_speed := playback_speed s;
  bpm := bpm s;
  quantize := quantize s;
  mode := mode s;
  scan_duration := scan_duration s;
  scan_position := v;
  scan_width := scan_width s;
  events := events s;
  event_index := event_index s;
  stop_event := stop_event s;
  loops_started := loops_started s
|}.

Definition assign_event_index (v : Z) (s : Sequencer) : Sequencer := {|
  project := project s;
  is_playing := is_playing s;
  is_paused := is_paused s;
  current_time := current_time s;
  playback_speed := playback_speed s;
  bpm := bpm s;
  quantize := quantize s;
  mode := mode s;
  scan_duration := scan_duration s;
  scan_position := scan_position s;
  scan_width := scan_width s;
  events := events s;
  event_index := v;
  stop_event := stop_event s;
  loops_started := loops_started s
|}.

Definition assign_stop_event (v : bool) (s : Sequencer) : Sequencer := {|
  project := project s;
  is_playing := is_playing s;
  is_paused := is_paused s;
  current_time := current_time s;
  playback_speed := playback_speed s;
  bpm := bpm s;
  quantize := quantize s;
  mode := mode s;
  scan_duration := scan_duration s;
  scan_position := scan_position s;
  scan_width := scan_width s;
  events := events s;
  event_index := event_index s;
  stop_event := v;
  loops_started := loops_started s
|}.

Definition pause (s : Sequencer) : Sequencer :=
  assign_is_paused (negb (is_paused s)) s.

(** [stop]; the wait for the playback thread is not represented. *)
Definition stop (s : Sequencer) : Sequencer :=
  assign_scan_position 0
    (assign_event_index 0
      (assign_current_time 0
        (assign_stop_event true
          (assign_is_paused false
            (assign_is_playing false s))))).

(** A call of one of the three callbacks. *)
Inductive callback :=
| OnNotePlay (event : SequenceEvent)
| OnScanPosition (position : Z)
| OnPlaybackEnd.

(** What the playback thread works on: the sequencer, its music engine
    ([None] without one), which callbacks are set, the calls made on
    them so far, and [start_time], the local variable of
    [_playback_loop]. *)
Record Playback := {
  self : Sequencer;
  engine : option music_engine.MusicEngine;
  on_note_play : bool;
  on_scan_position : bool;
  on_playback_end : bool;
  called : list callback;
  start_time : Q
}.

Definition with_self (s : Sequencer) (pb : Playback) : Playback := {|
  self := s;
  engine := engine pb;
  on_note_play := on_note_play pb;
  on_scan_position := on_scan_position pb;
  on_playback_end := on_playback_end pb;
  called := called pb;
  start_time := start_time pb
|}.

Definition with_engine (e : option music_engine.MusicEngine) (pb : Playback)
    : Playback := {|
  self := self pb;
  engine := e;
  on_note_play := on_note_play pb;
  on_scan_position := on_scan_position pb;
  on_playback_end := on_playback_end pb;
  called := called pb;
  start_time := start_time pb
|}.

Definition with_called (c : list callback) (pb : Playback) : Playback := {|
  self := self pb;
  engine := engine pb;
  on_note_play := on_note_play pb;
  on_scan_position := on_scan_position pb;
  on_playback_end := on_playback_end pb;
  called := c;
  start_time := start_time pb
|}.

Definition with_start_time (t : Q) (pb : Playback) : Playback := {|
  self := self pb;
  engine := engine pb;
  on_note_play := on_note_play pb;
  on_scan_position := on_scan_position pb;
  on_playback_end := on_playback_end pb;
  called := called pb;
  start_time := t
|}.

(** [if self.on_...: self.on_...(...)] *)
Definition call_back (is_set : bool) (c : callback) (pb : Playback) : Playback :=
  if is_set then with_called (called pb ++ [c]) pb else pb.

(** [_trigger_event]; the update of the waveform display is not
    represented. *)
Definition _trigger_event (pb : Playback) (event : SequenceEvent) : Playback :=
  let pb :=
    match engine pb with
    | Some e =>
        let e :=
          if decide (instrument event = music_engine.current_instrument e) then e
          else music_engine.set_instrument e (instrument event) in
        let e :=
          match music_engine.note_cache e
                  !! music_engine.cache_key (instrument event) (note event) with
          | Some sound =>
              music_engine.play sound (inject_Z (velocity event) / 127)%Q e
          | None => e
          end in
        with_engine (Some e) pb
    | None => pb
    end in
  call_back (on_note_play pb) (OnNotePlay event) pb.

(** What can end the playback thread abnormally. *)
Inductive thread_exn :=
| Arithmetic (e : exn)
| IndexError.

(** How an iteration of the loop of [_playback_loop] ends: the loop goes
    on, is left, or the thread dies of an exception. *)
Inductive loop_status :=
| Running
| Exited
| Died (e : thread_exn).

(** The inner loop, [while self.event_index < len(self.events)].  An
    iteration that does not leave the loop moves [event_index] one
    closer to the length, so [fuel] iterations are enough when [fuel] is
    their difference. *)
Fixpoint dispatch_events (fuel : nat) (pb : Playback) : Playback * option thread_exn :=
  match fuel with
  | O => (pb, None)
  | S fuel =>
      let s := self pb in
      if event_index s <? Z.of_nat (length (events s)) then
        match py_index (events s) (event_index s) with
        | None => (pb, Some IndexError)
        | Some event =>
            if Qle_bool (time event) (current_time s) then
              let pb := _trigger_event pb event in
              dispatch_events fuel
                (with_self (assign_event_index (event_index (self pb) + 1) (self pb)) pb)
            else (pb, None)
        end
      else (pb, None)
  end.

Definition events_left (s : Sequencer) : nat :=
  Z.to_nat (Z.of_nat (length (events s)) - event_index s).

(** The scan-position block of the loop body. *)
Definition update_scan_position (pb : Playback) : result Playback :=
  let s := self pb in
  match mode s with
  | SCAN =>
      if Qeq_bool (scan_duration s) 0 then Raise ZeroDivisionError
      else
        let position :=
          py_int (current_time s / scan_duration s * inject_Z (scan_width s)) in
        let position := Z.min position (scan_width s) in
        Return (call_back (on_scan_position pb) (OnScanPosition position)
                  (with_self (assign_scan_position position s) pb))
  | TIMELINE => Return pb
  end.

(** [max_time] in the loop body. *)
Definition max_time (s : Sequencer) : Q :=
  match mode s with
  | SCAN => scan_duration s
  | TIMELINE =>
      match last (events s) with
      | Some event => (time event + 1)%Q
      | None => 0%Q
      end
  end.

(** The end-of-playback block of the loop body. *)
Definition check_end (pb : Playback) : Playback * loop_status :=
  let s := self pb in
  if Qle_bool (max_time s) (current_time s) then
    (call_back (on_playback_end pb) OnPlaybackEnd
       (with_self (assign_is_playing false s) pb),
     Exited)
  else (pb, Running).

(** One iteration of the loop of [_playback_loop], with the clock reading
    [now] that the iteration takes.  The sleeps are not represented:
    time passes between the readings.  The thread is followed on its
    own: calls of [pause] and [stop] by other threads fall between
    iterations. *)
Definition loop_iteration (now : Q) (pb : Playback) : Playback * loop_status :=
  let s := self pb in
  if negb (is_playing s && negb (stop_event s)) then (pb, Exited)
  else if is_paused s then (with_start_time (now - current_time s) pb, Running)
  else
    let pb :=
      with_self (assign_current_time ((now - start_time pb) * playback_speed s)%Q s)
        pb in
    match update_scan_position pb with
    | Raise e => (pb, Died (Arithmetic e))
    | Return pb =>
        match dispatch_events (events_left (self pb)) pb with
        | (pb, Some e) => (pb, Died e)
        | (pb, None) => check_end pb
        end
    end.

(** The loop, over the clock readings of its iterations. *)
Fixpoint run_loop (readings : list Q) (pb : Playback) : Playback * loop_status :=
  match readings with
  | [] => (pb, Running)
  | now :: rest =>
      match loop_iteration now pb with
      | (pb, Running) => run_loop rest pb
      | ended => ended
      end
  end.

(** [_playback_loop]: [t0] is the reading that initialises [start_time]. *)
Definition _playback_loop (t0 : Q) (readings : list Q) (pb : Playback)
    : Playback * loop_status :=
  run_loop readings (with_start_time t0 pb).

(** The events that the calls on [on_note_play] were made with. *)
Definition notes_called (calls : list callback) : list SequenceEvent :=
  omap (fun c => match c with OnNotePlay event => Some event | _ => None end) calls.

(** The number of sounds that the engine of a playback has played. *)
Definition sounds_played (pb : Playback) : nat :=
  match engine pb with
  | Some e => length (music_engine.mixer e)
  | None => O
  end.

(** The longest prefix of [l] whose events are due at time [t]. *)
Fixpoint due_prefix (t : Q) (l : list SequenceEvent) : list SequenceEvent :=
  match l with
  | [] => []
  | event :: rest =>
      if Qle_bool (time event) t then event :: due_prefix t rest else []
  end.

(** A playback as [start] hands it to the thread: a sequencer, an engine
    and all three callbacks set. *)
Definition playback_of (s : Sequencer) (e : music_engine.MusicEngine) : Playback := {|
  self := s;
  engine := Some e;
  on_note_play := true;
  on_scan_position := true;
  on_playback_end := true;
  called := [];
  start_time := 0
|}.

(** The time at which scan mode places a point of abscissa [xv]: its
    share of [scan_duration], snapped to the grid. *)
Definition scan_time (s : Sequencer) (xv : Z) : result Q :=
  share ← int_truediv xv (scan_width s);
  quantize_time (b64 (share * scan_duration s)) (bpm s) (quantize s).



(** An event made from the point [p] of [all_points]. *)
Definition event_of_point (s : Sequencer) (p : ScanPoint) (e : SequenceEvent) : Prop :=
  x e = p_x p ∧ y e = p_y p ∧ instrument e = p_instrument p
  ∧ velocity e = map_thickness_to_volume (p_thickness p)
  ∧ ∃ beat, beat_duration s = Return beat ∧ duration e = b64 (beat / 2).

(** Two events that may follow one another in a scan list, by position:
    the second is not to the left of the first, and at least [gap] to
    the right of it when the first is not left of the canvas. *)
Definition spaced (gap : Z) (e1 e2 : SequenceEvent) : Prop :=
  x e1 <= x e2 ∧ (0 <= x e1 → x e1 + gap <= x e2).

(** The number of indices below [n] that [generate_timeline_events]
    samples: the multiples of [max(1, n // 8)]. *)
Definition sampled_count (n : Z) : Z :=
  let sample_interval := Z.max 1 (n / 8) in
  (n + sample_interval - 1) / sample_interval.

(** A project with one stroke of three points, used in the examples. *)
Definition one_stroke_project : Project := {|
  name := "demo";
  project_model.bpm := 120;
  project_model.quantize := "1/8";
  scale := "pentatonic";
  root_note := 60;
  width := 640;
  height := 480;
  strokes :=
    [ {| project_model.instrument := "piano";
         color := (255, 200, 100);
         points := [ {| project_model.x := 40; project_model.y := 100;
                        t := 0; thickness := 10 |};
                     {| project_model.x := 320; project_model.y := 200;
                        t := 0.5; thickness := 10 |};
                     {| project_model.x := 600; project_model.y := 300;
                        t := 1; thickness := 20 |} ];
         start_t := 0;
         end_t := 1;
         stroke_id := "stroke_1" |} ];
  created_at := "2026-01-01T12:00:00";
  project_model.duration := 1
|}.

(** The points from index [i] on that are at a multiple of [k]. *)
Definition samples_from (k : Z) (i : nat) (pts : list Point) : list Point :=
  omap (fun ip : nat * Point =>
          if Z.of_nat ip.1 mod k =? 0 then Some ip.2 else None)
       (zip (seq i (length pts)) pts).

(** The points of a stroke that [generate_timeline_events] samples:
    [[p for i, p in enumerate(pts) if i % max(1, len(pts) // 8) == 0]]. *)
Definition sampled (pts : list Point) : list Point :=
  let sample_interval := Z.max 1 (Z.of_nat (length pts) / 8) in
  omap (fun ip : nat * Point =>
          if Z.of_nat ip.1 mod sample_interval =? 0 then Some ip.2 else None)
       (zip (seq 0 (length pts)) pts).

(** An event made from the point [point] of the stroke [stroke] in
    timeline mode. *)
Definition event_of_sample (s : Sequencer) (proj : Project) (stroke : Stroke)
    (point : Point) (e : SequenceEvent) : Prop :=
  quantize_time (t point) (bpm s) (quantize s) = Return (time e)
  ∧ (∃ raw, map_x_to_note (project_model.x point) (width proj) = Return raw
            ∧ note e = quantize_to_scale raw (scale proj) (root_note proj))
  ∧ velocity e = map_thickness_to_volume (thickness point)
  ∧ (∃ beat, beat_duration s = Return beat ∧ duration e = b64 (beat / 2))
  ∧ instrument e = project_model.instrument stroke
  ∧ x e = project_model.x point
  ∧ y e = project_model.y point.

(** A project with one stroke of sixteen points, drawn from left to
    right at 25 points a second. *)
Definition long_stroke_project : Project := {|
  name := "long";
  project_model.bpm := 120;
  project_model.quantize := "1/8";
  scale := "pentatonic";
  root_note := 60;
  width := 640;
  height := 480;
  strokes :=
    [ {| project_model.instrument := "guitar";
         color := (255, 200, 100);
         points := map (fun i => {| project_model.x := 40 * i;
                                    project_model.y := 100 + 10 * i;
                                    t := inject_Z i / 25;
                                    thickness := 10 |})
                       (seqZ 0 16);
         start_t := 0;
         end_t := 15 / 25;
         stroke_id := "stroke_1" |} ];
  created_at := "2026-01-01T12:00:00";
  project_model.duration := 15 / 25
|}.

(** A project whose width is negative, with two points. *)
Definition mirrored_project : Project := {|
  name := "mirrored";
  project_model.bpm := 120;
  project_model.quantize := "1/8";
  scale := "pentatonic";
  root_note := 60;
  width := -640;
  height := 480;
  strokes :=
    [ {| project_model.instrument := "piano";
         color := (255, 200, 100);
         points := [ {| project_model.x := 0; project_model.y := 100;
                        t := 0; thickness := 10 |};
                     {| project_model.x := 320; project_model.y := 200;
                        t := 0.5; thickness := 10 |} ];
         start_t := 0;
         end_t := 0.5;
         stroke_id := "stroke_1" |} ];
  created_at := "2026-01-01T12:00:00";
  project_model.duration := 0.5
|}.

End sequencer.

(** * Properties *)

Section Binary64.

Lemma py_int_nonneg (q : Q) : (0 <= q)%Q → py_int q = Qfloor q.
Proof.
  intros Hq. destruct q as [a b]. unfold py_int, Qfloor. simpl.
  apply Z.quot_div_nonneg; [| lia].
  unfold Qle in Hq. simpl in Hq. lia.
Qed.

Lemma Qfloor_bounds (q : Q) (lo hi : Z) :
  (inject_Z lo <= q)%Q → (q < inject_Z hi)%Q → lo <= Qfloor q < hi.
Proof.
  intros Hlo Hhi. split.
  - rewrite <- (Qfloor_Z lo). apply Qfloor_resp_le, Hlo.
  - rewrite Zlt_Qlt. eapply Qle_lt_trans; [apply Qfloor_le | exact Hhi].
Qed.

Lemma unit_ratio (x width : Z) :
  0 <= x < width → (0 <= inject_Z x / inject_Z width < 1)%Q.
Proof.
  intros [Hx Hw].
  assert (Hpos : (0 < inject_Z width)%Q)
    by (change 0%Q with (inject_Z 0); rewrite <- Zlt_Qlt; lia).
  split.
  - apply Qle_shift_div_l; [exact Hpos |].
    rewrite Qmult_0_l. change 0%Q with (inject_Z 0). rewrite <- Zle_Qle. lia.
  - apply Qlt_shift_div_r; [exact Hpos |].
    rewrite Qmult_1_l. rewrite <- Zlt_Qlt. lia.
Qed.

Lemma pow2_pos (z : Z) : (0 < 2 ^ z)%Q.
Proof. apply Qpower_0_lt. reflexivity. Qed.

Lemma pow2_add (a b : Z) : (2 ^ (a + b) == 2 ^ a * 2 ^ b)%Q.
Proof. apply Qpower_plus. discriminate. Qed.

Lemma pow2_le (a b : Z) : a <= b → (2 ^ a <= 2 ^ b)%Q.
Proof. intros H. apply Qpower_le_compat_l; [exact H | discriminate]. Qed.

Lemma pow2_lt (a b : Z) : a < b → (2 ^ a < 2 ^ b)%Q.
Proof. intros H. apply Qpower_lt_compat_l; [exact H | reflexivity]. Qed.

Lemma pow2_lt_inv (a b : Z) : (2 ^ a < 2 ^ b)%Q → a < b.
Proof. intros H. apply (Qpower_lt_compat_l_inv 2); [exact H | reflexivity]. Qed.

Lemma pow2_inject (n : Z) : 0 <= n → (inject_Z (2 ^ n) == 2 ^ n)%Q.
Proof. intros H. apply (Zpower_Qpower 2 n H). Qed.

Lemma Z_log2_Q (a : Z) :
  0 < a → (2 ^ Z.log2 a <= inject_Z a)%Q ∧ (inject_Z a < 2 ^ (Z.log2 a + 1))%Q.
Proof.
  intros Ha. pose proof (Z.log2_spec a Ha) as [Hlo Hhi].
  pose proof (Z.log2_nonneg a) as Hl.
  rewrite <- !pow2_inject by lia. rewrite <- Zle_Qle, <- Zlt_Qlt.
  replace (Z.succ (Z.log2 a)) with (Z.log2 a + 1) in Hhi by lia. auto.
Qed.

Lemma ilog2_spec (q : Q) :
  (0 < q)%Q → (2 ^ ilog2 q <= q)%Q ∧ (q < 2 ^ (ilog2 q + 1))%Q.
Proof.
  intros Hq. unfold ilog2.
  destruct q as [a b].
  assert (Ha : 0 < a) by (unfold Qlt in Hq; simpl in Hq; lia).
  cbn [Qnum Qden].
  destruct (Z_log2_Q a Ha) as [Ha1 Ha2].
  destruct (Z_log2_Q (Z.pos b) ltac:(lia)) as [Hb1 Hb2].
  set (la := Z.log2 a) in *. set (lb := Z.log2 (Z.pos b)) in *.
  assert (Hq' : a # b == inject_Z a / inject_Z (Z.pos b)) by (rewrite Qmake_Qdiv; reflexivity).
  pose proof (pow2_pos la). pose proof (pow2_pos lb). pose proof (pow2_pos (la - lb)).
  assert (Hb0 : (0 < inject_Z (Z.pos b))%Q) by (unfold Qlt; simpl; lia).
  assert (E1 : (2 ^ (la + 1) == 2 ^ (la - lb + 1) * 2 ^ lb)%Q).
  { rewrite <- pow2_add. replace (la - lb + 1 + lb) with (la + 1) by lia. reflexivity. }
  assert (E2 : (2 ^ la * 2 == 2 ^ (la - lb - 1) * 2 ^ (lb + 1) * 2)%Q).
  { rewrite <- pow2_add. replace (la - lb - 1 + (lb + 1)) with la by lia. reflexivity. }
  assert (Hmul : (a # b) * inject_Z (Z.pos b) == inject_Z a).
  { rewrite Hq'. field. lra. }
  destruct (Qle_bool (2 ^ (la - lb)) (a # b)) eqn:Hle.
  - apply Qle_bool_iff in Hle. split; [exact Hle |].
    apply Qnot_le_lt. intros Hge.
    pose proof (pow2_pos (la - lb + 1)).
    assert ((2 ^ (la - lb + 1) * 2 ^ lb <= (a # b) * inject_Z (Z.pos b))%Q).
    { apply Qmult_le_compat_nonneg; split; lra. }
    lra.
  - assert (Hlt : (a # b < 2 ^ (la - lb))%Q).
    { apply Qnot_le_lt. intros H'. apply Qle_bool_iff in H'. congruence. }
    replace (la - lb - 1 + 1) with (la - lb) by lia.
    split; [| exact Hlt].
    apply Qnot_lt_le. intros Hsmall.
    pose proof (pow2_pos (la - lb - 1)). pose proof (pow2_pos (lb + 1)).
    assert (E3 : (2 ^ la == 2 ^ (la - lb - 1) * 2 ^ (lb + 1))%Q).
    { rewrite <- pow2_add. replace (la - lb - 1 + (lb + 1)) with la by lia. reflexivity. }
    assert (Hstrict : ((a # b) * inject_Z (Z.pos b) < 2 ^ (la - lb - 1) * 2 ^ (lb + 1))%Q).
    { apply Qle_lt_trans with ((a # b) * 2 ^ (lb + 1))%Q.
      - apply Qmult_le_l; [exact Hq | lra].
      - apply Qmult_lt_r; [assumption | exact Hsmall]. }
    lra.
Qed.

Lemma ilog2_mono (q1 q2 : Q) : (0 < q1)%Q → (q1 <= q2)%Q → ilog2 q1 <= ilog2 q2.
Proof.
  intros H1 H12.
  destruct (ilog2_spec q1 H1) as [Hlo _].
  destruct (ilog2_spec q2 ltac:(lra)) as [_ Hhi].
  assert (H : (2 ^ ilog2 q1 < 2 ^ (ilog2 q2 + 1))%Q) by lra.
  apply pow2_lt_inv in H. lia.
Qed.

Lemma py_round_bounds (q : Q) : Qfloor q <= py_round q <= Qfloor q + 1.
Proof.
  unfold py_round.
  destruct (_ ?= _)%Q; [destruct (Z.even _) | |]; lia.
Qed.

Lemma py_round_mono (q1 q2 : Q) : (q1 <= q2)%Q → py_round q1 <= py_round q2.
Proof.
  intros Hle.
  pose proof (Qfloor_resp_le _ _ Hle) as Hfloor.
  destruct (Z.eq_dec (Qfloor q1) (Qfloor q2)) as [Heq | Hne].
  - unfold py_round. rewrite <- Heq.
    destruct (Qcompare_spec (q1 - inject_Z (Qfloor q1)) (1 # 2)) as [H1 | H1 | H1];
      destruct (Qcompare_spec (q2 - inject_Z (Qfloor q1)) (1 # 2)) as [H2 | H2 | H2];
      try destruct (Z.even (Qfloor q1)); try lia; lra.
  - pose proof (py_round_bounds q1). pose proof (py_round_bounds q2). lia.
Qed.

Lemma py_round_integer (k : Z) : py_round (inject_Z k) = k.
Proof.
  unfold py_round. rewrite Qfloor_Z.
  destruct (Qcompare_spec (inject_Z k - inject_Z k) (1 # 2)) as [H | H | H];
    [lra | reflexivity | lra].
Qed.

Lemma b64_pos_nearest (q : Q) :
  (b64_pos q == if Qle_bool (2 ^ 1024) (nearest q) then 2 ^ 1024 else nearest q)%Q.
Proof. unfold b64_pos. apply Qred_correct. Qed.

Lemma scaled_le (q : Q) (u k : Z) :
  (q <= 2 ^ (k + u))%Q → 0 <= k → py_round (q / 2 ^ u) <= 2 ^ k.
Proof.
  intros Hq Hk. rewrite <- (py_round_integer (2 ^ k)).
  apply py_round_mono. rewrite pow2_inject by exact Hk.
  pose proof (pow2_pos u). apply Qle_shift_div_r; [assumption |].
  rewrite <- pow2_add. exact Hq.
Qed.

Lemma scaled_ge (q : Q) (u k : Z) :
  (2 ^ (k + u) <= q)%Q → 0 <= k → 2 ^ k <= py_round (q / 2 ^ u).
Proof.
  intros Hq Hk. rewrite <- (py_round_integer (2 ^ k)) at 1.
  apply py_round_mono. rewrite pow2_inject by exact Hk.
  pose proof (pow2_pos u). apply Qle_shift_div_l; [assumption |].
  rewrite <- pow2_add. exact Hq.
Qed.

Lemma nearest_lower (q : Q) :
  (0 < q)%Q → -1074 <= ilog2 q - 52 → (2 ^ ilog2 q <= nearest q)%Q.
Proof.
  intros Hq Hnormal. unfold nearest, ulp_exp.
  rewrite Z.max_r by exact Hnormal.
  destruct (ilog2_spec q Hq) as [Hlo _].
  assert (H : 2 ^ 52 <= py_round (q / 2 ^ (ilog2 q - 52))).
  { apply scaled_ge; [| lia]. replace (52 + (ilog2 q - 52)) with (ilog2 q) by lia. exact Hlo. }
  rewrite Zle_Qle, pow2_inject in H by lia.
  pose proof (pow2_pos (ilog2 q - 52)).
  assert (E : (2 ^ ilog2 q == 2 ^ 52 * 2 ^ (ilog2 q - 52))%Q).
  { rewrite <- pow2_add. replace (52 + (ilog2 q - 52)) with (ilog2 q) by lia. reflexivity. }
  rewrite E. apply Qmult_le_compat_r; [exact H | lra].
Qed.

Lemma nearest_upper (q : Q) :
  (0 < q)%Q → (nearest q <= 2 ^ Z.max (ilog2 q + 1) (ulp_exp q))%Q.
Proof.
  intros Hq. unfold nearest.
  set (u := ulp_exp q). set (e := ilog2 q).
  destruct (ilog2_spec q Hq) as [_ Hhi]. fold e in Hhi.
  pose proof (pow2_pos u).
  destruct (Z.le_gt_cases u (e + 1)) as [Hle | Hgt].
  - rewrite Z.max_l by exact Hle.
    assert (H' : py_round (q / 2 ^ u) <= 2 ^ (e + 1 - u)).
    { apply scaled_le; [| lia]. replace (e + 1 - u + u) with (e + 1) by lia. lra. }
    rewrite Zle_Qle, pow2_inject in H' by lia.
    assert (E : (2 ^ (e + 1) == 2 ^ (e + 1 - u) * 2 ^ u)%Q).
    { rewrite <- pow2_add. replace (e + 1 - u + u) with (e + 1) by lia. reflexivity. }
    rewrite E. apply Qmult_le_compat_r; [exact H' | lra].
  - rewrite Z.max_r by lia.
    assert (H' : py_round (q / 2 ^ u) <= 2 ^ 0).
    { apply scaled_le; [| lia]. rewrite Z.add_0_l.
      pose proof (pow2_lt (e + 1) u Hgt). lra. }
    rewrite Zle_Qle in H'. change (inject_Z (2 ^ 0)) with 1%Q in H'.
    apply Qle_trans with (1 * 2 ^ u)%Q; [| lra].
    apply Qmult_le_compat_r; [exact H' | lra].
Qed.

Lemma nearest_mono (q1 q2 : Q) :
  (0 < q1)%Q → (q1 <= q2)%Q → (nearest q1 <= nearest q2)%Q.
Proof.
  intros H1 H12.
  assert (H2 : (0 < q2)%Q) by lra.
  pose proof (ilog2_mono q1 q2 H1 H12) as He.
  destruct (Z.eq_dec (ulp_exp q1) (ulp_exp q2)) as [Heq | Hne].
  - unfold nearest. rewrite Heq.
    pose proof (pow2_pos (ulp_exp q2)).
    apply Qmult_le_compat_r; [| lra].
    rewrite <- Zle_Qle. apply py_round_mono.
    apply Qmult_le_compat_r; [exact H12 |].
    apply Qlt_le_weak, Qinv_lt_0_compat. assumption.
  - pose proof (nearest_upper q1 H1) as Hup.
    assert (Hnormal : -1074 <= ilog2 q2 - 52) by (unfold ulp_exp in *; lia).
    pose proof (nearest_lower q2 H2 Hnormal) as Hlow.
    assert (Hexp : Z.max (ilog2 q1 + 1) (ulp_exp q1) <= ilog2 q2)
      by (unfold ulp_exp in *; lia).
    pose proof (pow2_le _ _ Hexp). lra.
Qed.

Lemma nearest_zero (q : Q) : q == 0 → nearest q == 0.
Proof.
  intros Hq. unfold nearest.
  assert (H : py_round (q / 2 ^ ulp_exp q) = 0).
  { pose proof (pow2_pos (ulp_exp q)).
    assert (E : q / 2 ^ ulp_exp q == inject_Z 0).
    { unfold Qdiv. set (v := (/ 2 ^ ulp_exp q)%Q). rewrite Hq. ring. }
    assert (E' : inject_Z 0 == q / 2 ^ ulp_exp q) by (symmetry; exact E).
    pose proof (py_round_mono _ _ (proj2 (Qle_lteq _ _) (or_intror E))) as R1.
    pose proof (py_round_mono _ _ (proj2 (Qle_lteq _ _) (or_intror E'))) as R2.
    rewrite py_round_integer in R1, R2. lia. }
  rewrite H. ring.
Qed.

Lemma nearest_nonneg (q : Q) : (0 <= q)%Q → (0 <= nearest q)%Q.
Proof.
  intros Hq. unfold nearest. pose proof (pow2_pos (ulp_exp q)).
  apply Qmult_le_0_compat; [| lra].
  change 0%Q with (inject_Z 0). rewrite <- Zle_Qle.
  rewrite <- (py_round_integer 0). apply py_round_mono.
  apply Qle_shift_div_l; [assumption |]. change (inject_Z 0) with 0%Q. lra.
Qed.

Lemma b64_pos_mono (q1 q2 : Q) :
  (0 <= q1)%Q → (q1 <= q2)%Q → (b64_pos q1 <= b64_pos q2)%Q.
Proof.
  intros H1 H12. rewrite !b64_pos_nearest.
  assert (Hn : (nearest q1 <= nearest q2)%Q).
  { apply Qle_lteq in H1 as [Hpos | Hzero].
    - apply nearest_mono; assumption.
    - rewrite (nearest_zero q1) by (symmetry; exact Hzero).
      apply nearest_nonneg. lra. }
  destruct (Qle_bool (2 ^ 1024) (nearest q1)) eqn:E1;
    destruct (Qle_bool (2 ^ 1024) (nearest q2)) eqn:E2.
  - lra.
  - apply Qle_bool_iff in E1.
    assert (¬ (2 ^ 1024 <= nearest q2)%Q) by (rewrite <- Qle_bool_iff; congruence).
    lra.
  - assert (¬ (2 ^ 1024 <= nearest q1)%Q) by (rewrite <- Qle_bool_iff; congruence).
    lra.
  - exact Hn.
Qed.

Lemma b64_pos_nonneg (q : Q) : (0 <= q)%Q → (0 <= b64_pos q)%Q.
Proof.
  intros Hq. rewrite b64_pos_nearest. pose proof (nearest_nonneg q Hq).
  pose proof (pow2_pos 1024).
  destruct (Qle_bool _ _); lra.
Qed.

Lemma Qnum_neg (q : Q) : (∃ p, Qnum q = Z.neg p) ↔ (q < 0)%Q.
Proof.
  destruct q as [a b]. unfold Qlt. simpl. split.
  - intros [p ->]. lia.
  - intros H. destruct a as [|p|p]; try lia. eauto.
Qed.

(** Rounding to the nearest double keeps the order. *)
Lemma b64_mono (q1 q2 : Q) : (q1 <= q2)%Q → (b64 q1 <= b64 q2)%Q.
Proof.
  intros H12. unfold b64.
  destruct (Qnum q1) as [|p1|p1] eqn:E1; destruct (Qnum q2) as [|p2|p2] eqn:E2.
  all: try (assert (N1 : (q1 < 0)%Q) by (apply Qnum_neg; eauto)).
  all: try (assert (N2 : (q2 < 0)%Q) by (apply Qnum_neg; eauto)).
  all: try (assert (P1 : (0 <= q1)%Q)
              by (apply Qnot_lt_le; intros H; apply Qnum_neg in H as [p Hp]; congruence)).
  all: try (assert (P2 : (0 <= q2)%Q)
              by (apply Qnot_lt_le; intros H; apply Qnum_neg in H as [p Hp]; congruence)).
  all: try (apply b64_pos_mono; assumption).
  all: try lra.
  - pose proof (b64_pos_nonneg (- q1) ltac:(lra)). pose proof (b64_pos_nonneg q2 P2). lra.
  - pose proof (b64_pos_nonneg (- q1) ltac:(lra)). pose proof (b64_pos_nonneg q2 P2). lra.
  - pose proof (b64_pos_mono (- q2) (- q1) ltac:(lra) ltac:(lra)). lra.
Qed.



Lemma b64_nonneg (q : Q) : (0 <= q)%Q → (0 <= b64 q)%Q.
Proof.
  intros Hq. change (b64 0 <= b64 q)%Q. apply b64_mono, Hq.
Qed.

Lemma b64_nonpos (q : Q) : (q <= 0)%Q → (b64 q <= 0)%Q.
Proof.
  intros Hq. change (b64 q <= b64 0)%Q. apply b64_mono, Hq.
Qed.


Lemma py_round_comp (q1 q2 : Q) : q1 == q2 → py_round q1 = py_round q2.
Proof.
  intros Heq.
  pose proof (py_round_mono q1 q2 ltac:(lra)).
  pose proof (py_round_mono q2 q1 ltac:(lra)). lia.
Qed.

(** Integers of at most 53 bits are doubles. *)
Lemma b64_int (n : Z) : 0 <= n < 2 ^ 53 → b64 (inject_Z n) == inject_Z n.
Proof.
  intros [Hlo Hhi].
  destruct (Z.eq_dec n 0) as [-> | Hne]; [reflexivity |].
  assert (Hpos : (0 < inject_Z n)%Q).
  { change 0%Q with (inject_Z 0). rewrite <- Zlt_Qlt. lia. }
  unfold b64. destruct n as [|p|p]; try lia. cbn [inject_Z Qnum].
  change (Z.pos p # 1) with (inject_Z (Z.pos p)).
  rewrite b64_pos_nearest.
  destruct (ilog2_spec _ Hpos) as [Hl1 Hl2].
  set (e := ilog2 (inject_Z (Z.pos p))) in *.
  assert (He : e < 53).
  { apply pow2_lt_inv. rewrite <- (pow2_inject 53) by lia.
    eapply Qle_lt_trans; [exact Hl1 |]. rewrite <- Zlt_Qlt. exact Hhi. }
  assert (He0 : 0 <= e).
  { assert (H : 0 < e + 1); [| lia].
    apply pow2_lt_inv. change (2 ^ 0)%Q with (inject_Z 1).
    eapply Qle_lt_trans; [| exact Hl2]. rewrite <- Zle_Qle. lia. }
  pose proof (pow2_pos (e - 52)) as Hu.
  assert (Hone : (2 ^ (52 - e) * 2 ^ (e - 52) == 1)%Q).
  { rewrite <- pow2_add. replace (52 - e + (e - 52)) with 0 by lia. reflexivity. }
  assert (Hn : nearest (inject_Z (Z.pos p)) == inject_Z (Z.pos p)).
  { unfold nearest, ulp_exp. fold e. rewrite Z.max_r by lia.
    assert (E : inject_Z (Z.pos p) / 2 ^ (e - 52)
                == inject_Z (Z.pos p * 2 ^ (52 - e))).
    { rewrite inject_Z_mult, pow2_inject by lia.
      unfold Qdiv. rewrite <- Qpower_opp.
      replace (- (e - 52)) with (52 - e) by lia. reflexivity. }
    rewrite (py_round_comp _ _ E), py_round_integer.
    rewrite inject_Z_mult, pow2_inject by lia.
    rewrite <- Qmult_assoc, Hone. ring. }
  assert (Hsmall : (inject_Z (Z.pos p) < 2 ^ 1024)%Q).
  { eapply Qlt_trans; [rewrite <- Zlt_Qlt; exact Hhi |].
    rewrite pow2_inject by lia. apply pow2_lt. lia. }
  destruct (Qle_bool (2 ^ 1024) (nearest (inject_Z (Z.pos p)))) eqn:Hsat.
  - apply Qle_bool_iff in Hsat. lra.
  - exact Hn.
Qed.

Lemma Qred_inject_Z (n : Z) : Qred (inject_Z n) = inject_Z n.
Proof.
  unfold Qred, inject_Z.
  pose proof (Z.ggcd_gcd n 1) as Hg.
  pose proof (Z.ggcd_correct_divisors n 1) as Hdiv.
  destruct (Z.ggcd n 1) as [g [a b]]. simpl in Hg, Hdiv.
  rewrite Z.gcd_1_r in Hg. subst g. destruct Hdiv as [Ha Hb].
  rewrite Z.mul_1_l in Ha, Hb. subst a b. reflexivity.
Qed.

Lemma b64_int_eq (n : Z) : 0 <= n < 2 ^ 53 → b64 (inject_Z n) = inject_Z n.
Proof.
  intros Hn. pose proof (b64_int n Hn) as Heq.
  assert (Hred : b64 (inject_Z n) = Qred (b64 (inject_Z n))).
  { unfold b64. destruct n as [|p|p]; try lia; cbn [inject_Z Qnum];
      unfold b64_pos; symmetry; apply Qred_complete, Qred_correct. }
  rewrite Hred, (Qred_complete _ _ Heq). apply Qred_inject_Z.
Qed.


(** *** The maps of a share of the canvas to a range of integers *)

Lemma is_inf_small (q : Q) : (Qabs q <= 1)%Q → is_inf q = false.
Proof.
  intros Hq. unfold is_inf. apply not_true_iff_false. rewrite Qle_bool_iff.
  intros Hbig. pose proof (pow2_lt 0 1024 ltac:(lia)) as Hlt.
  change (2 ^ 0)%Q with 1%Q in Hlt. lra.
Qed.

(** The quotient of a clamped coordinate by the extent is a share from
    0 to 1, also after rounding. *)
Lemma int_truediv_unit (a b : Z) :
  0 <= a < b ∨ (a = 0 ∧ b ≠ 0) →
  int_truediv a b = Return (b64 (inject_Z a / inject_Z b))
  ∧ (0 <= b64 (inject_Z a / inject_Z b) <= 1)%Q.
Proof.
  intros Hab.
  assert (Hratio : (0 <= inject_Z a / inject_Z b < 1)%Q).
  { destruct Hab as [H | [-> Hb]]; [apply unit_ratio, H |].
    assert (H0 : inject_Z 0 / inject_Z b == 0) by (unfold Qdiv; apply Qmult_0_l).
    rewrite H0. split; [apply Qle_refl | reflexivity]. }
  assert (Hr : (0 <= b64 (inject_Z a / inject_Z b) <= 1)%Q).
  { split.
    - apply b64_nonneg. lra.
    - change 1%Q with (b64 1). apply b64_mono. lra. }
  split; [| exact Hr].
  unfold int_truediv.
  destruct (Z.eqb_spec b 0) as [-> | _]; [lia |].
  rewrite is_inf_small; [reflexivity |].
  rewrite Qabs_pos; lra.
Qed.

Lemma int_truediv_zero (b : Z) : b ≠ 0 → int_truediv 0 b = Return 0%Q.
Proof.
  intros Hb. destruct (int_truediv_unit 0 b (or_intror (conj eq_refl Hb))) as [-> _].
  reflexivity.
Qed.

Lemma affine_value (lo span : Z) (ratio : Q) :
  0 <= lo → 0 <= span → lo + span < 2 ^ 53 → (0 <= ratio <= 1)%Q →
  (inject_Z lo <= b64 (inject_Z lo + b64 (ratio * inject_Z span))
   <= inject_Z (lo + span))%Q.
Proof.
  intros Hlo Hspan Hsum Hr.
  assert (Hs : (0 <= inject_Z span)%Q)
    by (change 0%Q with (inject_Z 0); rewrite <- Zle_Qle; lia).
  assert (Hp : (0 <= b64 (ratio * inject_Z span) <= inject_Z span)%Q).
  { split.
    - apply b64_nonneg. apply Qmult_le_0_compat; lra.
    - rewrite <- (b64_int_eq span) at 2 by lia. apply b64_mono.
      apply Qle_trans with (1 * inject_Z span)%Q; [| lra].
      apply Qmult_le_compat_r; lra. }
  split.
  - rewrite <- (b64_int_eq lo) at 1 by lia. apply b64_mono. lra.
  - rewrite <- (b64_int_eq (lo + span)) by lia. apply b64_mono.
    rewrite inject_Z_plus. lra.
Qed.

Lemma affine_range (lo span : Z) (ratio : Q) :
  0 <= lo → 0 <= span → lo + span < 2 ^ 53 → (0 <= ratio <= 1)%Q →
  lo <= affine lo span ratio <= lo + span.
Proof.
  intros Hlo Hspan Hsum Hr. unfold affine.
  pose proof (affine_value lo span ratio Hlo Hspan Hsum Hr) as [Hv1 Hv2].
  assert (Hl : (0 <= inject_Z lo)%Q)
    by (change 0%Q with (inject_Z 0); rewrite <- Zle_Qle; lia).
  rewrite py_int_nonneg by lra.
  pose proof (Qfloor_resp_le _ _ Hv1) as H1.
  pose proof (Qfloor_resp_le _ _ Hv2) as H2.
  rewrite Qfloor_Z in H1, H2. lia.
Qed.

Lemma affine_mono (lo span : Z) (r1 r2 : Q) :
  0 <= lo → 0 <= span → lo + span < 2 ^ 53 →
  (0 <= r1)%Q → (r1 <= r2)%Q → (r2 <= 1)%Q →
  affine lo span r1 <= affine lo span r2.
Proof.
  intros Hlo Hspan Hsum H1 H12 H2. unfold affine.
  pose proof (affine_value lo span r1 Hlo Hspan Hsum ltac:(lra)) as [Hv1 _].
  pose proof (affine_value lo span r2 Hlo Hspan Hsum ltac:(lra)) as [Hv2 _].
  assert (Hl : (0 <= inject_Z lo)%Q)
    by (change 0%Q with (inject_Z 0); rewrite <- Zle_Qle; lia).
  assert (Hs : (0 <= inject_Z span)%Q)
    by (change 0%Q with (inject_Z 0); rewrite <- Zle_Qle; lia).
  rewrite !py_int_nonneg by lra.
  apply Qfloor_resp_le, b64_mono.
  apply Qplus_le_r, b64_mono. apply Qmult_le_compat_r; assumption.
Qed.


End Binary64.

Section PyMin.

Variable key : Z → Z.

Lemma min_from_spec (l : list Z) : ∀ best,
  (min_from key best l = best ∧ Forall (fun s => key best <= key s) l)
  ∨ (∃ pre post,
       l = pre ++ min_from key best l :: post
       ∧ key (min_from key best l) < key best
       ∧ Forall (fun s => key (min_from key best l) < key s) pre
       ∧ Forall (fun s => key (min_from key best l) <= key s) post).
Proof.
  induction l as [|s l IH]; intros best; simpl.
  - left. split; [reflexivity | constructor].
  - destruct (Z.ltb_spec (key s) (key best)) as [Hlt | Hge].
    + destruct (IH s) as [[Heq Hall] | (pre & post & Hl & Hk & Hpre & Hpost)].
      * right. exists [], l. rewrite Heq. simpl.
        repeat split; [exact Hlt | constructor | exact Hall].
      * right. exists (s :: pre), post.
        repeat split.
        -- simpl. f_equal. exact Hl.
        -- lia.
        -- constructor; [exact Hk | exact Hpre].
        -- exact Hpost.
    + destruct (IH best) as [[Heq Hall] | (pre & post & Hl & Hk & Hpre & Hpost)].
      * left. split; [exact Heq |].
        constructor; [exact Hge | exact Hall].
      * right. exists (s :: pre), post.
        repeat split.
        -- simpl. f_equal. exact Hl.
        -- exact Hk.
        -- constructor; [lia | exact Hpre].
        -- exact Hpost.
Qed.

(** The first minimal element: everything before it has a strictly
    larger key, everything after it a key at least as large. *)
Lemma py_min_first (l : list Z) :
  l ≠ [] →
  ∃ pre post,
    l = pre ++ py_min key l :: post
    ∧ Forall (fun s => key (py_min key l) < key s) pre
    ∧ Forall (fun s => key (py_min key l) <= key s) post.
Proof.
  destruct l as [|s l]; [congruence | intros _]. simpl.
  destruct (min_from_spec l s) as [[Heq Hall] | (pre & post & Hl & Hk & Hpre & Hpost)].
  - exists [], l. rewrite Heq. simpl. repeat split; [constructor | exact Hall].
  - exists (s :: pre), post. repeat split.
    + simpl. f_equal. exact Hl.
    + constructor; [exact Hk | exact Hpre].
    + exact Hpost.
Qed.

End PyMin.

Section Quantize.

Import config.

Lemma active_scale_cases (scale_type : string) :
  active_scale scale_type ∈
    [ [0; 2; 4; 5; 7; 9; 11]; [0; 2; 3; 5; 7; 8; 10]; [0; 2; 4; 7; 9];
      [0; 3; 5; 6; 7; 10]; [0; 1; 2; 3; 4; 5; 6; 7; 8; 9; 10; 11] ].
Proof.
  unfold active_scale.
  destruct (SCALE_TYPES !! scale_type) as [l|] eqn:Hl; simpl.
  - apply elem_of_list_to_map_2 in Hl.
    repeat (apply elem_of_cons in Hl as [Hl | Hl];
            [ injection Hl as _ ->; set_solver | ]).
    inversion Hl.
  - vm_compute. set_solver.
Qed.

Lemma active_scale_nonempty (scale_type : string) : active_scale scale_type ≠ [].
Proof.
  pose proof (active_scale_cases scale_type) as H.
  repeat (apply elem_of_cons in H as [-> | H]; [discriminate |]).
  inversion H.
Qed.

Lemma active_scale_degrees (scale_type : string) :
  Forall (fun s => 0 <= s < 12) (active_scale scale_type).
Proof.
  pose proof (active_scale_cases scale_type) as H.
  repeat (apply elem_of_cons in H as [-> | H];
          [ repeat constructor; lia |]).
  inversion H.
Qed.

Lemma active_scale_lookup (scale_type : string) (scale : list Z) :
  SCALE_TYPES !! scale_type = Some scale → active_scale scale_type = scale.
Proof. unfold active_scale. intros ->. reflexivity. Qed.

Lemma quantize_to_scale_eq (n : Z) (scale_type : string) (r : Z) :
  quantize_to_scale n scale_type r
  = r + (n - r) / 12 * 12 + closest_degree n scale_type r.
Proof. reflexivity. Qed.

Lemma closest_degree_first (n : Z) (scale_type : string) (r : Z) :
  ∃ pre post,
    active_scale scale_type = pre ++ closest_degree n scale_type r :: post
    ∧ Forall (fun s => Z.abs (closest_degree n scale_type r - (n - r) mod 12)
                       < Z.abs (s - (n - r) mod 12)) pre
    ∧ Forall (fun s => Z.abs (closest_degree n scale_type r - (n - r) mod 12)
                       <= Z.abs (s - (n - r) mod 12)) post.
Proof.
  unfold closest_degree.
  exact (py_min_first (fun s => Z.abs (s - (n - r) mod 12)) _
           (active_scale_nonempty scale_type)).
Qed.

Lemma closest_degree_in_scale (n : Z) (scale_type : string) (r : Z) :
  closest_degree n scale_type r ∈ active_scale scale_type.
Proof.
  destruct (closest_degree_first n scale_type r) as (pre & post & Hs & _).
  rewrite Hs. set_solver.
Qed.

Lemma closest_degree_range (n : Z) (scale_type : string) (r : Z) :
  0 <= closest_degree n scale_type r < 12.
Proof.
  pose proof (active_scale_degrees scale_type) as H.
  rewrite Forall_forall in H. apply H, closest_degree_in_scale.
Qed.

Lemma quantize_to_scale_octave (n : Z) (scale_type : string) (r : Z) :
  (quantize_to_scale n scale_type r - r) / 12 = (n - r) / 12.
Proof.
  rewrite quantize_to_scale_eq.
  pose proof (closest_degree_range n scale_type r) as Hc.
  replace (r + (n - r) / 12 * 12 + closest_degree n scale_type r - r)
    with (closest_degree n scale_type r + (n - r) / 12 * 12) by lia.
  rewrite Z.div_add by lia. rewrite Z.div_small by lia. lia.
Qed.

Lemma quantize_to_scale_class (n : Z) (scale_type : string) (r : Z) :
  (quantize_to_scale n scale_type r - r) mod 12 = closest_degree n scale_type r.
Proof.
  rewrite quantize_to_scale_eq.
  pose proof (closest_degree_range n scale_type r) as Hc.
  replace (r + (n - r) / 12 * 12 + closest_degree n scale_type r - r)
    with (closest_degree n scale_type r + (n - r) / 12 * 12) by lia.
  rewrite Z.mod_add by lia. apply Z.mod_small. lia.
Qed.

(** A degree of the scale is its own closest degree. *)
Lemma closest_degree_fixed (n : Z) (scale_type : string) (r : Z) :
  (n - r) mod 12 ∈ active_scale scale_type →
  closest_degree n scale_type r = (n - r) mod 12.
Proof.
  intros Hin.
  destruct (closest_degree_first n scale_type r) as (pre & post & Hs & Hpre & Hpost).
  rewrite Forall_forall in Hpre, Hpost.
  rewrite Hs in Hin.
  apply elem_of_app in Hin as [Hin | Hin].
  - specialize (Hpre _ Hin). lia.
  - apply elem_of_cons in Hin as [Hin | Hin]; [congruence |].
    specialize (Hpost _ Hin). lia.
Qed.

(** C2: [quantize_to_scale n scale r] keeps the octave of [n] above [r]
    and replaces the pitch class of [n] relative to [r] by the degree of
    the scale at the least distance from it; of several degrees at that
    distance it takes the one that comes first in the interval list. *)
Theorem quantize_to_scale_nearest_first
    (n : Z) (scale_type : string) (r : Z) (scale : list Z) :
  SCALE_TYPES !! scale_type = Some scale →
  let relative := (n - r) mod 12 in
  let octave := (n - r) / 12 in
  ∃ closest pre post,
    quantize_to_scale n scale_type r = r + octave * 12 + closest
    ∧ scale = pre ++ closest :: post
    ∧ Forall (fun s => Z.abs (closest - relative) < Z.abs (s - relative)) pre
    ∧ Forall (fun s => Z.abs (closest - relative) <= Z.abs (s - relative)) post
    ∧ (quantize_to_scale n scale_type r - r) mod 12 = closest
    ∧ (quantize_to_scale n scale_type r - r) / 12 = octave.
Proof.
  intros Hscale relative octave.
  apply active_scale_lookup in Hscale. subst scale.
  destruct (closest_degree_first n scale_type r) as (pre & post & Hs & Hpre & Hpost).
  exists (closest_degree n scale_type r), pre, post.
  split; [apply quantize_to_scale_eq |].
  split; [exact Hs |].
  split; [exact Hpre |].
  split; [exact Hpost |].
  split; [apply quantize_to_scale_class | apply quantize_to_scale_octave].
Qed.

Lemma quantize_to_scale_nearest_first_witness :
  SCALE_TYPES !! "pentatonic"%string = Some [0; 2; 4; 7; 9]
  ∧ ∃ closest pre post,
      quantize_to_scale 65 "pentatonic" 60 = 60 + (65 - 60) / 12 * 12 + closest
      ∧ [0; 2; 4; 7; 9] = pre ++ closest :: post
      ∧ Forall (fun s => Z.abs (closest - (65 - 60) mod 12)
                         < Z.abs (s - (65 - 60) mod 12)) pre
      ∧ Forall (fun s => Z.abs (closest - (65 - 60) mod 12)
                         <= Z.abs (s - (65 - 60) mod 12)) post
      ∧ (quantize_to_scale 65 "pentatonic" 60 - 60) mod 12 = closest
      ∧ (quantize_to_scale 65 "pentatonic" 60 - 60) / 12 = (65 - 60) / 12.
Proof.
  split; [reflexivity |].
  apply (quantize_to_scale_nearest_first 65 "pentatonic" 60 [0; 2; 4; 7; 9]).
  reflexivity.
Defined.

(** F (65) lies between E and G at distance 1 and 2: it goes to E. *)
Example quantize_F_pentatonic : quantize_to_scale 65 "pentatonic" 60 = 64.
Proof. reflexivity. Qed.

(** A tie: C sharp (61) is as close to C as to D and goes to C, the
    earlier degree. *)
Example quantize_tie_major : quantize_to_scale 61 "major" 60 = 60.
Proof. reflexivity. Qed.

(** The distance is taken inside the octave of [n]: B (71) goes down to
    A (69), not up to the C of the next octave. *)
Example quantize_B_pentatonic : quantize_to_scale 71 "pentatonic" 60 = 69.
Proof. reflexivity. Qed.

(** C9: [quantize_to_scale] is idempotent, for every scale type (an
    unknown one falls back to the pentatonic scale) and every root. *)
Theorem quantize_to_scale_idempotent (n : Z) (scale_type : string) (r : Z) :
  quantize_to_scale (quantize_to_scale n scale_type r) scale_type r
  = quantize_to_scale n scale_type r.
Proof.
  rewrite (quantize_to_scale_eq (quantize_to_scale n scale_type r)).
  rewrite quantize_to_scale_octave.
  rewrite closest_degree_fixed.
  - rewrite quantize_to_scale_class. apply eq_sym, quantize_to_scale_eq.
  - rewrite quantize_to_scale_class. apply closest_degree_in_scale.
Qed.

(** [map_x_to_note] through the share of the width. *)
Lemma map_x_to_note_eq (x width : Z) :
  width ≠ 0 →
  map_x_to_note x width
  = Return (affine MIN_NOTE (MAX_NOTE - MIN_NOTE)
              (b64 (inject_Z (Z.max 0 (Z.min x (width - 1))) / inject_Z width)))
  ∧ (0 <= b64 (inject_Z (Z.max 0 (Z.min x (width - 1))) / inject_Z width) <= 1)%Q.
Proof.
  intros Hw. unfold map_x_to_note.
  destruct (int_truediv_unit (Z.max 0 (Z.min x (width - 1))) width ltac:(lia))
    as [-> Hr].
  split; [reflexivity | exact Hr].
Qed.

(** Inside the canvas the raw note stays in the range. *)
Lemma map_x_to_note_range (x width : Z) :
  0 <= x < width →
  ∃ raw, map_x_to_note x width = Return raw ∧ MIN_NOTE <= raw <= MAX_NOTE.
Proof.
  intros Hx.
  destruct (map_x_to_note_eq x width ltac:(lia)) as [-> Hr].
  eexists. split; [reflexivity |].
  pose proof (affine_range MIN_NOTE (MAX_NOTE - MIN_NOTE) _
                ltac:(unfold MIN_NOTE; lia) ltac:(unfold MIN_NOTE, MAX_NOTE; lia)
                ltac:(unfold MIN_NOTE, MAX_NOTE; lia) Hr) as H.
  unfold MIN_NOTE, MAX_NOTE in *. lia.
Qed.

(** With the root on a multiple of 12 from [MIN_NOTE], quantising a note
    of the playable range stays in the range. *)
Lemma quantize_to_scale_range (raw : Z) (scale_type : string) :
  MIN_NOTE <= raw <= MAX_NOTE →
  MIN_NOTE <= quantize_to_scale raw scale_type DEFAULT_ROOT <= MAX_NOTE.
Proof.
  unfold MIN_NOTE, MAX_NOTE, DEFAULT_ROOT. intros Hraw.
  destruct (Z.eq_dec raw 84) as [-> | Hne].
  { pose proof (active_scale_cases scale_type) as Hcases.
    unfold quantize_to_scale.
    repeat (apply elem_of_cons in Hcases as [-> | Hcases]);
      [.. | inversion Hcases]; vm_compute; split; discriminate. }
  rewrite quantize_to_scale_eq.
  pose proof (closest_degree_range raw scale_type 60) as Hc.
  pose proof (Z.div_mod (raw - 60) 12 ltac:(lia)) as Hdm.
  pose proof (Z.mod_pos_bound (raw - 60) 12 ltac:(lia)) as Hm.
  lia.
Qed.

End Quantize.

Section Cache.

Import config music_engine.

Variable mixer_ok : Sound → bool.

Lemma cache_store_keeps (key k : string) (sound : option Sound)
    (cache : gmap string Sound) :
  is_Some (cache !! k) → is_Some (cache_store key sound cache !! k).
Proof.
  intros Hk. destruct sound as [snd|]; simpl; [| exact Hk].
  rewrite lookup_insert_is_Some. destruct (decide (key = k)); auto.
Qed.

Lemma foldl_store_keeps {A : Type} (key : A → string) (gen : A → option Sound)
    (l : list A) (k : string) : ∀ cache : gmap string Sound,
  is_Some (cache !! k) →
  is_Some (foldl (fun c a => cache_store (key a) (gen a) c) cache l !! k).
Proof.
  induction l as [|a l IH]; intros cache Hk; simpl; [exact Hk |].
  apply IH, cache_store_keeps, Hk.
Qed.

Lemma foldl_store_hit {A : Type} (key : A → string) (gen : A → option Sound)
    (l : list A) (a : A) : ∀ cache : gmap string Sound,
  a ∈ l → is_Some (gen a) →
  is_Some (foldl (fun c a => cache_store (key a) (gen a) c) cache l !! key a).
Proof.
  induction l as [|b l IH]; intros cache Hin Hgen; [inversion Hin |].
  simpl. apply elem_of_cons in Hin as [<- | Hin].
  - apply foldl_store_keeps. destruct Hgen as [snd ->]. simpl.
    rewrite lookup_insert_eq. eauto.
  - apply IH; assumption.
Qed.

Hypothesis build_ok : ∀ snd, mixer_ok snd = true.

Lemma tones_keep (e : MusicEngine) (notes : list Z) (k : string)
    (instrs : list string) : ∀ cache : gmap string Sound,
  is_Some (cache !! k) →
  is_Some (foldl (fun cache i =>
                    foldl (fun cache note =>
                             cache_store (cache_key i note)
                               (_generate_tone mixer_ok e note (INSTRUMENTS !!! i))
                               cache)
                          cache notes)
                 cache instrs !! k).
Proof.
  induction instrs as [|j l IH]; intros cache Hk; simpl; [exact Hk |].
  apply IH.
  apply (foldl_store_keeps (cache_key j)
           (fun note => _generate_tone mixer_ok e note (INSTRUMENTS !!! j))).
  exact Hk.
Qed.

Lemma tones_hit (e : MusicEngine) (notes : list Z) (instr : string) (n : Z)
    (instrs : list string) : ∀ cache : gmap string Sound,
  audio_initialized e = true → instr ∈ instrs → n ∈ notes →
  is_Some (foldl (fun cache i =>
                    foldl (fun cache note =>
                             cache_store (cache_key i note)
                               (_generate_tone mixer_ok e note (INSTRUMENTS !!! i))
                               cache)
                          cache notes)
                 cache instrs !! cache_key instr n).
Proof.
  induction instrs as [|j l IH]; intros cache Hinit Hinstr Hn; [inversion Hinstr |].
  simpl. apply elem_of_cons in Hinstr as [<- | Hinstr].
  - apply tones_keep.
    apply (foldl_store_hit (cache_key instr)
             (fun note => _generate_tone mixer_ok e note (INSTRUMENTS !!! instr)));
      [exact Hn |].
    unfold _generate_tone. rewrite Hinit, build_ok. simpl. eauto.
  - apply IH; assumption.
Qed.

Lemma pregenerate_notes_populates (e : MusicEngine) (instr : string) (n : Z) :
  audio_initialized e = true →
  instr ∈ INSTRUMENT_LIST → MIN_NOTE <= n <= MAX_NOTE →
  is_Some (note_cache (_pregenerate_notes mixer_ok e) !! cache_key instr n).
Proof.
  intros Hinit Hinstr Hn. unfold _pregenerate_notes. rewrite Hinit.
  cbn [negb note_cache assign_note_cache].
  apply tones_hit; [exact Hinit | exact Hinstr |].
  unfold py_range. apply elem_of_seqZ. lia.
Qed.

Lemma pregenerate_drums_keeps (e : MusicEngine) (k : string) :
  is_Some (note_cache e !! k) →
  is_Some (note_cache (_pregenerate_drums mixer_ok e) !! k).
Proof.
  intros Hk. unfold _pregenerate_drums.
  destruct (negb (audio_initialized e)); [exact Hk |].
  cbn [note_cache assign_note_cache].
  repeat apply cache_store_keeps. exact Hk.
Qed.

Lemma pregenerate_bass_keeps (e : MusicEngine) (k : string) :
  is_Some (note_cache e !! k) →
  is_Some (note_cache (_pregenerate_bass mixer_ok e) !! k).
Proof.
  intros Hk. unfold _pregenerate_bass.
  destruct (negb (audio_initialized e)); [exact Hk |].
  cbn [note_cache assign_note_cache].
  apply (foldl_store_keeps (cache_key "bass") (_generate_bass_tone mixer_ok)).
  exact Hk.
Qed.

Lemma pregenerate_metronome_keeps (e : MusicEngine) (k : string) :
  is_Some (note_cache e !! k) →
  is_Some (note_cache (_pregenerate_metronome mixer_ok e) !! k).
Proof.
  intros Hk. unfold _pregenerate_metronome.
  destruct (negb (audio_initialized e)); [exact Hk |].
  cbn [note_cache assign_note_cache].
  repeat apply cache_store_keeps. exact Hk.
Qed.

(** After a successful build the cache of a new engine holds every
    instrument at every note from [MIN_NOTE] to [MAX_NOTE]. *)
Lemma new_engine_cache (instr : string) (n : Z) :
  instr ∈ INSTRUMENT_LIST → MIN_NOTE <= n <= MAX_NOTE →
  is_Some (note_cache (new_engine true mixer_ok) !! cache_key instr n).
Proof.
  intros Hinstr Hn. unfold new_engine.
  apply pregenerate_metronome_keeps, pregenerate_bass_keeps,
        pregenerate_drums_keeps, pregenerate_notes_populates;
    [reflexivity | exact Hinstr | exact Hn].
Qed.

End Cache.

Section PlayNoteLookup.

Import config music_engine.

(** The triggers leave the cache and the instrument as they are, and
    [set_instrument] only selects an instrument of the list: the two
    conditions on the engine below hold from construction on. *)
Lemma do_call_keeps_cache (e : MusicEngine) (c : call) :
  note_cache (do_call e c) = note_cache e
  ∧ current_instrument (do_call e c) = current_instrument e.
Proof.
  destruct c as [now x y th w h | now x y th w h |]; simpl.
  - unfold play_note.
    repeat match goal with
           | |- context [if ?b then _ else _] => destruct b
           | |- context [match ?m with Return _ => _ | Raise _ => _ end] => destruct m
           | |- context [match ?m with Some _ => _ | None => _ end] => destruct m
           end; simpl; unfold record_note; simpl;
      try destruct (is_recording e); split; reflexivity.
  - unfold play_preview_note.
    repeat match goal with
           | |- context [if ?b then _ else _] => destruct b
           | |- context [match ?m with Return _ => _ | Raise _ => _ end] => destruct m
           | |- context [match ?m with Some _ => _ | None => _ end] => destruct m
           end; simpl; unfold record_note; simpl;
      try destruct (is_recording e); split; reflexivity.
  - split; reflexivity.
Qed.

Lemma set_instrument_listed (e : MusicEngine) (instrument_key : string) :
  current_instrument e ∈ INSTRUMENT_LIST →
  current_instrument (set_instrument e instrument_key) ∈ INSTRUMENT_LIST
  ∧ note_cache (set_instrument e instrument_key) = note_cache e.
Proof.
  intros Hin. unfold set_instrument.
  destruct (list_find _ _) as [[i k] |] eqn:Hfind; simpl; [| auto].
  apply list_find_Some in Hfind as (Hk & -> & _).
  split; [| reflexivity]. apply list_elem_of_lookup. eauto.
Qed.

(** C10: for [x] inside the canvas and the default root 60, the note that
    [play_note] computes lies between [MIN_NOTE] and [MAX_NOTE] whatever
    the scale, and the key formed from it and the current instrument is
    in the cache of an engine whose build succeeded. *)
Theorem play_note_lookup_never_misses
    (mixer_ok : Sound → bool) (e : MusicEngine) (x width : Z) :
  (∀ snd, mixer_ok snd = true) →
  note_cache e = note_cache (new_engine true mixer_ok) →
  current_instrument e ∈ INSTRUMENT_LIST →
  root_note e = DEFAULT_ROOT →
  0 <= x < width →
  ∃ raw_note,
    map_x_to_note x width = Return raw_note
    ∧ MIN_NOTE <= quantize_to_scale raw_note (scale_type e) (root_note e) <= MAX_NOTE
    ∧ is_Some (note_cache e
                 !! cache_key (current_instrument e)
                      (quantize_to_scale raw_note (scale_type e) (root_note e))).
Proof.
  intros Hok Hcache Hinstr Hroot Hx.
  destruct (map_x_to_note_range x width Hx) as (raw & Hraw & Hrange).
  exists raw. split; [exact Hraw |].
  rewrite Hroot.
  pose proof (quantize_to_scale_range raw (scale_type e) Hrange) as Hq.
  split; [lia |].
  rewrite Hcache. apply new_engine_cache; [exact Hok | exact Hinstr | lia].
Qed.

Lemma play_note_lookup_never_misses_witness :
  let e := new_engine true (fun _ => true) in
  ∃ raw_note,
    map_x_to_note 320 640 = Return raw_note
    ∧ MIN_NOTE <= quantize_to_scale raw_note (scale_type e) (root_note e) <= MAX_NOTE
    ∧ is_Some (note_cache e
                 !! cache_key (current_instrument e)
                      (quantize_to_scale raw_note (scale_type e) (root_note e))).
Proof.
  intros e.
  apply (play_note_lookup_never_misses (fun _ => true) e 320 640).
  - reflexivity.
  - reflexivity.
  - vm_compute. set_solver.
  - reflexivity.
  - lia.
Defined.

End PlayNoteLookup.

Section Bass.

Import config music_engine.

Lemma Qltb_lt (a b : Q) : Qltb a b = true ↔ (a < b)%Q.
Proof.
  unfold Qltb. rewrite negb_true_iff, <- not_true_iff_false, Qle_bool_iff.
  split; [apply Qnot_le_lt | apply Qlt_not_le].
Qed.

Lemma Qltb_ge (a b : Q) : Qltb a b = false ↔ (b <= a)%Q.
Proof. unfold Qltb. rewrite negb_false_iff. apply Qle_bool_iff. Qed.

(** The voice that [play_bass_note] triggers once its guards are passed:
    the cached sound of the pitch class of the root in octave 1. *)
Lemma play_bass_note_voice (e : MusicEngine) (now : Q) (root : option Z) :
  bass_enabled e = true → audio_initialized e = true →
  (bass_interval e <= now - last_bass_time e)%Q →
  mixer (play_bass_note e now root)
  = mixer e ++
      match note_cache e
              !! cache_key "bass" (default (root_note e) root mod 12 + 24) with
      | Some sound => [(sound, 0.5%Q)]
      | None => []
      end.
Proof.
  intros Hbass Hinit Hdue. unfold play_bass_note.
  rewrite Hbass, Hinit. simpl.
  apply Qltb_ge in Hdue. rewrite Hdue.
  replace (match root with Some r => r | None => root_note e end)
    with (default (root_note e) root) by (destruct root; reflexivity).
  destruct (note_cache e !! _); simpl; [reflexivity | symmetry; apply app_nil_r].
Qed.

(** That note is two octaves under the root only for roots from 48 to 59. *)
Lemma bass_note_two_octaves_down (r : Z) : r mod 12 + 24 = r - 24 ↔ 48 <= r < 60.
Proof.
  pose proof (Z.div_mod r 12 ltac:(lia)) as Hdm.
  pose proof (Z.mod_pos_bound r 12 ltac:(lia)) as Hm.
  lia.
Qed.

(** C1, at the default root: with bass enabled on a freshly built engine
    and the interval elapsed, [play_bass_note] plays the bass voice of
    note 24 at volume 0.5, where two octaves under the root 60 is note 36
    (which the cache holds as well). *)
Theorem play_bass_note_default_root :
  let e := set_bass_enabled (new_engine true (fun _ => true)) true in
  root_note e = 60
  ∧ note_cache e !! cache_key "bass" (60 - 24) = Some (BassTone 36)
  ∧ mixer (play_bass_note e 1 None) = [(BassTone 24, 0.5%Q)].
Proof. vm_compute. repeat split. Qed.

End Bass.

Section Preview.

Import config music_engine.






(** When the squared movement does not fit a float the call raises
    [OverflowError] before the gate and leaves the engine as it was. *)
Lemma play_preview_note_overflow (e : MusicEngine) (now : Q)
    (x y thickness width height : Z) (ex : exn) :
  is_playing e = true → audio_initialized e = true →
  preview_distance (x - last_preview_x e) (y - last_preview_y e) = Raise ex →
  play_preview_note e now x y thickness width height = (e, Raise ex).
Proof.
  intros Hplay Hinit Hdist.
  unfold play_preview_note. rewrite Hplay, Hinit, Hdist. reflexivity.
Qed.




(** As the claim is worded it fails where the squared movement does not
    fit a float: the engine is enabled, the time since the last trigger
    (1 s) is beyond [preview_min_interval], the sound of the note is
    cached and the note is no repetition, and yet the call raises
    [OverflowError] and plays nothing. *)
Lemma play_preview_note_raises :
  let e := new_engine true (fun _ => true) in
  let x := 2 ^ 512 in
  is_playing e = true
  ∧ audio_initialized e = true
  ∧ (preview_min_interval e <= 1 - last_preview_time e)%Q
  ∧ map_x_to_note x 640 = Return 83
  ∧ note_cache e !! cache_key (current_instrument e)
                      (quantize_to_scale 83 (scale_type e) (root_note e))
    = Some (Tone "sine" 81)
  ∧ quantize_to_scale 83 (scale_type e) (root_note e) ≠ last_note e
  ∧ play_preview_note e 1 x 100 10 640 480 = (e, Raise OverflowError)
  ∧ mixer (play_preview_note e 1 x 100 10 640 480).1 = mixer e.
Proof.
  cbv zeta.
  assert (Hcall : play_preview_note (new_engine true (fun _ => true)) 1 (2 ^ 512)
                    100 10 640 480
                  = (new_engine true (fun _ => true), Raise OverflowError)).
  { apply play_preview_note_overflow; [reflexivity | reflexivity |].
    vm_compute. reflexivity. }
  split; [reflexivity |]. split; [reflexivity |].
  split; [vm_compute; discriminate |].
  split; [vm_compute; reflexivity |].
  split; [vm_compute; reflexivity |].
  split; [vm_compute; discriminate |].
  split; [exact Hcall |].
  rewrite Hcall. reflexivity.
Qed.

End Preview.

Section Recording.

Import config music_engine.

Lemma record_note_appends (e : MusicEngine) (now : Q) (n v d x y : Z) :
  appends e (record_note e now n v d x y) []
  ∨ ∃ ev, appends e (record_note e now n v d x y) [ev]
          ∧ timestamp ev = (now - recording_start_time e)%Q.
Proof.
  unfold record_note, appends. destruct (is_recording e).
  - right. eexists. repeat split.
  - left. rewrite app_nil_r. split; reflexivity.
Qed.

Lemma appends_refl (e : MusicEngine) : appends e e [].
Proof. unfold appends. rewrite app_nil_r. split; reflexivity. Qed.

Lemma play_note_appends (e : MusicEngine) (now : Q) (x y thickness width height : Z) :
  let e' := (play_note e now x y thickness width height).1 in
  appends e e' []
  ∨ ∃ ev, appends e e' [ev] ∧ timestamp ev = (now - recording_start_time e)%Q.
Proof.
  unfold play_note.
  destruct (_ || _); [left; apply appends_refl |].
  destruct (Qltb _ _); [left; apply appends_refl |].
  destruct (map_x_to_note x width) as [raw | ex]; [| left; apply appends_refl].
  destruct (_ && _); [left; apply appends_refl |].
  destruct (map_y_to_duration y height) as [d | ex]; [| left; apply appends_refl].
  destruct (note_cache e !! _) as [sound |]; [| left; apply appends_refl].
  cbv zeta. cbn [fst].
  match goal with
  | |- context [record_note ?e1 now ?n ?v d x y] =>
      destruct (record_note_appends e1 now n v d x y) as [H | (ev & H & Ht)]
  end.
  - left. exact H.
  - right. exists ev. split; [exact H | exact Ht].
Qed.

Lemma play_preview_note_appends (e : MusicEngine) (now : Q)
    (x y thickness width height : Z) :
  let e' := (play_preview_note e now x y thickness width height).1 in
  appends e e' []
  ∨ ∃ ev, appends e e' [ev] ∧ timestamp ev = (now - recording_start_time e)%Q.
Proof.
  unfold play_preview_note.
  destruct (_ || _); [left; apply appends_refl |].
  destruct (preview_distance _ _) as [distance | ex]; [| left; apply appends_refl].
  destruct (negb _); [left; apply appends_refl |].
  destruct (map_x_to_note x width) as [raw | ex]; [| left; apply appends_refl].
  destruct (_ && _); [left; apply appends_refl |].
  destruct (note_cache e !! _) as [sound |]; [| left; apply appends_refl].
  cbv zeta. cbn [is_recording assign_last_preview_time assign_last_preview_y
                 assign_last_preview_x assign_last_note_time assign_last_note
                 play assign_mixer].
  destruct (is_recording e) eqn:Hrec.
  - destruct (map_y_to_duration y height) as [d | ex].
    + cbn [fst]. unfold record_note. simpl. rewrite Hrec.
      right. eexists. unfold appends. simpl. repeat split.
    + left. unfold appends. simpl. rewrite app_nil_r. split; reflexivity.
  - left. unfold appends. simpl. rewrite app_nil_r. split; reflexivity.
Qed.

Lemma do_call_appends (e : MusicEngine) (c : call) :
  appends e (do_call e c) []
  ∨ ∃ ev now, appends e (do_call e c) [ev]
              ∧ call_time c = Some now
              ∧ timestamp ev = (now - recording_start_time e)%Q.
Proof.
  destruct c as [now x y th w h | now x y th w h |]; simpl.
  - destruct (play_note_appends e now x y th w h) as [H | (ev & H & Ht)];
      [left; exact H | right; exists ev, now; auto].
  - destruct (play_preview_note_appends e now x y th w h) as [H | (ev & H & Ht)];
      [left; exact H | right; exists ev, now; auto].
  - left. unfold appends. simpl. rewrite app_nil_r. split; reflexivity.
Qed.






(** All four calls of [session] are recorded. *)
Example session_recorded :
  map (fun ev => (note ev, Qred (timestamp ev)))
      (recorded_notes
         (do_calls (start_recording (new_engine true (fun _ => true)) 0) session))
  = [ (52, 1%Q); (64, 3 # 2); (76, 8 # 5); (57, 2%Q) ].
Proof. vm_compute. reflexivity. Qed.

(** Without increasing readings the timestamps need not increase: the
    recording is on, a preview call at reading 1 is recorded, the stroke
    ends, and the first call of the next stroke reads the clock at 1
    again; both events are stamped 1. *)
Lemma recorded_timestamps_repeat :
  let e := start_recording (new_engine true (fun _ => true)) 0 in
  let calls := [ PlayPreviewNote 1 100 100 10 640 480;
                 ResetPreviewState;
                 PlayPreviewNote 1 500 300 10 640 480 ] in
  is_recording e = true
  ∧ is_recording (do_calls e calls) = true
  ∧ map (fun ev => Qred (timestamp ev)) (recorded_notes (do_calls e calls))
    = [ 1%Q; 1%Q ]
  ∧ ¬ StronglySorted Qlt (map timestamp (recorded_notes (do_calls e calls))).
Proof.
  cbv zeta. split; [reflexivity |]. split; [vm_compute; reflexivity |].
  split; [vm_compute; reflexivity |].
  intros Hsorted.
  assert (Hstamps : map timestamp
            (recorded_notes
               (do_calls (start_recording (new_engine true (fun _ => true)) 0)
                  [ PlayPreviewNote 1 100 100 10 640 480;
                    ResetPreviewState;
                    PlayPreviewNote 1 500 300 10 640 480 ]))
          = [ (1 - 0)%Q; (1 - 0)%Q ]) by (vm_compute; reflexivity).
  rewrite Hstamps in Hsorted.
  apply StronglySorted_inv in Hsorted as [_ Hfirst].
  apply Forall_cons in Hfirst as [Hlt _].
  revert Hlt. vm_compute. discriminate.
Qed.

End Recording.

Section ExportEmpty.

Import config music_engine.

(** C7: with no event to export (an empty list supplied, or none
    supplied and an empty recording buffer) [export_audio] returns [None]
    and leaves the file system as it was: no file, no folder. *)
Theorem export_audio_empty (synth : NoteEvent → nat → Q) (stamp : string)
    (e : MusicEngine) (fs : FileSystem)
    (filename : option string) (notes : option (list NoteEvent)) :
  default (recorded_notes e) notes = [] →
  export_audio synth stamp e fs filename notes = (fs, Return None).
Proof.
  intros Hempty. unfold export_audio.
  replace (match notes with Some l => l | None => recorded_notes e end)
    with (default (recorded_notes e) notes) by (destruct notes; reflexivity).
  rewrite Hempty. reflexivity.
Qed.

Lemma export_audio_empty_witness :
  let e := new_engine true (fun _ => true) in
  let fs := {| folders := ∅; wav_files := ∅; locked := ∅ |} in
  default (recorded_notes e) None = []
  ∧ export_audio (fun _ _ => 0%Q) "20260101_120000" e fs None None
    = (fs, Return None).
Proof.
  intros e fs.
  split; [reflexivity |].
  apply (export_audio_empty (fun _ _ => 0%Q) "20260101_120000" e fs None None).
  reflexivity.
Defined.

End ExportEmpty.

Section Start.

Import project_model sequencer.

(** C8: [start] on a sequencer that is already playing returns at once;
    every field of the sequencer keeps its value and no playback loop is
    launched. *)
Theorem start_when_playing (s : Sequencer) :
  is_playing s = true →
  start s = (s, Return ())
  ∧ loops_started (start s).1 = loops_started s.
Proof.
  intros Hplaying. unfold start. rewrite Hplaying. split; reflexivity.
Qed.

(** A first [start] launches the loop, a second one changes nothing. *)
Lemma start_when_playing_witness :
  let s := (start (set_project new_sequencer one_stroke_project)).1 in
  is_playing s = true
  ∧ loops_started s = 1%nat
  ∧ start s = (s, Return ())
  ∧ loops_started (start s).1 = loops_started s.
Proof.
  intros s.
  assert (Hplaying : is_playing s = true) by reflexivity.
  split; [exact Hplaying |].
  split; [reflexivity |].
  exact (start_when_playing s Hplaying).
Defined.

End Start.

Section ScanEvents.

Import config project_model sequencer.

(** *** The time grid *)

Lemma is_inf_signed (b : bool) :
  is_inf (b64 (if b then 2 ^ 1024 else - 2 ^ 1024)) = true.
Proof. destruct b; vm_compute; reflexivity. Qed.

(** What [quantize_time] returns: the grid step is not zero, the time is
    finite, and the result is the rounded product of the rounded number
    of steps and the step. *)
Lemma quantize_time_inv (t : Q) (bpm : Z) (quantize : string) (r : Q) :
  quantize_time t bpm quantize = Return r →
  ∃ grid,
    grid_step bpm quantize = Return grid ∧ ¬ grid == 0
    ∧ is_inf t = false
    ∧ r = b64 (b64 (inject_Z (py_round (b64 (t / grid)))) * grid).
Proof.
  unfold quantize_time, grid_step.
  destruct (py_float bpm) as [bpm_float |]; [| discriminate].
  cbn [mbind result_bind rbind].
  destruct (float_truediv 60 bpm_float) as [beat |]; [| discriminate].
  cbn [mbind result_bind rbind].
  match goal with |- context [float_truediv t ?g] => set (grid := g) end.
  unfold float_truediv.
  destruct (Qeq_bool grid 0) eqn:Hzero; [discriminate |].
  assert (Hgrid : ¬ grid == 0).
  { intros H. apply Qeq_bool_iff in H. congruence. }
  destruct (is_inf t) eqn:Hinf; cbn [mbind result_bind rbind]; unfold round_float.
  { rewrite is_inf_signed. discriminate. }
  destruct (is_inf (b64 (t / grid))); [discriminate |].
  cbn [mbind result_bind rbind]. unfold py_float.
  destruct (is_inf (b64 (inject_Z _))); [discriminate |].
  cbn [mbind result_bind rbind]. intros [= <-].
  exists grid. repeat split; auto.
Qed.

(** Snapping to a grid of any non-zero step keeps the order of times. *)
Lemma snap_mono (grid t1 t2 : Q) :
  ¬ grid == 0 → (t1 <= t2)%Q →
  (b64 (b64 (inject_Z (py_round (b64 (t1 / grid)))) * grid)
   <= b64 (b64 (inject_Z (py_round (b64 (t2 / grid)))) * grid))%Q.
Proof.
  intros Hgrid Hle. apply b64_mono.
  destruct (Qlt_le_dec 0 grid) as [Hpos | Hneg].
  - apply Qmult_le_compat_r; [| lra].
    apply b64_mono. rewrite <- Zle_Qle. apply py_round_mono, b64_mono.
    apply Qmult_le_compat_r; [exact Hle |].
    apply Qlt_le_weak, Qinv_lt_0_compat, Hpos.
  - assert (Hlt : (grid < 0)%Q) by (apply Qle_lteq in Hneg as [H | H]; [exact H | tauto]).
    assert (Hinv : (0 < / - grid)%Q) by (apply Qinv_lt_0_compat; lra).
    assert (Hround : (b64 (inject_Z (py_round (b64 (t2 / grid))))
                      <= b64 (inject_Z (py_round (b64 (t1 / grid)))))%Q).
    { apply b64_mono. rewrite <- Zle_Qle. apply py_round_mono, b64_mono.
      assert (Hdiv : ∀ t, t / grid == - (t * / - grid)).
      { intros t. unfold Qdiv. field. lra. }
      rewrite (Hdiv t1), (Hdiv t2).
      pose proof (Qmult_le_compat_r _ _ (/ - grid) Hle (Qlt_le_weak _ _ Hinv)).
      lra. }
    set (r1 := b64 (inject_Z (py_round (b64 (t1 / grid))))) in *.
    set (r2 := b64 (inject_Z (py_round (b64 (t2 / grid))))) in *.
    pose proof (Qmult_le_compat_r _ _ (- grid) Hround ltac:(lra)).
    lra.
Qed.

(** [quantize_time] keeps the order of times. *)
Lemma quantize_time_mono (t1 t2 : Q) (bpm : Z) (quantize : string) (r1 r2 : Q) :
  quantize_time t1 bpm quantize = Return r1 →
  quantize_time t2 bpm quantize = Return r2 →
  (t1 <= t2)%Q → (r1 <= r2)%Q.
Proof.
  intros H1 H2 Hle.
  apply quantize_time_inv in H1 as (g1 & Hg1 & Hnz & _ & ->).
  apply quantize_time_inv in H2 as (g2 & Hg2 & _ & _ & ->).
  rewrite Hg1 in Hg2. injection Hg2 as <-.
  apply snap_mono; assumption.
Qed.

(** *** Sorting by abscissa *)

Lemma insert_by_key_sorted {A : Type} (key : A → Z) (a : A) (l : list A) :
  StronglySorted (fun p q => key p <= key q) l →
  StronglySorted (fun p q => key p <= key q)
    (insert_by (fun p q => key p <=? key q) a l).
Proof.
  induction l as [|b l IH]; intros Hl; simpl.
  - repeat constructor.
  - apply StronglySorted_inv in Hl as [Hl Hb].
    destruct (Z.leb_spec (key a) (key b)) as [Hab | Hba].
    + constructor; [constructor; assumption |].
      constructor; [exact Hab |].
      eapply Forall_impl; [exact Hb | intros c Hc; simpl in Hc; lia].
    + constructor; [apply IH, Hl |].
      assert (Hin : ∀ c, c ∈ insert_by (fun p q => key p <=? key q) a l
                         → c = a ∨ c ∈ l).
      { clear. induction l as [|d l IHl]; simpl; intros c Hc.
        - apply list_elem_of_singleton in Hc. auto.
        - destruct (key a <=? key d).
          + apply elem_of_cons in Hc as [-> | Hc]; auto.
          + apply elem_of_cons in Hc as [-> | Hc]; [right; left |].
            destruct (IHl c Hc) as [-> | H]; [auto | right; right; exact H]. }
      rewrite Forall_forall. intros c Hc.
      destruct (Hin c Hc) as [-> | Hcl]; [lia |].
      rewrite Forall_forall in Hb. apply Hb, Hcl.
Qed.

Lemma py_sort_key_sorted {A : Type} (key : A → Z) (l : list A) :
  StronglySorted (fun p q => key p <= key q)
    (py_sort (fun p q => key p <=? key q) l).
Proof.
  induction l as [|a l IH]; simpl; [constructor |].
  apply insert_by_key_sorted, IH.
Qed.

Lemma Sorted_snoc {A : Type} (R : A → A → Prop) (l : list A) (a : A) :
  Sorted R l → (∀ b, last l = Some b → R b a) → Sorted R (l ++ [a]).
Proof.
  induction l as [|b l IH]; intros Hl Hlast; simpl.
  - repeat constructor.
  - apply Sorted_inv in Hl as [Hl Hb].
    constructor.
    + apply IH; [exact Hl |].
      intros c Hc. apply Hlast. destruct l; [discriminate | exact Hc].
    + destruct l as [|c l]; simpl.
      * constructor. apply Hlast. reflexivity.
      * constructor. inversion Hb. assumption.
Qed.

(** *** The scan loop *)










(** As the claim is worded, for every project, it fails on a project of
    negative width: the point at abscissa 0 is placed at time 0 and the
    point at abscissa 320 after it at time -2, both on note 48. *)
Lemma generate_scan_events_unsorted :
  match generate_scan_events (set_project new_sequencer mirrored_project) with
  | Return events =>
      map (fun e => (time e, note e, x e)) events
      = [ (0%Q, 48, 0); ((-2)%Q, 48, 320) ]
      ∧ ¬ StronglySorted (fun e1 e2 => (time e1 <= time e2)%Q) events
  | Raise _ => False
  end.
Proof.
  destruct (generate_scan_events (set_project new_sequencer mirrored_project))
    as [events |] eqn:Hgen; [| vm_compute in Hgen; discriminate].
  vm_compute in Hgen. injection Hgen as <-.
  split; [reflexivity |].
  intros Hsorted. apply StronglySorted_inv in Hsorted as [_ Hfirst].
  apply Forall_cons in Hfirst as [Hle _].
  revert Hle. vm_compute. intros H. apply H. reflexivity.
Qed.

(** The times of the code at tempo 100, where the grid step 0.3 is not a
    double: the point at abscissa 216 has its share 1.35 of the scan
    rounded to 4.5000000000000009 steps, which [round] takes up to 5. *)
Example scan_time_tempo_100 :
  scan_time (set_project new_sequencer
               {| name := "demo"; project_model.bpm := 100;
                  project_model.quantize := "1/8"; scale := "pentatonic";
                  root_note := 60; width := 640; height := 480; strokes := [];
                  created_at := "2026-01-01T12:00:00";
                  project_model.duration := 0 |}) 216
  = Return (3 # 2).
Proof. vm_compute. reflexivity. Qed.

End ScanEvents.

Section AudioExport.

Import config music_engine.

Variable synth : NoteEvent → nat → Q.

(** *** Adding into the buffer *)



(** *** One note *)












(** *** Normalisation and conversion *)







(** *** The exported file *)



End AudioExport.

Section ExportExample.

Import config music_engine.


(** A 1 ms note has 44 samples; in a buffer of 10 frames it is cut at
    the end of the buffer. *)
Example mix_truncates :
  left_channel (mix_events ramp 10 (replicate 10 (0, 0)%Q) [short_note 0 1])
  = [1; 2; 3; 4; 5; 6; 7; 8; 9; 10]%Q.
Proof. vm_compute. reflexivity. Qed.

(** A second note starting at sample 4 is added to the first. *)
Example mix_adds :
  left_channel (mix_events ramp 10 (replicate 10 (0, 0)%Q)
                  [short_note 0 1; short_note 0.0001 1])
  = [1; 2; 3; 4; 6; 8; 10; 12; 14; 16]%Q.
Proof. vm_compute. reflexivity. Qed.

(** Normalisation brings the largest sample to 0.9 of full scale. *)
Example normalize_to_int16 :
  max_abs [(1 # 2, - (3 # 4)); (0, 1 # 3)]%Q = Return (3 # 4)%Q
  ∧ to_int16 (normalize (3 # 4) [(1 # 2, - (3 # 4)); (0, 1 # 3)]%Q)
    = [(19660, -29490); (0, 13106)].
Proof. vm_compute. split; reflexivity. Qed.

(** The default name, and the extension put on another name. *)
Example export_paths :
  export_path "20260101_120000" None = "Recordings/music_20260101_120000.wav"%string
  ∧ export_path "" (Some "take.mp3"%string) = "Recordings/take.wav"%string.
Proof. vm_compute. split; reflexivity. Qed.

End ExportExample.

(** * Further properties *)

Section Mapping.

Import config.

Lemma ratio_mono (a1 a2 b : Z) :
  0 < b → a1 <= a2 → (inject_Z a1 / inject_Z b <= inject_Z a2 / inject_Z b)%Q.
Proof.
  intros Hb Ha. apply Qmult_le_compat_r.
  - rewrite <- Zle_Qle. exact Ha.
  - apply Qlt_le_weak, Qinv_lt_0_compat.
    change 0%Q with (inject_Z 0). rewrite <- Zlt_Qlt. exact Hb.
Qed.



(** The top of the range is reached inside the canvas when the share of
    the width rounds to 1. *)
Example map_x_to_note_top :
  map_x_to_note (10 ^ 16 - 1) (10 ^ 16) = Return MAX_NOTE
  ∧ map_x_to_note 639 640 = Return (MAX_NOTE - 1).
Proof. split; vm_compute; reflexivity. Qed.

(** X2: on a canvas of positive width, [map_x_to_note] never decreases
    from left to right. *)
Theorem map_x_to_note_monotone (x1 x2 width n1 n2 : Z) :
  0 < width → x1 <= x2 →
  map_x_to_note x1 width = Return n1 →
  map_x_to_note x2 width = Return n2 →
  n1 <= n2.
Proof.
  intros Hw Hx.
  destruct (map_x_to_note_eq x1 width ltac:(lia)) as [-> [H1 _]].
  destruct (map_x_to_note_eq x2 width ltac:(lia)) as [-> [_ H2]].
  intros [= <-] [= <-].
  apply affine_mono; try assumption;
    try (unfold MIN_NOTE, MAX_NOTE; lia).
  apply b64_mono, ratio_mono; lia.
Qed.

Lemma map_x_to_note_monotone_witness :
  0 < 640 ∧ 100 <= 500
  ∧ map_x_to_note 100 640 = Return 53
  ∧ map_x_to_note 500 640 = Return 76
  ∧ 53 <= 76.
Proof.
  split; [lia |]. split; [lia |].
  split; [vm_compute; reflexivity |]. split; [vm_compute; reflexivity |].
  apply (map_x_to_note_monotone 100 500 640 53 76);
    [lia | lia | vm_compute; reflexivity | vm_compute; reflexivity].
Defined.

(** [map_y_to_duration] through the share of the height below the
    header. *)
Lemma map_y_to_duration_eq (y height : Z) :
  height ≠ HEADER_HEIGHT →
  map_y_to_duration y height
  = Return (affine MIN_NOTE_DURATION (MAX_NOTE_DURATION - MIN_NOTE_DURATION)
              (b64 (inject_Z (Z.max HEADER_HEIGHT (Z.min y (height - 1))
                              - HEADER_HEIGHT)
                    / inject_Z (height - HEADER_HEIGHT))))
  ∧ (0 <= b64 (inject_Z (Z.max HEADER_HEIGHT (Z.min y (height - 1))
                         - HEADER_HEIGHT)
               / inject_Z (height - HEADER_HEIGHT)) <= 1)%Q.
Proof.
  intros Hh. unfold map_y_to_duration.
  destruct (int_truediv_unit
              (Z.max HEADER_HEIGHT (Z.min y (height - 1)) - HEADER_HEIGHT)
              (height - HEADER_HEIGHT) ltac:(unfold HEADER_HEIGHT in *; lia))
    as [-> Hr].
  split; [reflexivity | exact Hr].
Qed.




(** The top of the range is reached when the share of the height rounds
    to 1. *)
Example map_y_to_duration_top :
  map_y_to_duration (10 ^ 17 - 1) (10 ^ 17) = Return MAX_NOTE_DURATION
  ∧ map_y_to_duration 479 480 = Return (MAX_NOTE_DURATION - 1).
Proof. split; vm_compute; reflexivity. Qed.

Lemma thickness_ratio (thickness : Z) :
  (0 <= inject_Z (Z.max 3 (Z.min thickness 30) - 3) / inject_Z 27 <= 1)%Q.
Proof.
  set (tc := Z.max 3 (Z.min thickness 30)).
  assert (Htc : 3 <= tc <= 30) by (subst tc; lia).
  assert (H27 : (0 < inject_Z 27)%Q) by reflexivity.
  split.
  - apply Qle_shift_div_l; [exact H27 |].
    rewrite Qmult_0_l. change 0%Q with (inject_Z 0). rewrite <- Zle_Qle. lia.
  - apply Qle_shift_div_r; [exact H27 |].
    rewrite Qmult_1_l. rewrite <- Zle_Qle. lia.
Qed.

Lemma map_thickness_to_volume_bounds (thickness : Z) :
  MIN_VOLUME <= map_thickness_to_volume thickness <= MAX_VOLUME.
Proof.
  unfold map_thickness_to_volume, MIN_VOLUME, MAX_VOLUME,
    MIN_BRUSH_THICKNESS, MAX_BRUSH_THICKNESS.
  change (inject_Z (30 - 3)) with (inject_Z 27).
  change (inject_Z (127 - 30)) with 97%Q. change (inject_Z 30) with 30%Q.
  pose proof (thickness_ratio thickness) as H1.
  rewrite py_int_nonneg by lra.
  assert (H : 30 <= Qfloor (30 + inject_Z (Z.max 3 (Z.min thickness 30) - 3)
                                 / inject_Z 27 * 97) < 128).
  { apply Qfloor_bounds; [change (inject_Z 30) with 30%Q |
                          change (inject_Z 128) with 128%Q]; lra. }
  lia.
Qed.

(** X4: [map_thickness_to_volume] returns a velocity from [MIN_VOLUME]
    to [MAX_VOLUME] for every thickness, and a thicker brush is never
    quieter. *)
Theorem map_thickness_to_volume_range (t1 t2 : Z) :
  MIN_VOLUME <= map_thickness_to_volume t1 <= MAX_VOLUME
  ∧ (t1 <= t2 → map_thickness_to_volume t1 <= map_thickness_to_volume t2).
Proof.
  unfold map_thickness_to_volume, MIN_VOLUME, MAX_VOLUME,
    MIN_BRUSH_THICKNESS, MAX_BRUSH_THICKNESS.
  change (inject_Z (30 - 3)) with (inject_Z 27).
  change (inject_Z (127 - 30)) with 97%Q. change (inject_Z 30) with 30%Q.
  pose proof (thickness_ratio t1) as H1.
  pose proof (thickness_ratio t2) as H2.
  rewrite !py_int_nonneg by lra.
  split.
  - pose proof (map_thickness_to_volume_bounds t1) as Hb.
    unfold map_thickness_to_volume, MIN_VOLUME, MAX_VOLUME,
      MIN_BRUSH_THICKNESS, MAX_BRUSH_THICKNESS in Hb.
    change (inject_Z (30 - 3)) with (inject_Z 27) in Hb.
    change (inject_Z (127 - 30)) with 97%Q in Hb.
    change (inject_Z 30) with 30%Q in Hb.
    rewrite py_int_nonneg in Hb by lra. exact Hb.
  - intros Ht. apply Qfloor_resp_le.
    assert (Hr : (inject_Z (Z.max 3 (Z.min t1 30) - 3) / inject_Z 27
                  <= inject_Z (Z.max 3 (Z.min t2 30) - 3) / inject_Z 27)%Q)
      by (apply ratio_mono; lia).
    lra.
Qed.

Lemma map_thickness_to_volume_range_witness :
  MIN_VOLUME <= map_thickness_to_volume 5 <= MAX_VOLUME
  ∧ (5 <= 25 → map_thickness_to_volume 5 <= map_thickness_to_volume 25).
Proof. exact (map_thickness_to_volume_range 5 25). Defined.

(** The ends of the brush range give the ends of the volume range. *)
Example map_thickness_to_volume_ends :
  map_thickness_to_volume 0 = 30 ∧ map_thickness_to_volume 3 = 30
  ∧ map_thickness_to_volume 30 = 127 ∧ map_thickness_to_volume 100 = 127.
Proof. repeat split. Qed.

Lemma quantize_to_scale_keeps (n : Z) (scale_type : string) (r : Z) :
  (n - r) mod 12 ∈ active_scale scale_type → quantize_to_scale n scale_type r = n.
Proof.
  intros Hin. rewrite quantize_to_scale_eq, (closest_degree_fixed _ _ _ Hin).
  pose proof (Z.div_mod (n - r) 12 ltac:(lia)). lia.
Qed.

(** X5: the note returned by [quantize_to_scale] is a note of the
    scale, and a note is returned unchanged exactly when it is one. *)
Theorem quantize_to_scale_in_scale (n : Z) (scale_type : string) (r : Z) :
  (quantize_to_scale n scale_type r - r) mod 12 ∈ active_scale scale_type
  ∧ (quantize_to_scale n scale_type r = n
     ↔ (n - r) mod 12 ∈ active_scale scale_type).
Proof.
  split.
  - rewrite quantize_to_scale_class. apply closest_degree_in_scale.
  - split.
    + intros Hfix. rewrite <- Hfix at 1.
      rewrite quantize_to_scale_class. apply closest_degree_in_scale.
    + apply quantize_to_scale_keeps.
Qed.

Lemma closest_within_two (scale : list Z) (rel : Z) :
  scale ∈ [ [0; 2; 4; 5; 7; 9; 11]; [0; 2; 3; 5; 7; 8; 10]; [0; 2; 4; 7; 9];
            [0; 3; 5; 6; 7; 10]; [0; 1; 2; 3; 4; 5; 6; 7; 8; 9; 10; 11] ] →
  0 <= rel < 12 →
  Z.abs (py_min (fun s => Z.abs (s - rel)) scale - rel) <= 2.
Proof.
  intros Hscale Hrel.
  assert (Hcases : rel ∈ seqZ 0 12) by (apply elem_of_seqZ; lia).
  repeat (apply elem_of_cons in Hscale as [-> | Hscale]);
    [.. | inversion Hscale];
    repeat (apply elem_of_cons in Hcases as [-> | Hcases];
            [vm_compute; discriminate |]);
    inversion Hcases.
Qed.

(** X6: whatever the scale and the root, [quantize_to_scale] moves a
    note by at most two semitones. *)
Theorem quantize_to_scale_within_two (n : Z) (scale_type : string) (r : Z) :
  Z.abs (quantize_to_scale n scale_type r - n) <= 2.
Proof.
  rewrite quantize_to_scale_eq. unfold closest_degree.
  pose proof (closest_within_two (active_scale scale_type) ((n - r) mod 12)
                (active_scale_cases scale_type)
                (Z.mod_pos_bound (n - r) 12 ltac:(lia))) as Hclose.
  pose proof (Z.div_mod (n - r) 12 ltac:(lia)) as Hdm.
  set (c := py_min _ _) in *. lia.
Qed.

(** The chromatic scale leaves every note where it is. *)
Example quantize_chromatic (n r : Z) : quantize_to_scale n "chromatic" r = n.
Proof.
  apply quantize_to_scale_keeps.
  change (active_scale "chromatic") with (seqZ 0 12).
  apply elem_of_seqZ. pose proof (Z.mod_pos_bound (n - r) 12 ltac:(lia)). lia.
Qed.

End Mapping.

Section TimeGrid.

Import project_model.

Lemma py_round_nearest (q : Q) : (Qabs (inject_Z (py_round q) - q) <= 1 # 2)%Q.
Proof.
  pose proof (Qfloor_le q) as Hlo. pose proof (Qlt_floor q) as Hhi.
  rewrite inject_Z_plus in Hhi. change (inject_Z 1) with 1%Q in Hhi.
  apply Qabs_Qle_condition. unfold py_round.
  destruct (Qcompare_spec (q - inject_Z (Qfloor q)) (1 # 2)) as [H | H | H].
  - destruct (Z.even (Qfloor q)); rewrite ?inject_Z_plus;
      change (inject_Z 1) with 1%Q; split; lra.
  - split; lra.
  - rewrite inject_Z_plus. change (inject_Z 1) with 1%Q. split; lra.
Qed.

(** X7: at tempo zero [quantize_time] raises [ZeroDivisionError]; at any
    other tempo it never reverses the order of two times: of two times
    that it quantises, the later one is not placed before the earlier
    one. *)
Theorem quantize_time_order (t1 t2 : Q) (bpm : Z) (quantize : string) :
  (bpm = 0 → quantize_time t1 bpm quantize = Raise ZeroDivisionError)
  ∧ ∀ q1 q2,
      quantize_time t1 bpm quantize = Return q1 →
      quantize_time t2 bpm quantize = Return q2 →
      (t1 <= t2)%Q → (q1 <= q2)%Q.
Proof.
  split.
  - intros ->. reflexivity.
  - intros q1 q2 H1 H2 Hle. exact (quantize_time_mono _ _ _ _ _ _ H1 H2 Hle).
Qed.

(** At tempo 110 the quarter-note step 60/110 is not a double: 33 s are
    60.500000000000007 steps for the code, which [round] takes to 61. *)
Lemma quantize_time_order_witness :
  quantize_time 33 110 "1/4" = Return (b64 (61 * b64 (60 / 110)))
  ∧ quantize_time 0.3 120 "1/8" = Return (1 # 4)
  ∧ quantize_time 0.4 120 "1/8" = Return (1 # 2)
  ∧ (1 # 4 <= 1 # 2)%Q.
Proof.
  split; [vm_compute; reflexivity |].
  assert (H1 : quantize_time 0.3 120 "1/8" = Return (1 # 4)) by (vm_compute; reflexivity).
  assert (H2 : quantize_time 0.4 120 "1/8" = Return (1 # 2)) by (vm_compute; reflexivity).
  split; [exact H1 |]. split; [exact H2 |].
  destruct (quantize_time_order 0.3 0.4 120 "1/8") as [_ Hmono].
  apply (Hmono _ _ H1 H2). vm_compute. discriminate.
Defined.

End TimeGrid.

Section Triggers.

Import config music_engine.

Ltac split_calls :=
  repeat match goal with
         | |- context [if ?b then _ else _] => destruct b eqn:?
         | |- context [match ?m with Return _ => _ | Raise _ => _ end] => destruct m eqn:?
         | |- context [match ?m with Some _ => _ | None => _ end] => destruct m eqn:?
         end.

Lemma disabled_play_note (e : MusicEngine) (now : Q) (x y thickness width height : Z) :
  is_playing e = false ∨ audio_initialized e = false →
  play_note e now x y thickness width height = (e, Return ()).
Proof.
  intros H. unfold play_note.
  destruct H as [-> | ->]; [reflexivity |].
  rewrite orb_true_r. reflexivity.
Qed.

Lemma disabled_play_preview_note (e : MusicEngine) (now : Q)
    (x y thickness width height : Z) :
  is_playing e = false ∨ audio_initialized e = false →
  play_preview_note e now x y thickness width height = (e, Return false).
Proof.
  intros H. unfold play_preview_note.
  destruct H as [-> | ->]; [reflexivity |].
  rewrite orb_true_r. reflexivity.
Qed.

Lemma do_call_keeps_flags (e : MusicEngine) (c : call) :
  is_playing (do_call e c) = is_playing e
  ∧ audio_initialized (do_call e c) = audio_initialized e.
Proof.
  destruct c as [now x y th w h | now x y th w h |]; simpl.
  - unfold play_note. split_calls; simpl; unfold record_note; simpl;
      try destruct (is_recording e); split; reflexivity.
  - unfold play_preview_note. split_calls; simpl; unfold record_note; simpl;
      try destruct (is_recording e); split; reflexivity.
  - split; reflexivity.
Qed.

(** X9: on an engine that is disabled ([is_playing] false) or has no
    audio device, [play_note] and [play_preview_note] return at once
    without raising, whatever their arguments, and no sequence of calls
    plays or records anything. *)
Theorem silent_engine (e : MusicEngine) :
  is_playing e = false ∨ audio_initialized e = false →
  (∀ now x y thickness width height,
     play_note e now x y thickness width height = (e, Return ())
     ∧ play_preview_note e now x y thickness width height = (e, Return false))
  ∧ ∀ calls,
      mixer (do_calls e calls) = mixer e
      ∧ recorded_notes (do_calls e calls) = recorded_notes e.
Proof.
  intros Hoff. split.
  - intros now x y th w h.
    split; [apply disabled_play_note | apply disabled_play_preview_note]; exact Hoff.
  - intros calls. revert e Hoff.
    induction calls as [|c calls IH]; intros e Hoff; [split; reflexivity |].
    change (do_calls e (c :: calls)) with (do_calls (do_call e c) calls).
    destruct (do_call_keeps_flags e c) as [Hp Ha].
    destruct (IH (do_call e c)) as [Hm Hr]; [rewrite Hp, Ha; exact Hoff |].
    rewrite Hm, Hr.
    destruct c as [now x y th w h | now x y th w h |]; simpl.
    + rewrite disabled_play_note by exact Hoff. split; reflexivity.
    + rewrite disabled_play_preview_note by exact Hoff. split; reflexivity.
    + split; reflexivity.
Qed.

(** Without an audio device the engine is built with an empty cache and
    stays silent, also when the canvas width given is zero. *)
Lemma silent_engine_witness :
  let e := start_recording (new_engine false (fun _ => true)) 0 in
  (is_playing e = false ∨ audio_initialized e = false)
  ∧ note_cache e = ∅
  ∧ play_note e 1 100 100 10 0 480 = (e, Return ())
  ∧ mixer (do_calls e session) = mixer e
  ∧ recorded_notes (do_calls e session) = recorded_notes e.
Proof.
  intros e.
  assert (Hoff : is_playing e = false ∨ audio_initialized e = false)
    by (right; reflexivity).
  destruct (silent_engine e Hoff) as [Hcall Hcalls].
  split; [exact Hoff |]. split; [reflexivity |].
  split; [apply Hcall | apply Hcalls].
Defined.

(** *** When [play_note] sounds *)

Lemma record_note_fields (e : MusicEngine) (now : Q) (n v d x y : Z) :
  let e' := record_note e now n v d x y in
  mixer e' = mixer e ∧ last_note e' = last_note e
  ∧ last_note_time e' = last_note_time e
  ∧ min_note_interval e' = min_note_interval e
  ∧ is_playing e' = is_playing e ∧ audio_initialized e' = audio_initialized e
  ∧ scale_type e' = scale_type e ∧ root_note e' = root_note e
  ∧ current_instrument e' = current_instrument e
  ∧ note_cache e' = note_cache e.
Proof. unfold record_note. destruct (is_recording e); repeat split. Qed.

(** What a [play_note] call leaves behind: the engine as it was, or the
    engine after the sound was played and the note recorded. *)
Lemma play_note_cases (e : MusicEngine) (now : Q) (x y thickness width height : Z) :
  let e' := (play_note e now x y thickness width height).1 in
  e' = e
  ∨ ∃ raw d sound,
      let note := quantize_to_scale raw (scale_type e) (root_note e) in
      let velocity := map_thickness_to_volume thickness in
      is_playing e = true ∧ audio_initialized e = true
      ∧ (min_note_interval e <= now - last_note_time e)%Q
      ∧ map_x_to_note x width = Return raw
      ∧ ¬ (note = last_note e ∧ (now - last_note_time e < 0.2)%Q)
      ∧ map_y_to_duration y height = Return d
      ∧ note_cache e !! cache_key (current_instrument e) note = Some sound
      ∧ e' = record_note
               (assign_last_note_time now
                  (assign_last_note note
                     (play sound (inject_Z velocity / 127) e)))
               now note velocity d x y.
Proof.
  unfold play_note.
  destruct (is_playing e) eqn:Hplay; [| left; reflexivity].
  destruct (audio_initialized e) eqn:Hinit; [| left; reflexivity].
  cbn [negb orb].
  destruct (Qltb _ _) eqn:Hint; [left; reflexivity |].
  destruct (map_x_to_note x width) as [raw | ex] eqn:Hraw; [| left; reflexivity].
  destruct (_ && _) eqn:Hsame; [left; reflexivity |].
  destruct (map_y_to_duration y height) as [d | ex] eqn:Hd; [| left; reflexivity].
  destruct (note_cache e !! _) as [sound |] eqn:Hsound; [| left; reflexivity].
  right. exists raw, d, sound. cbv zeta.
  apply Qltb_ge in Hint.
  repeat split; try assumption; try reflexivity.
  intros [Hnote Hsoon].
  apply andb_false_iff in Hsame as [Hne | Hlate].
  - apply Z.eqb_neq in Hne. contradiction.
  - apply Qltb_ge in Hlate. lra.
Qed.

Lemma not_triggered_self (e : MusicEngine) : ¬ triggered e e.
Proof. unfold triggered. lia. Qed.

Lemma triggered_play (e e1 : MusicEngine) (sound : Sound) (volume : Q) :
  mixer e1 = mixer (play sound volume e) → triggered e e1.
Proof.
  intros Hm. unfold triggered. rewrite Hm. simpl. rewrite length_app. simpl. lia.
Qed.

(** X12: on an enabled engine whose cache holds the sound, and for
    arguments that the mappings accept, [play_note] triggers exactly
    when [min_note_interval] has passed since the last note and the note
    is not a repetition of the last note within 0.2 s; a call that does
    not trigger returns the engine as it was. *)
Theorem play_note_gating (e : MusicEngine) (now : Q)
    (x y thickness width height raw d : Z) (sound : Sound) :
  is_playing e = true → audio_initialized e = true →
  map_x_to_note x width = Return raw →
  map_y_to_duration y height = Return d →
  note_cache e
    !! cache_key (current_instrument e)
         (quantize_to_scale raw (scale_type e) (root_note e))
  = Some sound →
  let e' := (play_note e now x y thickness width height).1 in
  (triggered e e'
   ↔ (min_note_interval e <= now - last_note_time e)%Q
     ∧ ¬ (quantize_to_scale raw (scale_type e) (root_note e) = last_note e
          ∧ (now - last_note_time e < 0.2)%Q))
  ∧ (¬ triggered e e' → e' = e).
Proof.
  intros Hplay Hinit Hraw Hd Hsound e'.
  pose proof (play_note_cases e now x y thickness width height) as Hcases.
  cbv zeta in Hcases. fold e' in Hcases.
  assert (Hon : triggered e e'
                ↔ (min_note_interval e <= now - last_note_time e)%Q
                  ∧ ¬ (quantize_to_scale raw (scale_type e) (root_note e) = last_note e
                       ∧ (now - last_note_time e < 0.2)%Q)).
  { split.
    - intros Htrig.
      destruct Hcases as [Hsame | (raw' & d' & sound' & _ & _ & Hint & Hraw' & Hrep & _)].
      + rewrite Hsame in Htrig. destruct (not_triggered_self e Htrig).
      + rewrite Hraw in Hraw'. injection Hraw' as <-. split; assumption.
    - intros [Hint Hrep]. subst e'. unfold play_note.
      rewrite Hplay, Hinit, Hraw, Hd, Hsound. cbn [negb orb].
      apply Qltb_ge in Hint. rewrite Hint.
      destruct (_ && _) eqn:Hsame.
      + apply andb_true_iff in Hsame as [Hnote Hsoon].
        apply Z.eqb_eq in Hnote. apply Qltb_lt in Hsoon.
        destruct Hrep. split; assumption.
      + cbn [fst].
        match goal with
        | |- triggered e (record_note ?e1 now ?n ?v d x y) =>
            destruct (record_note_fields e1 now n v d x y) as (Hm & _)
        end.
        eapply triggered_play. rewrite Hm. reflexivity. }
  split; [exact Hon |].
  intros Hquiet.
  destruct Hcases as [Hsame | (raw' & d' & sound' & _ & _ & _ & _ & _ & _ & _ & He')];
    [exact Hsame |].
  destruct Hquiet. rewrite He'.
  match goal with
  | |- triggered e (record_note ?e1 now ?n ?v d' x y) =>
      destruct (record_note_fields e1 now n v d' x y) as (Hm & _)
  end.
  eapply triggered_play. rewrite Hm. reflexivity.
Qed.

Lemma play_note_gating_witness :
  let e := new_engine true (fun _ => true) in
  let e' := (play_note e 1 320 100 10 640 480).1 in
  (triggered e e'
   ↔ (min_note_interval e <= 1 - last_note_time e)%Q
     ∧ ¬ (quantize_to_scale 66 (scale_type e) (root_note e) = last_note e
          ∧ (1 - last_note_time e < 0.2)%Q))
  ∧ (¬ triggered e e' → e' = e).
Proof.
  intros e.
  apply (play_note_gating e 1%Q 320 100 10 640 480 66 138 (Tone "sine" 67));
    [reflexivity | reflexivity | reflexivity | reflexivity | vm_compute; reflexivity].
Defined.

(** X13: after a [play_note] call that triggered, a second call sooner
    than [min_note_interval], or sooner than 0.2 s and at a position that
    maps to the same raw note, returns the engine unchanged and without
    raising: of two such calls at most one sounds. *)
Theorem play_note_throttle (e : MusicEngine) (t1 t2 : Q)
    (x1 y1 thickness1 width1 height1 x2 y2 thickness2 width2 height2 : Z) :
  let e1 := (play_note e t1 x1 y1 thickness1 width1 height1).1 in
  triggered e e1 →
  (t2 - t1 < min_note_interval e)%Q
  ∨ ((t2 - t1 < 0.2)%Q ∧ map_x_to_note x2 width2 = map_x_to_note x1 width1) →
  play_note e1 t2 x2 y2 thickness2 width2 height2 = (e1, Return ()).
Proof.
  intros e1 Htrig Hsoon.
  pose proof (play_note_cases e t1 x1 y1 thickness1 width1 height1) as Hcases.
  cbv zeta in Hcases. fold e1 in Hcases.
  destruct Hcases as [Hsame | (raw & d & sound & Hplay & Hinit & _ & Hraw & _ & _ & _ & He1)].
  { rewrite Hsame in Htrig. destruct (not_triggered_self e Htrig). }
  match type of He1 with
  | _ = record_note ?e0 t1 ?n ?v d x1 y1 =>
      destruct (record_note_fields e0 t1 n v d x1 y1)
        as (_ & Hlast & Htime & Hmin & Hp & Ha & Hscale & Hroot & _)
  end.
  cbv zeta in Hlast, Htime, Hmin, Hp, Ha, Hscale, Hroot.
  rewrite <- He1 in Hlast, Htime, Hmin, Hp, Ha, Hscale, Hroot.
  cbn in Hlast, Htime, Hmin, Hp, Ha, Hscale, Hroot.
  unfold play_note. rewrite Hp, Ha, Hplay, Hinit, Htime, Hmin. cbn [negb orb].
  destruct (Qltb (t2 - t1) (min_note_interval e)) eqn:Hint; [reflexivity |].
  apply Qltb_ge in Hint.
  destruct Hsoon as [Hsoon | [Hsoon Hpos]]; [lra |].
  rewrite Hpos, Hraw, Hscale, Hroot, Hlast, Z.eqb_refl.
  apply Qltb_lt in Hsoon. rewrite Hsoon. reflexivity.
Qed.

Lemma play_note_throttle_witness :
  let e := new_engine true (fun _ => true) in
  let e1 := (play_note e 1 320 100 10 640 480).1 in
  triggered e e1
  ∧ play_note e1 1.01 100 100 10 640 480 = (e1, Return ())
  ∧ play_note e1 1.1 321 300 25 640 480 = (e1, Return ())
  ∧ triggered e1 (play_note e1 1.1 100 100 10 640 480).1.
Proof.
  intros e e1.
  assert (Htrig : triggered e e1) by reflexivity.
  split; [exact Htrig |]. split; [| split].
  - apply (play_note_throttle e 1%Q 1.01%Q 320 100 10 640 480 100 100 10 640 480 Htrig).
    left. reflexivity.
  - apply (play_note_throttle e 1%Q 1.1%Q 320 100 10 640 480 321 300 25 640 480 Htrig).
    right. split; reflexivity.
  - reflexivity.
Defined.

(** *** What a session plays and records *)









(** The session of the examples, recorded from time 0: four sounds,
    four events. *)
Example session_plays :
  let e := start_recording (new_engine true (fun _ => true)) 0 in
  length (mixer (do_calls e session)) = 4%nat
  ∧ map velocity (recorded_notes (do_calls e session)) = [55; 55; 55; 55]
  ∧ map note (recorded_notes (do_calls e session)) = [52; 64; 76; 57].
Proof. vm_compute. repeat split. Qed.

(** *** Instruments *)

Lemma switch_instrument_index (e : MusicEngine) (direction : Z) :
  instrument_index (switch_instrument e direction)
  = (instrument_index e + direction) mod 5
  ∧ current_instrument (switch_instrument e direction)
    = INSTRUMENT_LIST !!! Z.to_nat ((instrument_index e + direction) mod 5).
Proof. split; reflexivity. Qed.

Lemma listed_at (i : Z) :
  0 <= i < 5 → INSTRUMENT_LIST !! Z.to_nat i = Some (INSTRUMENT_LIST !!! Z.to_nat i).
Proof.
  intros Hi.
  assert (Hcases : i ∈ seqZ 0 5) by (apply elem_of_seqZ; lia).
  repeat (apply elem_of_cons in Hcases as [-> | Hcases]; [reflexivity |]).
  inversion Hcases.
Qed.

(** X10: after [switch_instrument], for any direction and whatever the
    index was, and after [set_instrument], for any key, the index is a
    position of [INSTRUMENT_LIST] and the current instrument is the one
    at that position; no trigger changes either. *)
Theorem instrument_stays_consistent (e : MusicEngine) :
  (∀ direction, instrument_consistent (switch_instrument e direction))
  ∧ (∀ key, instrument_consistent e → instrument_consistent (set_instrument e key))
  ∧ (∀ key, key ∈ INSTRUMENT_LIST →
            current_instrument (set_instrument e key) = key
            ∧ instrument_consistent (set_instrument e key))
  ∧ (∀ key, key ∉ INSTRUMENT_LIST → set_instrument e key = e)
  ∧ (∀ c, instrument_consistent e → instrument_consistent (do_call e c)).
Proof.
  assert (Hfound : ∀ key i k,
            list_find (fun k => k = key) INSTRUMENT_LIST = Some (i, k) →
            instrument_consistent
              (assign_current_instrument key
                 (assign_instrument_index (Z.of_nat i) e))).
  { intros key i k Hfind. apply list_find_Some in Hfind as (Hk & -> & _).
    split; simpl; [lia |]. rewrite Nat2Z.id. exact Hk. }
  split; [| split; [| split; [| split]]].
  - intros direction.
    destruct (switch_instrument_index e direction) as [Hi Hc].
    pose proof (Z.mod_pos_bound (instrument_index e + direction) 5 ltac:(lia)) as Hb.
    unfold instrument_consistent. rewrite Hi, Hc.
    split; [lia | apply listed_at, Hb].
  - intros key Hcons. unfold set_instrument.
    destruct (list_find _ _) as [[i k] |] eqn:Hfind; [| exact Hcons].
    exact (Hfound key i k Hfind).
  - intros key Hin. unfold set_instrument.
    destruct (list_find _ _) as [[i k] |] eqn:Hfind.
    + split; [reflexivity | exact (Hfound key i k Hfind)].
    + apply list_find_None in Hfind. rewrite Forall_forall in Hfind.
      destruct (Hfind key Hin). reflexivity.
  - intros key Hout. unfold set_instrument.
    destruct (list_find _ _) as [[i k] |] eqn:Hfind; [| reflexivity].
    apply list_find_Some in Hfind as (Hk & -> & _).
    destruct Hout. apply list_elem_of_lookup. eauto.
  - intros c [H0 Hc]. unfold instrument_consistent.
    destruct (do_call_keeps_cache e c) as [_ Hcur]. rewrite Hcur.
    assert (Hidx : instrument_index (do_call e c) = instrument_index e).
    { destruct c as [now x y th w h | now x y th w h |]; simpl.
      - unfold play_note. split_calls; simpl; unfold record_note; simpl;
          try destruct (is_recording e); reflexivity.
      - unfold play_preview_note. split_calls; simpl; unfold record_note; simpl;
          try destruct (is_recording e); reflexivity.
      - reflexivity. }
    rewrite Hidx. split; assumption.
Qed.

Lemma instrument_stays_consistent_witness :
  let e := new_engine true (fun _ => true) in
  instrument_consistent e
  ∧ instrument_consistent (set_instrument e "kazoo")
  ∧ set_instrument e "kazoo" = e
  ∧ current_instrument (set_instrument e "synth") = "synth"%string
  ∧ instrument_consistent (do_call (switch_instrument e (-7)) ResetPreviewState).
Proof.
  intros e.
  assert (Hcons : instrument_consistent e) by (split; [vm_compute; discriminate | reflexivity]).
  destruct (instrument_stays_consistent e) as (_ & Hset & Hin & Hout & _).
  destruct (instrument_stays_consistent (switch_instrument e (-7))) as (_ & _ & _ & _ & Hcall).
  destruct (instrument_stays_consistent e) as (Hswitch & _).
  split; [exact Hcons |].
  split; [apply Hset, Hcons |].
  split; [apply Hout; apply (bool_decide_unpack _); vm_compute; reflexivity |].
  split; [apply Hin; apply (bool_decide_unpack _); vm_compute; reflexivity |].
  apply Hcall, Hswitch.
Defined.

(** X11: [switch_instrument] walks round the list: a step back undoes a
    step forward, and five steps forward come back to the instrument
    they started from. *)
Theorem switch_instrument_cycle (e : MusicEngine) (direction : Z) :
  instrument_consistent e →
  (let back := switch_instrument (switch_instrument e direction) (- direction) in
   instrument_index back = instrument_index e
   ∧ current_instrument back = current_instrument e)
  ∧ (let round :=
       switch_instrument (switch_instrument (switch_instrument
         (switch_instrument (switch_instrument e 1) 1) 1) 1) 1 in
     instrument_index round = instrument_index e
     ∧ current_instrument round = current_instrument e).
Proof.
  intros [H0 Hcur].
  assert (H5 : instrument_index e < 5).
  { apply lookup_lt_Some in Hcur. cbn [length INSTRUMENT_LIST] in Hcur. lia. }
  assert (Hname : INSTRUMENT_LIST !!! Z.to_nat (instrument_index e) = current_instrument e).
  { apply list_lookup_total_correct. exact Hcur. }
  assert (Hback : ((instrument_index e + direction) mod 5 + - direction) mod 5
                  = instrument_index e).
  { Z.div_mod_to_equations. lia. }
  assert (Hround : (((((instrument_index e + 1) mod 5 + 1) mod 5 + 1) mod 5 + 1) mod 5 + 1) mod 5
                   = instrument_index e).
  { Z.div_mod_to_equations. lia. }
  split; cbv zeta.
  - rewrite !(proj1 (switch_instrument_index _ _)), !(proj2 (switch_instrument_index _ _)).
    rewrite !(proj1 (switch_instrument_index _ _)).
    rewrite Hback. split; [reflexivity | exact Hname].
  - rewrite !(proj1 (switch_instrument_index _ _)), !(proj2 (switch_instrument_index _ _)).
    rewrite !(proj1 (switch_instrument_index _ _)).
    rewrite Hround. split; [reflexivity | exact Hname].
Qed.

Lemma switch_instrument_cycle_witness :
  let e := set_instrument (new_engine true (fun _ => true)) "drums" in
  instrument_consistent e
  ∧ current_instrument (switch_instrument (switch_instrument e 3) (-3)) = "drums"%string
  ∧ current_instrument (switch_instrument e 3) = "piano"%string.
Proof.
  intros e.
  assert (Hcons : instrument_consistent e) by (split; [vm_compute; discriminate | reflexivity]).
  destruct (switch_instrument_cycle e 3 Hcons) as [[_ Hback] _].
  split; [exact Hcons |]. split; [exact Hback | reflexivity].
Defined.

End Triggers.

Section CacheContent.

Import config music_engine.

Variable mixer_ok : Sound → bool.

Lemma cache_store_sound (key : string) (sound : option Sound)
    (cache : gmap string Sound) :
  (∀ snd, sound = Some snd → mixer_ok snd = true ∧ cache_entry key snd) →
  cache_sound mixer_ok cache → cache_sound mixer_ok (cache_store key sound cache).
Proof.
  intros Hnew Hcache. destruct sound as [snd |]; simpl; [| exact Hcache].
  intros k s Hk. destruct (decide (key = k)) as [<- | Hne].
  - rewrite lookup_insert_eq in Hk. injection Hk as <-. apply Hnew. reflexivity.
  - rewrite lookup_insert_ne in Hk by exact Hne. apply Hcache, Hk.
Qed.

Lemma foldl_store_sound {A : Type} (key : A → string) (gen : A → option Sound)
    (l : list A) : ∀ cache : gmap string Sound,
  (∀ a snd, a ∈ l → gen a = Some snd →
            mixer_ok snd = true ∧ cache_entry (key a) snd) →
  cache_sound mixer_ok cache →
  cache_sound mixer_ok (foldl (fun c a => cache_store (key a) (gen a) c) cache l).
Proof.
  induction l as [|a l IH]; intros cache Hgen Hcache; simpl; [exact Hcache |].
  apply IH.
  - intros b snd Hb. apply Hgen. apply elem_of_cons. auto.
  - apply cache_store_sound; [| exact Hcache].
    intros snd. apply Hgen. apply elem_of_cons. auto.
Qed.

Lemma tones_sound (e : MusicEngine) (notes : list Z) (instrs : list string) :
  ∀ cache : gmap string Sound,
  (∀ i, i ∈ instrs → i ∈ INSTRUMENT_LIST) →
  (∀ n, n ∈ notes → MIN_NOTE <= n <= MAX_NOTE) →
  cache_sound mixer_ok cache →
  cache_sound mixer_ok
    (foldl (fun cache i =>
              foldl (fun cache note =>
                       cache_store (cache_key i note)
                         (_generate_tone mixer_ok e note (INSTRUMENTS !!! i))
                         cache)
                    cache notes)
           cache instrs).
Proof.
  induction instrs as [|j l IH]; intros cache Hinstrs Hnotes Hcache; simpl;
    [exact Hcache |].
  apply IH; [intros i Hi; apply Hinstrs, elem_of_cons; auto | exact Hnotes |].
  apply (foldl_store_sound (cache_key j)
           (fun note => _generate_tone mixer_ok e note (INSTRUMENTS !!! j)));
    [| exact Hcache].
  intros n snd Hn. unfold _generate_tone.
  destruct (negb (audio_initialized e)); [discriminate |].
  destruct (mixer_ok (Tone (INSTRUMENTS !!! j) n)) eqn:Hok; [| discriminate].
  intros [= <-]. split; [exact Hok |].
  left. exists j, n.
  split; [apply Hinstrs, elem_of_cons; auto |]. split; [apply Hnotes, Hn |].
  split; reflexivity.
Qed.

Lemma pregenerate_notes_sound (e : MusicEngine) :
  cache_sound mixer_ok (note_cache e) →
  cache_sound mixer_ok (note_cache (_pregenerate_notes mixer_ok e)).
Proof.
  intros Hcache. unfold _pregenerate_notes.
  destruct (negb (audio_initialized e)); [exact Hcache |].
  cbn [note_cache assign_note_cache].
  apply tones_sound; [auto | | exact Hcache].
  intros n Hn. unfold py_range in Hn. apply elem_of_seqZ in Hn.
  unfold MIN_NOTE, MAX_NOTE in *. lia.
Qed.

Lemma drum_sound (drum_type : string) (snd : Sound) :
  drum_type ∈ ["kick"; "snare"; "hihat"]%string →
  _generate_drum_sound mixer_ok drum_type = Some snd →
  mixer_ok snd = true ∧ cache_entry ("drum_" +:+ drum_type) snd.
Proof.
  intros Hin. unfold _generate_drum_sound.
  destruct (_ || _); [| discriminate].
  destruct (mixer_ok (Drum drum_type)) eqn:Hok; [| discriminate].
  intros [= <-]. split; [exact Hok |].
  right. left. exists drum_type. repeat split. exact Hin.
Qed.

Lemma pregenerate_drums_sound (e : MusicEngine) :
  cache_sound mixer_ok (note_cache e) →
  cache_sound mixer_ok (note_cache (_pregenerate_drums mixer_ok e)).
Proof.
  intros Hcache. unfold _pregenerate_drums.
  destruct (negb (audio_initialized e)); [exact Hcache |].
  cbn [note_cache assign_note_cache].
  repeat (apply cache_store_sound;
          [intros snd; apply (drum_sound _ snd);
           repeat (apply elem_of_cons; first [left; reflexivity | right]) |]).
  exact Hcache.
Qed.

Lemma pregenerate_bass_sound (e : MusicEngine) :
  cache_sound mixer_ok (note_cache e) →
  cache_sound mixer_ok (note_cache (_pregenerate_bass mixer_ok e)).
Proof.
  intros Hcache. unfold _pregenerate_bass.
  destruct (negb (audio_initialized e)); [exact Hcache |].
  cbn [note_cache assign_note_cache].
  apply (foldl_store_sound (cache_key "bass") (_generate_bass_tone mixer_ok));
    [| exact Hcache].
  intros n snd Hn. unfold py_range in Hn. apply elem_of_seqZ in Hn.
  unfold _generate_bass_tone.
  destruct (mixer_ok (BassTone n)) eqn:Hok; [| discriminate].
  intros [= <-]. split; [exact Hok |].
  right. right. left. exists n. split; [lia |]. split; reflexivity.
Qed.

Lemma pregenerate_metronome_sound (e : MusicEngine) :
  cache_sound mixer_ok (note_cache e) →
  cache_sound mixer_ok (note_cache (_pregenerate_metronome mixer_ok e)).
Proof.
  intros Hcache. unfold _pregenerate_metronome.
  destruct (negb (audio_initialized e)); [exact Hcache |].
  cbn [note_cache assign_note_cache].
  apply cache_store_sound.
  { intros snd. unfold _generate_metronome_tick.
    destruct (mixer_ok (Tick 800)) eqn:Hok; [| discriminate].
    intros [= <-]. split; [exact Hok |]. do 4 right. split; reflexivity. }
  apply cache_store_sound; [| exact Hcache].
  intros snd. unfold _generate_metronome_tick.
  destruct (mixer_ok (Tick 1200)) eqn:Hok; [| discriminate].
  intros [= <-]. split; [exact Hok |]. do 3 right. left. split; reflexivity.
Qed.

Lemma new_engine_sound (audio_ok : bool) :
  cache_sound mixer_ok (note_cache (new_engine audio_ok mixer_ok)).
Proof.
  unfold new_engine.
  apply pregenerate_metronome_sound, pregenerate_bass_sound,
        pregenerate_drums_sound, pregenerate_notes_sound.
  intros key sound Hk. cbn in Hk. rewrite lookup_empty in Hk. discriminate.
Qed.

Lemma new_engine_no_audio : note_cache (new_engine false mixer_ok) = ∅.
Proof. reflexivity. Qed.

(** X15: whether or not the audio device and the individual sounds could
    be built, everything in the cache of a new engine is one of the
    entries that the four warm-up passes produce, under its own key, and
    was built successfully; without an audio device the cache is empty. *)
Theorem new_engine_cache_sound (audio_ok : bool) (key : string) (sound : Sound) :
  note_cache (new_engine audio_ok mixer_ok) !! key = Some sound →
  audio_ok = true ∧ mixer_ok sound = true ∧ cache_entry key sound.
Proof.
  intros Hk. split.
  - destruct audio_ok; [reflexivity |].
    rewrite new_engine_no_audio, lookup_empty in Hk. discriminate.
  - exact (new_engine_sound audio_ok key sound Hk).
Qed.

(** *** Keys *)

Lemma cache_key_inj (instr1 instr2 : string) (n1 n2 : Z) :
  instr1 ∈ "bass"%string :: INSTRUMENT_LIST →
  instr2 ∈ "bass"%string :: INSTRUMENT_LIST →
  cache_key instr1 n1 = cache_key instr2 n2 → instr1 = instr2 ∧ n1 = n2.
Proof.
  intros H1 H2 Hkey. unfold INSTRUMENT_LIST in *.
  repeat (apply elem_of_cons in H1 as [-> | H1]); [.. | inversion H1];
    (repeat (apply elem_of_cons in H2 as [-> | H2]); [.. | inversion H2]);
    cbv beta iota delta [cache_key String.append] in Hkey; try discriminate Hkey;
    (split; [reflexivity |]); apply (inj pretty); congruence.
Qed.

Lemma cache_key_not_fixed (instr : string) (n : Z) (key : string) :
  instr ∈ "bass"%string :: INSTRUMENT_LIST →
  key ∈ ["drum_kick"; "drum_snare"; "drum_hihat";
         "metronome_high"; "metronome_low"]%string →
  cache_key instr n ≠ key.
Proof.
  intros H1 H2 Hkey. unfold INSTRUMENT_LIST in *.
  repeat (apply elem_of_cons in H1 as [-> | H1]); [.. | inversion H1];
    (repeat (apply elem_of_cons in H2 as [-> | H2]); [.. | inversion H2]);
    cbv beta iota delta [cache_key String.append] in Hkey; discriminate Hkey.
Qed.

Ltac in_list :=
  solve [repeat (apply elem_of_cons; first [left; reflexivity | right])].

(** The entry under the key of a listed instrument is that instrument's
    tone, the entry under a bass key the bass tone. *)
Lemma cache_entry_key (instr : string) (n : Z) (sound : Sound) :
  instr ∈ "bass"%string :: INSTRUMENT_LIST →
  cache_entry (cache_key instr n) sound →
  (instr ∈ INSTRUMENT_LIST ∧ MIN_NOTE <= n <= MAX_NOTE
   ∧ sound = Tone (INSTRUMENTS !!! instr) n)
  ∨ (instr = "bass"%string ∧ 24 <= n <= 48 ∧ sound = BassTone n).
Proof.
  intros Hin [(i & m & Hi & Hm & Hkey & ->) | [(dt & Hdt & Hkey & _) |
             [(m & Hm & Hkey & ->) | [[Hkey _] | [Hkey _]]]]].
  - apply cache_key_inj in Hkey as [-> ->];
      [| exact Hin | apply elem_of_cons; right; exact Hi].
    left. auto.
  - destruct (cache_key_not_fixed instr n ("drum_" +:+ dt) Hin); [| exact Hkey].
    repeat (apply elem_of_cons in Hdt as [-> | Hdt]); [.. | inversion Hdt];
      cbv beta iota delta [String.append]; in_list.
  - apply cache_key_inj in Hkey as [-> ->]; [| exact Hin | in_list].
    right. auto.
  - destruct (cache_key_not_fixed instr n "metronome_high" Hin); [in_list | exact Hkey].
  - destruct (cache_key_not_fixed instr n "metronome_low" Hin); [in_list | exact Hkey].
Qed.

Hypothesis build_ok : ∀ snd, mixer_ok snd = true.

Lemma new_engine_bass (n : Z) :
  24 <= n <= 48 →
  is_Some (note_cache (new_engine true mixer_ok) !! cache_key "bass" n).
Proof.
  intros Hn. unfold new_engine.
  apply pregenerate_metronome_keeps.
  unfold _pregenerate_bass. cbn [negb audio_initialized].
  match goal with
  | |- context [if negb ?b then _ else _] => change b with true
  end.
  cbn [negb note_cache assign_note_cache].
  apply (foldl_store_hit (cache_key "bass") (_generate_bass_tone mixer_ok)).
  - unfold py_range. apply elem_of_seqZ. lia.
  - unfold _generate_bass_tone. rewrite build_ok. eauto.
Qed.

Lemma new_engine_tone (instr : string) (n : Z) :
  instr ∈ INSTRUMENT_LIST →
  note_cache (new_engine true mixer_ok) !! cache_key instr n
  = if decide (MIN_NOTE <= n <= MAX_NOTE)
    then Some (Tone (INSTRUMENTS !!! instr) n) else None.
Proof.
  intros Hin.
  assert (Hin' : instr ∈ "bass"%string :: INSTRUMENT_LIST)
    by (apply elem_of_cons; right; exact Hin).
  assert (Hnot : instr ≠ "bass"%string).
  { intros ->. unfold INSTRUMENT_LIST in Hin.
    repeat (apply elem_of_cons in Hin as [Hin | Hin]; [discriminate |]).
    inversion Hin. }
  destruct (note_cache (new_engine true mixer_ok) !! cache_key instr n)
    as [snd |] eqn:Hk.
  - apply new_engine_sound in Hk as [_ Hentry].
    apply cache_entry_key in Hentry as [(_ & Hn & ->) | (Hb & _)];
      [| contradiction | exact Hin'].
    rewrite decide_True by exact Hn. reflexivity.
  - destruct (decide (MIN_NOTE <= n <= MAX_NOTE)) as [Hn |]; [| reflexivity].
    destruct (new_engine_cache mixer_ok build_ok instr n Hin Hn) as [snd Hsnd].
    congruence.
Qed.

Lemma new_engine_bass_tone (n : Z) :
  note_cache (new_engine true mixer_ok) !! cache_key "bass" n
  = if decide (24 <= n <= 48) then Some (BassTone n) else None.
Proof.
  assert (Hin' : "bass"%string ∈ "bass"%string :: INSTRUMENT_LIST) by in_list.
  assert (Hnot : "bass"%string ∉ INSTRUMENT_LIST).
  { intros Hin. unfold INSTRUMENT_LIST in Hin.
    repeat (apply elem_of_cons in Hin as [Hin | Hin]; [discriminate |]).
    inversion Hin. }
  destruct (note_cache (new_engine true mixer_ok) !! cache_key "bass" n)
    as [snd |] eqn:Hk.
  - apply new_engine_sound in Hk as [_ Hentry].
    apply cache_entry_key in Hentry as [(Hb & _) | (_ & Hn & ->)];
      [contradiction | | exact Hin'].
    rewrite decide_True by exact Hn. reflexivity.
  - destruct (decide (24 <= n <= 48)) as [Hn |]; [| reflexivity].
    destruct (new_engine_bass n Hn) as [snd Hsnd]. congruence.
Qed.

(** X16: when every sound can be built, the cache of a new engine holds
    under the key of a listed instrument and a note exactly the tone of
    that instrument's waveform at that note for the notes from
    [MIN_NOTE] to [MAX_NOTE], and under a bass key exactly the bass tone
    of the note for the notes from 24 to 48; for every other note the
    lookup misses. *)
Theorem new_engine_cache_lookup (n : Z) :
  (∀ instr, instr ∈ INSTRUMENT_LIST →
     note_cache (new_engine true mixer_ok) !! cache_key instr n
     = if decide (MIN_NOTE <= n <= MAX_NOTE)
       then Some (Tone (INSTRUMENTS !!! instr) n) else None)
  ∧ note_cache (new_engine true mixer_ok) !! cache_key "bass" n
    = if decide (24 <= n <= 48) then Some (BassTone n) else None.
Proof.
  split; [intros instr; apply new_engine_tone | apply new_engine_bass_tone].
Qed.

End CacheContent.

Section Voices.

Import config music_engine.

(** With a mixer that cannot build drum sounds the tones are cached all
    the same. *)
Lemma new_engine_cache_sound_witness :
  let mixer_ok := fun snd => match snd with Drum _ => false | _ => true end in
  note_cache (new_engine true mixer_ok) !! "guitar_72" = Some (Tone "triangle" 72)
  ∧ note_cache (new_engine true mixer_ok) !! "drum_kick" = None
  ∧ cache_entry "guitar_72" (Tone "triangle" 72).
Proof.
  intros mixer_ok.
  assert (Hk : note_cache (new_engine true mixer_ok) !! "guitar_72"
               = Some (Tone "triangle" 72)) by (vm_compute; reflexivity).
  split; [exact Hk |]. split; [vm_compute; reflexivity |].
  apply (new_engine_cache_sound mixer_ok true "guitar_72" (Tone "triangle" 72) Hk).
Defined.

Lemma new_engine_cache_lookup_witness :
  let e := new_engine true (fun _ => true) in
  note_cache e !! cache_key "synth" 85 = None
  ∧ note_cache e !! cache_key "synth" 84 = Some (Tone "square" 84)
  ∧ note_cache e !! cache_key "bass" 23 = None.
Proof.
  intros e.
  destruct (new_engine_cache_lookup (fun _ => true) (fun _ => eq_refl) 85) as [H85 _].
  destruct (new_engine_cache_lookup (fun _ => true) (fun _ => eq_refl) 84) as [H84 _].
  destruct (new_engine_cache_lookup (fun _ => true) (fun _ => eq_refl) 23) as [_ H23].
  split; [| split].
  - apply (H85 "synth"%string). apply (bool_decide_unpack _). vm_compute. reflexivity.
  - apply (H84 "synth"%string). apply (bool_decide_unpack _). vm_compute. reflexivity.
  - exact H23.
Defined.

Lemma map_y_to_duration_returns (y height : Z) :
  height ≠ HEADER_HEIGHT → ∃ d, map_y_to_duration y height = Return d.
Proof.
  intros Hh. destruct (map_y_to_duration_eq y height Hh) as [-> _]. eauto.
Qed.

(** X17: with bass enabled on an engine that holds the cache of a
    successful build, [play_bass_note] does nothing before
    [bass_interval] has passed; after that, for every root, it plays the
    bass tone of note [root mod 12 + 24], which lies from 24 to 35, at
    volume 0.5, and notes the time. *)
Theorem play_bass_note_plays (mixer_ok : Sound → bool) (e : MusicEngine)
    (now : Q) (root : option Z) :
  (∀ snd, mixer_ok snd = true) →
  note_cache e = note_cache (new_engine true mixer_ok) →
  bass_enabled e = true → audio_initialized e = true →
  let bass_note := default (root_note e) root mod 12 + 24 in
  24 <= bass_note < 36
  ∧ ((now - last_bass_time e < bass_interval e)%Q → play_bass_note e now root = e)
  ∧ ((bass_interval e <= now - last_bass_time e)%Q →
     mixer (play_bass_note e now root) = mixer e ++ [(BassTone bass_note, 0.5%Q)]
     ∧ last_bass_time (play_bass_note e now root) = now).
Proof.
  intros Hok Hcache Hbass Hinit bass_note.
  assert (Hrange : 24 <= bass_note < 36).
  { subst bass_note.
    pose proof (Z.mod_pos_bound (default (root_note e) root) 12 ltac:(lia)). lia. }
  split; [exact Hrange |]. split.
  - intros Hsoon. unfold play_bass_note. rewrite Hbass, Hinit. cbn [negb orb].
    apply Qltb_lt in Hsoon. rewrite Hsoon. reflexivity.
  - intros Hdue. split.
    + rewrite (play_bass_note_voice e now root Hbass Hinit Hdue).
      fold bass_note. rewrite Hcache.
      rewrite (new_engine_bass_tone mixer_ok Hok bass_note).
      rewrite decide_True by lia. reflexivity.
    + unfold play_bass_note. rewrite Hbass, Hinit. cbn [negb orb].
      apply Qltb_ge in Hdue. rewrite Hdue.
      destruct (note_cache e !! _); reflexivity.
Qed.

Lemma play_bass_note_plays_witness :
  let e := set_bass_enabled (new_engine true (fun _ => true)) true in
  24 <= 45 mod 12 + 24 < 36
  ∧ mixer (play_bass_note e 2 (Some 45)) = [(BassTone 33, 0.5%Q)]
  ∧ play_bass_note e 0.3 (Some 45) = e.
Proof.
  intros e.
  destruct (play_bass_note_plays (fun _ => true) e 2 (Some 45)
              (fun _ => eq_refl) eq_refl eq_refl eq_refl) as (Hr & _ & Hdue).
  destruct (play_bass_note_plays (fun _ => true) e 0.3 (Some 45)
              (fun _ => eq_refl) eq_refl eq_refl eq_refl) as (_ & Hsoon & _).
  split; [exact Hr |]. split.
  - apply Hdue. vm_compute. discriminate.
  - apply Hsoon. vm_compute. reflexivity.
Defined.

(** X18: on an enabled engine with the cache of a successful build, a
    listed instrument and the default root, a [play_note] call inside
    the canvas, at least [min_note_interval] and 0.2 s after the last
    note, returns normally, plays the tone of the current instrument's
    waveform at the quantised note with volume velocity/127, and makes
    that note and that time the last ones. *)
Theorem play_note_plays (mixer_ok : Sound → bool) (e : MusicEngine) (now : Q)
    (x y thickness width height : Z) :
  (∀ snd, mixer_ok snd = true) →
  note_cache e = note_cache (new_engine true mixer_ok) →
  is_playing e = true → audio_initialized e = true →
  current_instrument e ∈ INSTRUMENT_LIST → root_note e = DEFAULT_ROOT →
  0 <= x < width → height ≠ HEADER_HEIGHT →
  (min_note_interval e <= now - last_note_time e)%Q →
  (0.2 <= now - last_note_time e)%Q →
  ∃ raw e',
    let note := quantize_to_scale raw (scale_type e) DEFAULT_ROOT in
    map_x_to_note x width = Return raw
    ∧ play_note e now x y thickness width height = (e', Return ())
    ∧ plays e e' [(Tone (INSTRUMENTS !!! current_instrument e) note,
                   (inject_Z (map_thickness_to_volume thickness) / 127)%Q)]
    ∧ last_note e' = note ∧ last_note_time e' = now.
Proof.
  intros Hok Hcache Hplay Hinit Hinstr Hroot Hx Hh Hint Hlate.
  destruct (map_x_to_note_range x width Hx) as (raw & Hraw & Hrange).
  destruct (map_y_to_duration_returns y height Hh) as (d & Hd).
  pose proof (quantize_to_scale_range raw (scale_type e) Hrange) as Hq.
  pose proof (new_engine_tone mixer_ok Hok (current_instrument e)
                (quantize_to_scale raw (scale_type e) DEFAULT_ROOT) Hinstr) as Hsound.
  rewrite decide_True in Hsound by lia.
  exists raw. eexists. cbv zeta.
  split; [exact Hraw |].
  unfold play_note. rewrite Hplay, Hinit, Hraw, Hd, Hroot, Hcache, Hsound.
  cbn [negb orb].
  apply Qltb_ge in Hint, Hlate. rewrite Hint, Hlate, andb_false_r.
  split; [reflexivity |].
  match goal with
  | |- context [record_note ?e1 now ?n ?v d x y] =>
      destruct (record_note_fields e1 now n v d x y) as (Hm & Hl & Ht & _)
  end.
  cbv zeta in Hm, Hl, Ht. unfold plays. rewrite Hm, Hl, Ht.
  repeat split.
Qed.

Lemma play_note_plays_witness :
  let e := new_engine true (fun _ => true) in
  INSTRUMENTS !!! current_instrument e = "sine"%string
  ∧ map_thickness_to_volume 30 = 127
  ∧ ∃ raw e',
      map_x_to_note 500 640 = Return raw
      ∧ play_note e 1 500 700 30 640 480 = (e', Return ())
      ∧ plays e e'
          [(Tone (INSTRUMENTS !!! current_instrument e)
              (quantize_to_scale raw (scale_type e) DEFAULT_ROOT),
            (inject_Z (map_thickness_to_volume 30) / 127)%Q)].
Proof.
  intros e.
  split; [vm_compute; reflexivity |]. split; [vm_compute; reflexivity |].
  destruct (play_note_plays (fun _ => true) e 1 500 700 30 640 480)
    as (raw & e' & Hraw & Hcall & Hplays & _).
  - intros snd. reflexivity.
  - reflexivity.
  - reflexivity.
  - reflexivity.
  - apply (bool_decide_unpack _). vm_compute. reflexivity.
  - reflexivity.
  - lia.
  - discriminate.
  - vm_compute. discriminate.
  - vm_compute. discriminate.
  - exists raw, e'. split; [exact Hraw |]. split; [exact Hcall | exact Hplays].
Defined.

End Voices.

Section Generators.

Import config project_model sequencer.

(** *** Sorting *)

Lemma insert_by_perm {A : Type} (le : A → A → bool) (a : A) (l : list A) :
  insert_by le a l ≡ₚ a :: l.
Proof.
  induction l as [|b l IH]; simpl; [reflexivity |].
  destruct (le a b); [reflexivity |].
  rewrite IH. apply Permutation_swap.
Qed.

Lemma py_sort_perm {A : Type} (le : A → A → bool) (l : list A) :
  py_sort le l ≡ₚ l.
Proof.
  induction l as [|a l IH]; simpl; [reflexivity |].
  rewrite insert_by_perm. fold (py_sort le l). rewrite IH. reflexivity.
Qed.

Lemma insert_by_time_sorted {A : Type} (key : A → Q) (a : A) (l : list A) :
  StronglySorted (fun p q => (key p <= key q)%Q) l →
  StronglySorted (fun p q => (key p <= key q)%Q)
    (insert_by (fun p q => Qle_bool (key p) (key q)) a l).
Proof.
  induction l as [|b l IH]; intros Hl; simpl.
  - repeat constructor.
  - apply StronglySorted_inv in Hl as [Hl Hb].
    destruct (Qle_bool (key a) (key b)) eqn:Hab.
    + apply Qle_bool_iff in Hab.
      constructor; [constructor; assumption |].
      constructor; [exact Hab |].
      eapply Forall_impl; [exact Hb |].
      intros c Hc. simpl in Hc. exact (Qle_trans _ _ _ Hab Hc).
    + assert (Hba : (key b <= key a)%Q).
      { apply Qlt_le_weak, Qnot_le_lt. intros H.
        apply Qle_bool_iff in H. congruence. }
      constructor; [apply IH, Hl |].
      rewrite Forall_forall. intros c Hc.
      rewrite insert_by_perm in Hc.
      apply elem_of_cons in Hc as [-> | Hc]; [exact Hba |].
      rewrite Forall_forall in Hb. apply Hb, Hc.
Qed.

Lemma py_sort_time_sorted {A : Type} (key : A → Q) (l : list A) :
  StronglySorted (fun p q => (key p <= key q)%Q)
    (py_sort (fun p q => Qle_bool (key p) (key q)) l).
Proof.
  induction l as [|a l IH]; simpl; [constructor |].
  apply insert_by_time_sorted, IH.
Qed.

(** *** When the generators raise *)





(** Other exceptions come from the floats: a point at abscissa [10^400]
    overflows the division by the scan width. *)
Example generate_scan_events_overflow :
  generate_scan_events
    (set_project new_sequencer
       {| name := "far"; project_model.bpm := 120;
          project_model.quantize := "1/8"; scale := "pentatonic";
          root_note := 60; width := 640; height := 480;
          strokes := [ {| project_model.instrument := "piano";
                          color := (0, 0, 0);
                          points := [ {| project_model.x := 10 ^ 400;
                                         project_model.y := 100;
                                         t := 0; thickness := 10 |} ];
                          start_t := 0; end_t := 0; stroke_id := "s" |} ];
          created_at := "2026-01-01T12:00:00";
          project_model.duration := 0 |})
  = Raise OverflowError.
Proof. vm_compute. reflexivity. Qed.

(** *** Scan events by position *)

Lemma scan_step_spaced (s : Sequencer) (proj : Project) (all : list ScanPoint)
    (beat : Q) (min_x_gap : Z) (st st' : scan_state) (p : ScanPoint) :
  beat_duration s = Return beat →
  scan_step s proj beat min_x_gap st p = Return st' →
  p ∈ all →
  Sorted (spaced min_x_gap) st.1.1 →
  Forall (fun e => ∃ q, q ∈ all ∧ event_of_point s q e) st.1.1 →
  (∀ e, last st.1.1 = Some e → x e = st.2 ∧ x e <= p_x p) →
  Sorted (spaced min_x_gap) st'.1.1
  ∧ Forall (fun e => ∃ q, q ∈ all ∧ event_of_point s q e) st'.1.1
  ∧ (∀ e, last st'.1.1 = Some e → x e = st'.2 ∧ x e <= p_x p).
Proof.
  destruct st as [[events last_note] last_x]. unfold scan_step.
  intros Hbeat Hstep Hp Hsorted Hfrom Hlast. cbn [fst snd] in *.
  destruct ((0 <=? last_x) && (Z.abs (p_x p - last_x) <? min_x_gap)) eqn:Hskip.
  { injection Hstep as <-. auto. }
  destruct (int_truediv _ _) as [share |]; [| discriminate].
  cbn [mbind result_bind rbind] in Hstep.
  destruct (quantize_time _ _ _) as [t |]; [| discriminate].
  cbn [mbind result_bind rbind] in Hstep.
  destruct (map_x_to_note _ _) as [raw |]; [| discriminate].
  cbn [mbind result_bind rbind] in Hstep.
  destruct (_ && _) in Hstep; injection Hstep as <-; [auto |].
  cbn [fst snd]. split; [| split].
  - apply Sorted_snoc; [exact Hsorted |].
    intros b Hb. destruct (Hlast b Hb) as [Hbx Hle].
    unfold spaced. cbn [x]. split; [exact Hle |].
    intros Hpos. apply andb_false_iff in Hskip as [Hneg | Hfar].
    + apply Z.leb_gt in Hneg. lia.
    + apply Z.ltb_ge in Hfar. lia.
  - apply Forall_app. split; [exact Hfrom |].
    apply Forall_singleton. exists p. split; [exact Hp |].
    repeat split. exists beat. split; [exact Hbeat | reflexivity].
  - intros e He. rewrite last_snoc in He. injection He as <-. cbn. lia.
Qed.

Lemma scan_loop_spaced (s : Sequencer) (proj : Project) (all : list ScanPoint)
    (beat : Q) (min_x_gap : Z) (all_points : list ScanPoint) :
  ∀ st st' : scan_state,
  beat_duration s = Return beat →
  scan_loop s proj beat min_x_gap all_points st = Return st' →
  (∀ p, p ∈ all_points → p ∈ all) →
  StronglySorted (fun p q => p_x p <= p_x q) all_points →
  Sorted (spaced min_x_gap) st.1.1 →
  Forall (fun e => ∃ q, q ∈ all ∧ event_of_point s q e) st.1.1 →
  (∀ e, last st.1.1 = Some e →
        x e = st.2 ∧ Forall (fun p => x e <= p_x p) all_points) →
  Sorted (spaced min_x_gap) st'.1.1
  ∧ Forall (fun e => ∃ q, q ∈ all ∧ event_of_point s q e) st'.1.1.
Proof.
  induction all_points as [|p rest IH];
    intros st st' Hbeat Hloop Hall Hpts Hsorted Hfrom Hlast; simpl in Hloop.
  { injection Hloop as <-. auto. }
  destruct (scan_step s proj _ min_x_gap st p) as [st1 |] eqn:Hstep;
    [| discriminate].
  cbn [mbind result_bind rbind] in Hloop.
  apply StronglySorted_inv in Hpts as [Hrest Hp].
  destruct (scan_step_spaced s proj all beat min_x_gap st st1 p Hbeat Hstep)
    as (Hsorted1 & Hfrom1 & Hlast1); try assumption.
  { apply Hall, elem_of_cons. auto. }
  { intros e He. destruct (Hlast e He) as [Hx Hbound].
    apply Forall_cons in Hbound as [Hxp _]. auto. }
  apply (IH st1 st' Hbeat Hloop); try assumption.
  - intros q Hq. apply Hall, elem_of_cons. auto.
  - intros e He. destruct (Hlast1 e He) as [Hx Hle]. split; [exact Hx |].
    eapply Forall_impl; [exact Hp |]. intros q Hq. simpl in Hq. lia.
Qed.

(** X20: in a list that [generate_scan_events] returns, every event
    comes from a point of the project, with its position, its stroke's
    instrument, the velocity of its thickness and half a beat as
    duration; positions do not decrease along the list, and an event at
    a non-negative position is followed by one at least
    [scan_width // 32] further right. *)
Theorem generate_scan_events_spaced (s : Sequencer) (proj : Project)
    (events : list SequenceEvent) :
  project s = Some proj →
  generate_scan_events s = Return events →
  Sorted (spaced (scan_width s / 32)) events
  ∧ Forall (fun e => ∃ p, p ∈ collect_points (strokes proj)
                          ∧ event_of_point s p e
                          ∧ MIN_VOLUME <= velocity e <= MAX_VOLUME) events.
Proof.
  intros Hproj Hgen. unfold generate_scan_events in Hgen. rewrite Hproj in Hgen.
  destruct (strokes proj) as [|stroke rest] eqn:Hstrokes.
  { injection Hgen as <-. split; constructor. }
  destruct (beat_duration s) as [beat |] eqn:Hbeat; [| discriminate].
  cbn [mbind result_bind rbind] in Hgen.
  destruct (scan_loop _ _ _ _ _ _) as [st |] eqn:Hloop; [| discriminate].
  cbn [mbind result_bind rbind] in Hgen. injection Hgen as <-.
  destruct (scan_loop_spaced s proj (collect_points (stroke :: rest)) beat
              (scan_width s / 32) _ _ _ Hbeat Hloop) as [Hsorted Hfrom].
  - intros p Hp. rewrite py_sort_perm in Hp. exact Hp.
  - apply (py_sort_key_sorted p_x).
  - constructor.
  - constructor.
  - intros e He. discriminate.
  - split; [exact Hsorted |].
    eapply Forall_impl; [exact Hfrom |].
    intros e (p & Hp & Hev). exists p. split; [exact Hp |]. split; [exact Hev |].
    destruct Hev as (_ & _ & _ & -> & _). apply map_thickness_to_volume_bounds.
Qed.

Lemma generate_scan_events_spaced_witness :
  let s := set_project new_sequencer one_stroke_project in
  ∃ events,
    generate_scan_events s = Return events
    ∧ map x events = [40; 320; 600]
    ∧ Sorted (spaced 20) events.
Proof.
  intros s.
  destruct (generate_scan_events s) as [events |] eqn:Hgen;
    [| vm_compute in Hgen; discriminate].
  exists events. split; [reflexivity |].
  split; [vm_compute in Hgen; injection Hgen as <-; reflexivity |].
  exact (proj1 (generate_scan_events_spaced s one_stroke_project events eq_refl Hgen)).
Defined.

(** *** Timeline events *)

Lemma sample_step (i k : Z) :
  0 <= i → 0 < k →
  (i + 1 + k - 1) / k
  = (i + k - 1) / k + (if i mod k =? 0 then 1 else 0).
Proof.
  intros Hi Hk.
  pose proof (Z.div_mod i k ltac:(lia)) as Hdm.
  pose proof (Z.mod_pos_bound i k Hk) as Hr.
  replace (i + 1 + k - 1) with (i + k) by lia.
  rewrite <- (Z.div_unique_pos (i + k) k (i / k + 1) (i mod k)) by lia.
  destruct (Z.eqb_spec (i mod k) 0) as [H0 | Hne].
  - rewrite <- (Z.div_unique_pos (i + k - 1) k (i / k) (k - 1)) by lia. lia.
  - rewrite <- (Z.div_unique_pos (i + k - 1) k (i / k + 1) (i mod k - 1)) by lia. lia.
Qed.

Lemma samples_from_length (k : Z) (pts : list Point) : ∀ i : nat,
  0 < k →
  Z.of_nat (length (samples_from k i pts))
  = (Z.of_nat i + Z.of_nat (length pts) + k - 1) / k - (Z.of_nat i + k - 1) / k.
Proof.
  induction pts as [|point rest IH]; intros i Hk.
  { cbn [samples_from length seq zip zip_with omap list_omap].
    change (Z.of_nat 0) with 0. rewrite Z.add_0_r. lia. }
  unfold samples_from in *. cbn [length seq zip zip_with omap list_omap fst snd].
  pose proof (sample_step (Z.of_nat i) k ltac:(lia) Hk) as Hstep.
  specialize (IH (S i) Hk).
  replace (Z.of_nat i + Z.of_nat (S (length rest)) + k - 1)
    with (Z.of_nat (S i) + Z.of_nat (length rest) + k - 1) by lia.
  replace (Z.of_nat (S i) + k - 1) with (Z.of_nat i + 1 + k - 1) in IH by lia.
  destruct (Z.of_nat i mod k =? 0); cbn [length]; lia.
Qed.

Lemma samples_from_all (pts : list Point) : ∀ i : nat, samples_from 1 i pts = pts.
Proof.
  induction pts as [|point rest IH]; intros i; [reflexivity |].
  unfold samples_from in *. cbn [length seq zip zip_with omap list_omap fst snd].
  rewrite Z.mod_1_r. cbn [Z.eqb]. f_equal. apply IH.
Qed.

Lemma sampled_count_bounds (n : Z) :
  0 <= n → Z.min n 8 <= sampled_count n <= Z.min n 15.
Proof.
  intros Hn. unfold sampled_count.
  destruct (Z.le_gt_cases 8 n) as [Hbig | Hsmall].
  - assert (Hk : 1 <= n / 8) by (apply Z.div_le_lower_bound; lia).
    rewrite Z.max_r by lia.
    pose proof (Z.div_mod n 8 ltac:(lia)) as Hdm.
    pose proof (Z.mod_pos_bound n 8 ltac:(lia)) as Hm.
    set (k := n / 8) in *.
    assert (Hlo : 8 <= (n + k - 1) / k) by (apply Z.div_le_lower_bound; nia).
    assert (Hhi : (n + k - 1) / k < 16) by (apply Z.div_lt_upper_bound; nia).
    assert (Hle : (n + k - 1) / k <= n).
    { apply Z.lt_succ_r, Z.div_lt_upper_bound; nia. }
    lia.
  - rewrite (Z.div_small n 8) by lia. rewrite Z.max_l by lia.
    replace (n + 1 - 1) with n by lia. rewrite Z.div_1_r. lia.
Qed.

Lemma sampled_length (pts : list Point) :
  Z.of_nat (length (sampled pts)) = sampled_count (Z.of_nat (length pts)).
Proof.
  unfold sampled, sampled_count.
  set (k := Z.max 1 (Z.of_nat (length pts) / 8)).
  change (omap _ _) with (samples_from k 0 pts).
  rewrite samples_from_length by lia.
  change (Z.of_nat 0) with 0.
  replace ((0 + k - 1) / k) with 0 by (symmetry; apply Z.div_small; lia).
  replace (0 + Z.of_nat (length pts) + k - 1)
    with (Z.of_nat (length pts) + k - 1) by lia.
  lia.
Qed.

Lemma timeline_stroke_samples (s : Sequencer) (proj : Project) (beat : Q)
    (stroke : Stroke) (k : Z) (pts : list Point) :
  ∀ (i : nat) (events events' : list SequenceEvent),
  beat_duration s = Return beat →
  timeline_stroke s proj beat stroke k (Z.of_nat i) pts events = Return events' →
  ∃ new,
    events' = events ++ new
    ∧ Forall2 (event_of_sample s proj stroke) (samples_from k i pts) new.
Proof.
  induction pts as [|point rest IH]; intros i events events' Hbeat Hrun;
    simpl in Hrun.
  { injection Hrun as <-. exists []. rewrite app_nil_r. split; [reflexivity | constructor]. }
  unfold samples_from. cbn [length seq zip zip_with omap list_omap fst snd].
  fold (samples_from k (S i) rest).
  replace (Z.of_nat i + 1) with (Z.of_nat (S i)) in Hrun by lia.
  destruct (Z.eqb_spec (Z.of_nat i mod k) 0) as [H0 | Hne]; cbn [negb] in Hrun.
  - destruct (quantize_time _ _ _) as [t |] eqn:Ht; [| discriminate].
    cbn [mbind result_bind rbind] in Hrun.
    destruct (map_x_to_note _ _) as [raw |] eqn:Hraw; [| discriminate].
    cbn [mbind result_bind rbind] in Hrun.
    destruct (IH (S i) _ _ Hbeat Hrun) as (new & -> & Hnew).
    eexists (_ :: new). split; [rewrite <- app_assoc; reflexivity |].
    constructor; [| exact Hnew].
    unfold event_of_sample. cbn.
    split; [exact Ht |]. split; [exists raw; split; [exact Hraw | reflexivity] |].
    split; [reflexivity |].
    split; [exists beat; split; [exact Hbeat | reflexivity] |].
    repeat split.
  - exact (IH (S i) _ _ Hbeat Hrun).
Qed.

Lemma timeline_loop_samples (s : Sequencer) (proj : Project) (beat : Q)
    (strokes : list Stroke) : ∀ events events' : list SequenceEvent,
  beat_duration s = Return beat →
  timeline_loop s proj beat strokes events = Return events' →
  ∃ new,
    events' = events ++ new
    ∧ Forall2 (fun sp e => event_of_sample s proj sp.1 sp.2 e)
        (flat_map (fun stroke => map (pair stroke) (sampled (points stroke)))
                  strokes)
        new.
Proof.
  induction strokes as [|stroke rest IH]; intros events events' Hbeat Hrun;
    simpl in Hrun.
  { injection Hrun as <-. exists []. rewrite app_nil_r. split; [reflexivity | constructor]. }
  destruct (timeline_stroke _ _ _ _ _ _ _ _) as [events1 |] eqn:Hstroke;
    [| discriminate].
  cbn [mbind result_bind rbind] in Hrun.
  apply (timeline_stroke_samples s proj beat stroke _ _ 0%nat) in Hstroke
    as (new1 & -> & Hnew1); [| exact Hbeat].
  destruct (IH _ _ Hbeat Hrun) as (new2 & -> & Hnew2).
  exists (new1 ++ new2). split; [rewrite app_assoc; reflexivity |].
  cbn [flat_map]. apply Forall2_app; [| exact Hnew2].
  apply Forall2_fmap_l. exact Hnew1.
Qed.

(** X21: a list that [generate_timeline_events] returns is sorted by
    time and is a rearrangement of one event for each sampled point of
    each stroke, in the order of the strokes and of their points: the
    event carries the quantised time of the point, the quantised note
    of its abscissa, the velocity of its thickness, half a beat as
    duration, the instrument of the stroke and the position of the
    point.  The sampled points of a stroke of [n] points are those at
    the multiples of [max(1, n // 8)]: every point of a stroke of up to
    15 points, and between 8 and 15 points of a longer stroke. *)
Theorem generate_timeline_events_sampled (s : Sequencer) (proj : Project)
    (events : list SequenceEvent) :
  project s = Some proj →
  generate_timeline_events s = Return events →
  StronglySorted (fun e1 e2 => (time e1 <= time e2)%Q) events
  ∧ (∃ unsorted,
       events ≡ₚ unsorted
       ∧ Forall2 (fun sp e => event_of_sample s proj sp.1 sp.2 e)
           (flat_map (fun stroke => map (pair stroke) (sampled (points stroke)))
                     (strokes proj))
           unsorted)
  ∧ Forall (fun stroke =>
              let n := Z.of_nat (length (points stroke)) in
              Z.of_nat (length (sampled (points stroke))) = sampled_count n
              ∧ Z.min n 8 <= sampled_count n <= Z.min n 15
              ∧ (n <= 15 → sampled (points stroke) = points stroke))
      (strokes proj).
Proof.
  intros Hproj Hgen.
  assert (Hcounts : Forall (fun stroke =>
              let n := Z.of_nat (length (points stroke)) in
              Z.of_nat (length (sampled (points stroke))) = sampled_count n
              ∧ Z.min n 8 <= sampled_count n <= Z.min n 15
              ∧ (n <= 15 → sampled (points stroke) = points stroke))
            (strokes proj)).
  { apply Forall_forall. intros stroke _. cbv zeta.
    split; [apply sampled_length |].
    split; [apply sampled_count_bounds; lia |].
    intros Hsmall. unfold sampled.
    assert (Hk : Z.of_nat (length (points stroke)) / 8 <= 1)
      by (apply Z.lt_succ_r, Z.div_lt_upper_bound; lia).
    rewrite Z.max_l by lia. apply (samples_from_all _ 0%nat). }
  unfold generate_timeline_events in Hgen. rewrite Hproj in Hgen.
  destruct (strokes proj) as [|stroke rest] eqn:Hstrokes.
  { injection Hgen as <-. split; [constructor |].
    split; [exists []; split; [reflexivity | constructor] | constructor]. }
  destruct (beat_duration s) as [beat |] eqn:Hbeat; [| discriminate].
  cbn [mbind result_bind rbind] in Hgen.
  destruct (timeline_loop _ _ _ _ _) as [unsorted |] eqn:Hloop; [| discriminate].
  cbn [mbind result_bind rbind] in Hgen. injection Hgen as <-.
  split; [apply (py_sort_time_sorted time) |].
  split; [| exact Hcounts].
  exists unsorted. split; [apply py_sort_perm |].
  destruct (timeline_loop_samples s proj beat _ _ _ Hbeat Hloop) as (new & -> & Hnew).
  exact Hnew.
Qed.

(** A stroke of sixteen points is sampled at every second point. *)
Lemma generate_timeline_events_sampled_witness :
  let s := set_project new_sequencer long_stroke_project in
  ∃ events,
    generate_timeline_events s = Return events
    ∧ map (fun e => (x e, time e)) events
      = [ (0, 0%Q); (80, 0%Q); (160, 1 # 4); (240, 1 # 4); (320, 1 # 4);
          (400, 1 # 2); (480, 1 # 2); (560, 1 # 2) ]
    ∧ StronglySorted (fun e1 e2 => (time e1 <= time e2)%Q) events
    ∧ Forall (fun stroke =>
                Z.of_nat (length (sampled (points stroke))) = 8)
        (strokes long_stroke_project).
Proof.
  intros s.
  destruct (generate_timeline_events s) as [events |] eqn:Hgen;
    [| vm_compute in Hgen; discriminate].
  exists events. split; [reflexivity |].
  split; [vm_compute in Hgen; injection Hgen as <-; reflexivity |].
  destruct (generate_timeline_events_sampled s long_stroke_project events eq_refl Hgen)
    as (Hsorted & _ & Hcounts).
  split; [exact Hsorted |].
  apply Forall_singleton. vm_compute. reflexivity.
Defined.

End Generators.

Section Playback.

Import config project_model sequencer.

(** *** Triggering events *)

Lemma with_self_id (pb : Playback) :
  with_self (assign_event_index (event_index (self pb)) (self pb)) pb = pb.
Proof. destruct pb as [[] e f1 f2 f3 c t]. reflexivity. Qed.

Lemma trigger_with_self (s : Sequencer) (pb : Playback) (event : SequenceEvent) :
  _trigger_event (with_self s pb) event = with_self s (_trigger_event pb event).
Proof.
  unfold _trigger_event, call_back. destruct pb as [s0 [e |] f1 f2 f3 c t]; simpl.
  - destruct (decide _); destruct (_ !! _); destruct f1; reflexivity.
  - destruct f1; reflexivity.
Qed.

Lemma foldl_trigger_with_self (s : Sequencer) (l : list SequenceEvent) :
  ∀ pb, foldl _trigger_event (with_self s pb) l
        = with_self s (foldl _trigger_event pb l).
Proof.
  induction l as [|event l IH]; intros pb; simpl; [reflexivity |].
  rewrite trigger_with_self. apply IH.
Qed.

Lemma trigger_keeps (pb : Playback) (event : SequenceEvent) :
  self (_trigger_event pb event) = self pb
  ∧ on_note_play (_trigger_event pb event) = on_note_play pb
  ∧ on_scan_position (_trigger_event pb event) = on_scan_position pb
  ∧ on_playback_end (_trigger_event pb event) = on_playback_end pb
  ∧ start_time (_trigger_event pb event) = start_time pb
  ∧ called (_trigger_event pb event)
    = called pb ++ (if on_note_play pb then [OnNotePlay event] else []).
Proof.
  unfold _trigger_event, call_back. destruct pb as [s0 [e |] f1 f2 f3 c t]; simpl.
  - destruct (decide _); destruct (_ !! _); destruct f1; simpl;
      rewrite ?app_nil_r; repeat split.
  - destruct f1; simpl; rewrite ?app_nil_r; repeat split.
Qed.

Lemma foldl_trigger_keeps (l : list SequenceEvent) : ∀ pb,
  self (foldl _trigger_event pb l) = self pb
  ∧ on_note_play (foldl _trigger_event pb l) = on_note_play pb
  ∧ on_scan_position (foldl _trigger_event pb l) = on_scan_position pb
  ∧ on_playback_end (foldl _trigger_event pb l) = on_playback_end pb
  ∧ start_time (foldl _trigger_event pb l) = start_time pb
  ∧ called (foldl _trigger_event pb l)
    = called pb ++ (if on_note_play pb then map OnNotePlay l else []).
Proof.
  induction l as [|event l IH]; intros pb; simpl.
  - destruct (on_note_play pb); rewrite app_nil_r; repeat split.
  - destruct (IH (_trigger_event pb event)) as (Hs & H1 & H2 & H3 & Ht & Hc).
    destruct (trigger_keeps pb event) as (Hs' & H1' & H2' & H3' & Ht' & Hc').
    rewrite Hs, H1, H2, H3, Ht, Hc, Hs', H1', H2', H3', Ht', Hc'.
    repeat split. destruct (on_note_play pb); simpl.
    + rewrite <- app_assoc. reflexivity.
    + rewrite !app_nil_r. reflexivity.
Qed.

(** *** The inner loop *)

Lemma py_index_nonneg {A : Type} (l : list A) (i : Z) :
  0 <= i → py_index l i = l !! Z.to_nat i.
Proof.
  intros Hi. unfold py_index.
  destruct (Z.leb_spec 0 i); [reflexivity | lia].
Qed.

Lemma dispatch_events_spec (fuel : nat) : ∀ pb : Playback,
  0 <= event_index (self pb) → (events_left (self pb) <= fuel)%nat →
  dispatch_events fuel pb
  = (let due := due_prefix (current_time (self pb))
                  (drop (Z.to_nat (event_index (self pb))) (events (self pb))) in
     with_self (assign_event_index
                  (event_index (self pb) + Z.of_nat (length due)) (self pb))
       (foldl _trigger_event pb due),
     None).
Proof.
  assert (Hnone : ∀ pb : Playback,
            0 <= event_index (self pb) →
            ¬ event_index (self pb) < Z.of_nat (length (events (self pb))) →
            (pb, @None thread_exn)
            = (let due := due_prefix (current_time (self pb))
                            (drop (Z.to_nat (event_index (self pb)))
                                  (events (self pb))) in
               with_self (assign_event_index
                            (event_index (self pb) + Z.of_nat (length due))
                            (self pb))
                 (foldl _trigger_event pb due),
               None)).
  { intros pb H0 Hend. rewrite drop_ge by lia. cbn [due_prefix length foldl].
    change (Z.of_nat 0) with 0. rewrite Z.add_0_r, with_self_id. reflexivity. }
  induction fuel as [|fuel IH]; intros pb H0 Hfuel.
  { cbn [dispatch_events]. apply Hnone; [exact H0 |].
    unfold events_left in Hfuel. lia. }
  cbn [dispatch_events].
  destruct (Z.ltb_spec (event_index (self pb)) (Z.of_nat (length (events (self pb)))))
    as [Hlt | Hge]; [| apply Hnone; [exact H0 | lia]].
  rewrite py_index_nonneg by exact H0.
  destruct (lookup_lt_is_Some_2 (events (self pb)) (Z.to_nat (event_index (self pb))))
    as [event Hev]; [lia |].
  rewrite Hev, (drop_S _ _ _ Hev). cbn [due_prefix].
  destruct (Qle_bool (time event) (current_time (self pb))) eqn:Hdue.
  - destruct (trigger_keeps pb event) as (Hs & _).
    rewrite Hs, IH.
    + cbn [self with_self event_index assign_event_index events current_time].
      replace (Z.to_nat (event_index (self pb) + 1))
        with (S (Z.to_nat (event_index (self pb)))) by lia.
      cbn [length foldl]. rewrite foldl_trigger_with_self.
      f_equal. unfold with_self, assign_event_index. cbn. f_equal. f_equal. lia.
    + cbn. lia.
    + unfold events_left in *. cbn. lia.
  - cbn [length foldl]. change (Z.of_nat 0) with 0.
    rewrite Z.add_0_r, with_self_id. reflexivity.
Qed.

Lemma due_prefix_spec (t : Q) (l : list SequenceEvent) :
  ∃ rest, l = due_prefix t l ++ rest
          ∧ Forall (fun event => (time event <= t)%Q) (due_prefix t l)
          ∧ (∀ event, head rest = Some event → (t < time event)%Q).
Proof.
  induction l as [|event l (rest & Hl & Hdue & Hnext)]; simpl.
  - exists []. repeat split; [constructor | discriminate].
  - destruct (Qle_bool (time event) t) eqn:Hle.
    + exists rest. split; [simpl; congruence |]. split.
      * constructor; [apply Qle_bool_iff, Hle | exact Hdue].
      * exact Hnext.
    + exists (event :: l). split; [reflexivity |]. split; [constructor |].
      intros e [= <-]. apply Qnot_le_lt. intros H.
      apply Qle_bool_iff in H. congruence.
Qed.

Lemma call_back_keeps (is_set : bool) (c : callback) (pb : Playback) :
  self (call_back is_set c pb) = self pb
  ∧ engine (call_back is_set c pb) = engine pb
  ∧ on_note_play (call_back is_set c pb) = on_note_play pb
  ∧ on_scan_position (call_back is_set c pb) = on_scan_position pb
  ∧ on_playback_end (call_back is_set c pb) = on_playback_end pb
  ∧ start_time (call_back is_set c pb) = start_time pb
  ∧ called (call_back is_set c pb) = called pb ++ (if is_set then [c] else []).
Proof. destruct is_set; simpl; rewrite ?app_nil_r; repeat split. Qed.

Lemma trigger_engine (pb pb' : Playback) (event : SequenceEvent) :
  engine pb = engine pb' →
  engine (_trigger_event pb event) = engine (_trigger_event pb' event).
Proof.
  destruct pb as [s [e |] f1 f2 f3 c t], pb' as [s' [e' |] f1' f2' f3' c' t'];
    simpl; intros He; try discriminate.
  - injection He as <-. unfold _trigger_event, call_back. simpl.
    destruct (decide _); destruct (_ !! _); destruct f1, f1'; reflexivity.
  - unfold _trigger_event, call_back. simpl. destruct f1, f1'; reflexivity.
Qed.

Lemma foldl_trigger_engine (l : list SequenceEvent) : ∀ pb pb' : Playback,
  engine pb = engine pb' →
  engine (foldl _trigger_event pb l) = engine (foldl _trigger_event pb' l).
Proof.
  induction l as [|event l IH]; intros pb pb' He; simpl; [exact He |].
  apply IH, trigger_engine, He.
Qed.

Lemma notes_called_app (c1 c2 : list callback) :
  notes_called (c1 ++ c2) = notes_called c1 ++ notes_called c2.
Proof. apply omap_app. Qed.

Lemma notes_called_notes (l : list SequenceEvent) :
  notes_called (map OnNotePlay l) = l.
Proof. induction l as [|event l IH]; simpl; [reflexivity |]. f_equal. exact IH. Qed.

Lemma notes_called_back (is_set : bool) (c : callback) (pb : Playback) :
  notes_called (called (call_back is_set c pb))
  = notes_called (called pb)
    ++ (if is_set then notes_called [c] else []).
Proof.
  destruct is_set; simpl; [apply notes_called_app | symmetry; apply app_nil_r].
Qed.

(** *** The blocks of the loop body *)

Lemma update_scan_position_raises (pb : Playback) (e : exn) :
  update_scan_position pb = Raise e →
  e = ZeroDivisionError ∧ mode (self pb) = SCAN ∧ scan_duration (self pb) == 0.
Proof.
  unfold update_scan_position. destruct (mode (self pb)); [| discriminate].
  destruct (Qeq_bool _ _) eqn:Hz; [| discriminate].
  intros [= <-]. apply Qeq_bool_iff in Hz. auto.
Qed.

Lemma update_scan_position_keeps (pb pb' : Playback) :
  update_scan_position pb = Return pb' →
  self pb' = assign_scan_position (scan_position (self pb')) (self pb)
  ∧ engine pb' = engine pb ∧ on_note_play pb' = on_note_play pb
  ∧ on_playback_end pb' = on_playback_end pb ∧ start_time pb' = start_time pb
  ∧ notes_called (called pb') = notes_called (called pb).
Proof.
  unfold update_scan_position. destruct (mode (self pb)).
  - destruct (Qeq_bool _ _); [discriminate |]. intros [= <-].
    rewrite notes_called_back.
    destruct (call_back_keeps (on_scan_position pb)
                (OnScanPosition
                   (Z.min (py_int (current_time (self pb) / scan_duration (self pb)
                                   * inject_Z (scan_width (self pb))))
                          (scan_width (self pb))))
                (with_self
                   (assign_scan_position
                      (Z.min (py_int (current_time (self pb) / scan_duration (self pb)
                                      * inject_Z (scan_width (self pb))))
                             (scan_width (self pb)))
                      (self pb)) pb))
      as (Hs & He & H1 & _ & H3 & Ht & _).
    rewrite Hs, He, H1, H3, Ht. cbn.
    destruct (on_scan_position pb); cbn; rewrite app_nil_r; repeat split.
  - intros [= <-]. destruct pb as [[] e f1 f2 f3 c t]. repeat split.
Qed.

Lemma max_time_eq (s s' : Sequencer) :
  mode s' = mode s → scan_duration s' = scan_duration s → events s' = events s →
  max_time s' = max_time s.
Proof. unfold max_time. intros -> -> ->. reflexivity. Qed.

Lemma lookup_after_due (t : Q) (l : list SequenceEvent) (n : nat)
    (event : SequenceEvent) :
  l !! (n + length (due_prefix t (drop n l)))%nat = Some event →
  (t < time event)%Q.
Proof.
  destruct (due_prefix_spec t (drop n l)) as (rest & Hl & _ & Hnext).
  intros Hev. rewrite <- lookup_drop in Hev.
  remember (due_prefix t (drop n l)) as d.
  rewrite Hl in Hev. rewrite lookup_app_r, Nat.sub_diag in Hev by lia.
  apply Hnext. destruct rest; [discriminate | exact Hev].
Qed.

(** A running iteration as the composition of its blocks. *)
Lemma loop_iteration_running (now : Q) (pb : Playback) :
  is_playing (self pb) = true → stop_event (self pb) = false →
  is_paused (self pb) = false → 0 <= event_index (self pb) →
  let t := ((now - start_time pb) * playback_speed (self pb))%Q in
  let due := due_prefix t (drop (Z.to_nat (event_index (self pb)))
                             (events (self pb))) in
  match update_scan_position (with_self (assign_current_time t (self pb)) pb) with
  | Raise e =>
      loop_iteration now pb
      = (with_self (assign_current_time t (self pb)) pb, Died (Arithmetic e))
  | Return pb1 =>
      loop_iteration now pb
      = check_end
          (with_self
             (assign_event_index (event_index (self pb) + Z.of_nat (length due))
                (self pb1))
             (foldl _trigger_event pb1 due))
  end.
Proof.
  intros Hplay Hstop Hpause H0 t due.
  unfold loop_iteration. rewrite Hplay, Hstop, Hpause. cbn [negb andb].
  fold t. destruct (update_scan_position _) as [pb1 | e] eqn:Hupdate;
    [| reflexivity].
  apply update_scan_position_keeps in Hupdate as (Hs1 & _).
  assert (Hidx1 : event_index (self pb1) = event_index (self pb))
    by (rewrite Hs1; reflexivity).
  rewrite dispatch_events_spec; [| rewrite Hidx1; exact H0 | apply le_n].
  cbv zeta. rewrite Hidx1.
  replace (events (self pb1)) with (events (self pb)) by (rewrite Hs1; reflexivity).
  replace (current_time (self pb1)) with t by (rewrite Hs1; reflexivity).
  reflexivity.
Qed.

Lemma due_prefix_length (t : Q) (l : list SequenceEvent) :
  (length (due_prefix t l) <= length l)%nat.
Proof.
  destruct (due_prefix_spec t l) as (rest & Hl & _).
  rewrite Hl at 2. rewrite length_app. lia.
Qed.

Lemma trigger_sounds (pb : Playback) (event : SequenceEvent) :
  (sounds_played pb <= sounds_played (_trigger_event pb event)
   <= S (sounds_played pb))%nat.
Proof.
  unfold sounds_played, _trigger_event.
  rewrite (proj1 (proj2 (call_back_keeps _ _ _))).
  destruct pb as [s [e |] f1 f2 f3 c t]; cbn [engine with_engine]; [| lia].
  assert (Hset : ∀ key, music_engine.mixer (music_engine.set_instrument e key)
                        = music_engine.mixer e).
  { intros key. unfold music_engine.set_instrument.
    destruct (list_find _ _) as [[i k] |]; reflexivity. }
  destruct (decide _); destruct (_ !! _); cbn; rewrite ?length_app, ?Hset; cbn; lia.
Qed.

Lemma foldl_trigger_sounds (l : list SequenceEvent) : ∀ pb : Playback,
  (sounds_played pb <= sounds_played (foldl _trigger_event pb l)
   <= sounds_played pb + length l)%nat.
Proof.
  induction l as [|event l IH]; intros pb; simpl; [lia |].
  pose proof (trigger_sounds pb event). pose proof (IH (_trigger_event pb event)).
  lia.
Qed.

Lemma sounds_played_engine (pb pb' : Playback) :
  engine pb' = engine pb → sounds_played pb' = sounds_played pb.
Proof. unfold sounds_played. intros ->. reflexivity. Qed.

(** What a running iteration that does not die leaves behind. *)
Lemma loop_iteration_effect (now : Q) (pb : Playback) :
  is_playing (self pb) = true → stop_event (self pb) = false →
  is_paused (self pb) = false → 0 <= event_index (self pb) →
  (mode (self pb) = SCAN → ¬ scan_duration (self pb) == 0) →
  let t := ((now - start_time pb) * playback_speed (self pb))%Q in
  let due := due_prefix t (drop (Z.to_nat (event_index (self pb)))
                             (events (self pb))) in
  ∃ pb',
    loop_iteration now pb
    = (pb', if Qle_bool (max_time (self pb)) t then Exited else Running)
    ∧ current_time (self pb') = t
    ∧ events (self pb') = events (self pb)
    ∧ event_index (self pb') = event_index (self pb) + Z.of_nat (length due)
    ∧ notes_called (called pb')
      = notes_called (called pb) ++ (if on_note_play pb then due else [])
    ∧ engine pb' = engine (foldl _trigger_event pb due)
    ∧ is_playing (self pb') = negb (Qle_bool (max_time (self pb)) t)
    ∧ on_note_play pb' = on_note_play pb.
Proof.
  intros Hplay Hstop Hpause H0 Hscan t due.
  pose proof (loop_iteration_running now pb Hplay Hstop Hpause H0) as Hrun.
  cbv zeta in Hrun. fold t in Hrun. fold due in Hrun.
  set (pb0 := with_self (assign_current_time t (self pb)) pb) in *.
  destruct (update_scan_position pb0) as [pb1 | e] eqn:Hupdate.
  2: { apply update_scan_position_raises in Hupdate as (_ & Hmode & Hz).
       destruct (Hscan Hmode Hz). }
  apply update_scan_position_keeps in Hupdate
    as (Hs1 & He1 & Hf1 & Hf3 & Ht1 & Hc1).
  set (p := scan_position (self pb1)) in Hs1.
  set (pb2 := with_self _ (foldl _trigger_event pb1 due)) in Hrun.
  assert (Hs2 : self pb2
                = assign_event_index (event_index (self pb) + Z.of_nat (length due))
                    (self pb1)) by reflexivity.
  assert (Hmax : max_time (self pb2) = max_time (self pb)).
  { apply max_time_eq; rewrite Hs2, Hs1; reflexivity. }
  assert (Hct2 : current_time (self pb2) = t) by (rewrite Hs2, Hs1; reflexivity).
  destruct (foldl_trigger_keeps due pb1) as (_ & Hnp & _ & Hend & _ & Hcalled).
  assert (Hnotes : notes_called (called pb2)
                   = notes_called (called pb) ++ (if on_note_play pb then due else [])).
  { subst pb2. cbn [called with_self]. rewrite Hcalled, notes_called_app, Hc1, Hf1.
    subst pb0. cbn [called on_note_play with_self].
    destruct (on_note_play pb); [rewrite notes_called_notes |]; reflexivity. }
  assert (Heng : engine pb2 = engine (foldl _trigger_event pb due)).
  { subst pb2. cbn [engine with_self]. apply foldl_trigger_engine.
    rewrite He1. reflexivity. }
  assert (Hnp2 : on_note_play pb2 = on_note_play pb).
  { subst pb2. cbn [on_note_play with_self]. rewrite Hnp, Hf1. reflexivity. }
  rewrite Hrun. unfold check_end. rewrite Hmax, Hct2.
  destruct (Qle_bool (max_time (self pb)) t).
  - eexists. split; [reflexivity |].
    destruct (call_back_keeps (on_playback_end pb2) OnPlaybackEnd
                (with_self (assign_is_playing false (self pb2)) pb2))
      as (Hs & He & Hn & _).
    rewrite Hs, He, Hn, notes_called_back. cbn [notes_called omap].
    destruct (on_playback_end pb2); rewrite app_nil_r;
      cbn [self with_self engine called on_note_play];
      (repeat split; try assumption; rewrite Hs2, Hs1; reflexivity).
  - exists pb2. split; [reflexivity |].
    repeat split; try assumption; rewrite Hs2, Hs1; try reflexivity.
    cbn. exact Hplay.
Qed.

(** X22: an iteration of the playback loop on a sequencer that is
    playing and not paused sets [current_time] to the time since
    [start_time] scaled by the speed, triggers in order exactly the
    events from [event_index] on that are due at that time, up to the
    first that is not, and leaves the loop exactly when the time has
    reached [max_time], clearing [is_playing]. *)
Theorem loop_iteration_dispatches (now : Q) (pb : Playback) :
  is_playing (self pb) = true → stop_event (self pb) = false →
  is_paused (self pb) = false → 0 <= event_index (self pb) →
  (mode (self pb) = SCAN → ¬ scan_duration (self pb) == 0) →
  let t := ((now - start_time pb) * playback_speed (self pb))%Q in
  let due := due_prefix t (drop (Z.to_nat (event_index (self pb)))
                             (events (self pb))) in
  ∃ pb',
    loop_iteration now pb
    = (pb', if Qle_bool (max_time (self pb)) t then Exited else Running)
    ∧ current_time (self pb') = t
    ∧ event_index (self pb') = event_index (self pb) + Z.of_nat (length due)
    ∧ Forall (fun event => (time event <= t)%Q) due
    ∧ (∀ event, events (self pb) !! Z.to_nat (event_index (self pb')) = Some event →
                (t < time event)%Q)
    ∧ notes_called (called pb')
      = notes_called (called pb) ++ (if on_note_play pb then due else [])
    ∧ engine pb' = engine (foldl _trigger_event pb due)
    ∧ is_playing (self pb') = negb (Qle_bool (max_time (self pb)) t).
Proof.
  intros Hplay Hstop Hpause H0 Hscan t due.
  destruct (loop_iteration_effect now pb Hplay Hstop Hpause H0 Hscan)
    as (pb' & Hrun & Hct & _ & Hidx & Hnotes & Heng & Hp & _).
  exists pb'. fold t in Hrun, Hct, Hidx, Hnotes, Heng, Hp.
  fold due in Hidx, Hnotes, Heng.
  split; [exact Hrun |]. split; [exact Hct |]. split; [exact Hidx |].
  split.
  { destruct (due_prefix_spec t (drop (Z.to_nat (event_index (self pb)))
                                   (events (self pb)))) as (rest & _ & H & _).
    exact H. }
  split; [| auto].
  intros event. rewrite Hidx, Z2Nat.inj_add, Nat2Z.id by lia.
  apply lookup_after_due.
Qed.

Lemma loop_iteration_dispatches_witness :
  let s := (start (set_project new_sequencer one_stroke_project)).1 in
  let pb := playback_of s (music_engine.new_engine true (fun _ => true)) in
  ∃ pb',
    loop_iteration 2.1 pb = (pb', Running)
    ∧ event_index (self pb') = 2
    ∧ map note (notes_called (called pb')) = [50; 67]
    ∧ sounds_played pb' = 2%nat.
Proof.
  intros s pb.
  destruct (loop_iteration_dispatches 2.1 pb)
    as (pb' & Hrun & _ & Hidx & _ & _ & Hnotes & Heng & _).
  - vm_compute. reflexivity.
  - vm_compute. reflexivity.
  - vm_compute. reflexivity.
  - vm_compute. discriminate.
  - intros _ Hz. vm_compute in Hz. discriminate.
  - exists pb'. split; [exact Hrun |].
    split; [rewrite Hidx; vm_compute; reflexivity |].
    split; [rewrite Hnotes; vm_compute; reflexivity |].
    unfold sounds_played. rewrite Heng. vm_compute. reflexivity.
Defined.

(** *** The whole loop *)

Lemma loop_iteration_inv (now : Q) (pb : Playback)
    (base : list SequenceEvent) (played : nat) :
  on_note_play pb = true →
  0 <= event_index (self pb) <= Z.of_nat (length (events (self pb))) →
  notes_called (called pb)
  = base ++ take (Z.to_nat (event_index (self pb))) (events (self pb)) →
  (sounds_played pb <= played + Z.to_nat (event_index (self pb)))%nat →
  let pb' := (loop_iteration now pb).1 in
  (loop_iteration now pb).2 ≠ Died IndexError
  ∧ events (self pb') = events (self pb)
  ∧ on_note_play pb' = true
  ∧ event_index (self pb) <= event_index (self pb')
    <= Z.of_nat (length (events (self pb)))
  ∧ notes_called (called pb')
    = base ++ take (Z.to_nat (event_index (self pb'))) (events (self pb))
  ∧ (sounds_played pb' <= played + Z.to_nat (event_index (self pb')))%nat.
Proof.
  intros Hnp Hidx Hnotes Hsounds. cbv zeta.
  destruct (is_playing (self pb) && negb (stop_event (self pb))) eqn:Hon.
  2: { unfold loop_iteration. rewrite Hon. cbn.
       repeat split; try assumption; try discriminate; lia. }
  apply andb_true_iff in Hon as [Hplay Hstop]. apply negb_true_iff in Hstop.
  destruct (is_paused (self pb)) eqn:Hpause.
  { unfold loop_iteration. rewrite Hplay, Hstop, Hpause. cbn.
    repeat split; try assumption; try discriminate; lia. }
  pose proof (loop_iteration_running now pb Hplay Hstop Hpause (proj1 Hidx)) as Hrun.
  cbv zeta in Hrun.
  set (t := ((now - start_time pb) * playback_speed (self pb))%Q) in *.
  destruct (update_scan_position _) as [pb1 | e] eqn:Hupdate.
  2: { rewrite Hrun. cbn.
       repeat split; try assumption; try discriminate; lia. }
  assert (Hgood : mode (self pb) = SCAN → ¬ scan_duration (self pb) == 0).
  { intros Hmode Hz. unfold update_scan_position in Hupdate.
    cbn [self with_self mode assign_current_time scan_duration] in Hupdate.
    rewrite Hmode in Hupdate. apply Qeq_bool_iff in Hz. rewrite Hz in Hupdate.
    discriminate. }
  destruct (loop_iteration_effect now pb Hplay Hstop Hpause (proj1 Hidx) Hgood)
    as (pb' & Hit & _ & Hev & Hidx' & Hnotes' & Heng & _ & Hnp').
  fold t in Hit, Hidx', Hnotes', Heng.
  set (due := due_prefix t (drop (Z.to_nat (event_index (self pb)))
                              (events (self pb)))) in *.
  rewrite Hit. cbn [fst snd].
  pose proof (due_prefix_length t (drop (Z.to_nat (event_index (self pb)))
                                    (events (self pb)))) as Hlen.
  fold due in Hlen. rewrite length_drop in Hlen.
  split; [destruct (Qle_bool _ _); discriminate |].
  split; [exact Hev |]. split; [congruence |]. split; [lia |]. split.
  - rewrite Hnotes', Hnotes, Hnp, Hidx', <- app_assoc. f_equal.
    rewrite Z2Nat.inj_add, Nat2Z.id by lia. rewrite <- take_take_drop. f_equal.
    destruct (due_prefix_spec t (drop (Z.to_nat (event_index (self pb)))
                                   (events (self pb)))) as (rest & Hl & _).
    fold due in Hl. rewrite Hl at 1. symmetry. apply take_app_length.
  - rewrite (sounds_played_engine _ _ Heng).
    pose proof (foldl_trigger_sounds due pb). lia.
Qed.

Lemma run_loop_inv (readings : list Q) (base : list SequenceEvent) (played : nat) :
  ∀ pb : Playback,
  on_note_play pb = true →
  0 <= event_index (self pb) <= Z.of_nat (length (events (self pb))) →
  notes_called (called pb)
  = base ++ take (Z.to_nat (event_index (self pb))) (events (self pb)) →
  (sounds_played pb <= played + Z.to_nat (event_index (self pb)))%nat →
  let pb' := (run_loop readings pb).1 in
  (run_loop readings pb).2 ≠ Died IndexError
  ∧ events (self pb') = events (self pb)
  ∧ event_index (self pb) <= event_index (self pb')
    <= Z.of_nat (length (events (self pb)))
  ∧ notes_called (called pb')
    = base ++ take (Z.to_nat (event_index (self pb'))) (events (self pb))
  ∧ (sounds_played pb' <= played + Z.to_nat (event_index (self pb')))%nat.
Proof.
  induction readings as [|now rest IH]; intros pb Hnp Hidx Hnotes Hsounds; cbn.
  { repeat split; try assumption; try discriminate; lia. }
  destruct (loop_iteration_inv now pb base played Hnp Hidx Hnotes Hsounds)
    as (Hdie & Hev & Hnp1 & Hidx1 & Hnotes1 & Hsounds1).
  destruct (loop_iteration now pb) as [pb1 status]. cbn [fst snd] in *.
  destruct status as [| | e].
  - destruct (IH pb1) as (Hdie2 & Hev2 & Hidx2 & Hnotes2 & Hsounds2);
      [exact Hnp1 | rewrite Hev; lia | rewrite Hev; exact Hnotes1 | exact Hsounds1 |].
    rewrite Hev in *.
    repeat split; try assumption; try congruence; lia.
  - cbn. repeat split; try assumption; try discriminate; lia.
  - cbn. repeat split; try assumption; lia.
Qed.

(** X23: however the clock readings of the iterations fall, the
    playback loop started on a sequencer at [event_index] 0 never
    indexes outside the event list, calls [on_note_play] with the first
    [event_index] events of the list, each once and in list order, and
    plays at most one sound per event. *)
Theorem playback_in_order (t0 : Q) (readings : list Q) (pb : Playback) :
  event_index (self pb) = 0 → on_note_play pb = true →
  let pb' := (_playback_loop t0 readings pb).1 in
  (_playback_loop t0 readings pb).2 ≠ Died IndexError
  ∧ events (self pb') = events (self pb)
  ∧ 0 <= event_index (self pb') <= Z.of_nat (length (events (self pb)))
  ∧ notes_called (called pb')
    = notes_called (called pb)
      ++ take (Z.to_nat (event_index (self pb'))) (events (self pb))
  ∧ (sounds_played pb' <= sounds_played pb + Z.to_nat (event_index (self pb')))%nat.
Proof.
  intros Hidx Hnp. unfold _playback_loop.
  destruct (run_loop_inv readings (notes_called (called pb)) (sounds_played pb)
              (with_start_time t0 pb))
    as (Hdie & Hev & Hidx' & Hnotes & Hsounds).
  - exact Hnp.
  - cbn. rewrite Hidx. lia.
  - cbn. rewrite Hidx. cbn. rewrite app_nil_r. reflexivity.
  - cbn. unfold sounds_played. cbn. lia.
  - cbn [self with_start_time] in *. rewrite Hidx in Hidx'.
    repeat split; try assumption; lia.
Qed.

Lemma playback_in_order_witness :
  let s := (start (set_project new_sequencer one_stroke_project)).1 in
  let pb := playback_of s (music_engine.new_engine true (fun _ => true)) in
  let result := _playback_loop 10 [10.3; 11; 12.5; 13; 14.1; 15]%Q pb in
  result.2 = Exited
  ∧ event_index (self result.1) = 3
  ∧ notes_called (called result.1) = events s.
Proof.
  intros s pb result.
  assert (Hresult : result.2 = Exited ∧ event_index (self result.1) = 3)
    by (vm_compute; split; reflexivity).
  destruct Hresult as [Hexit Hidx].
  destruct (playback_in_order 10 [10.3; 11; 12.5; 13; 14.1; 15]%Q pb
              eq_refl eq_refl) as (_ & _ & _ & Hnotes & _).
  fold result in Hnotes.
  split; [exact Hexit |]. split; [exact Hidx |].
  rewrite Hnotes, Hidx. vm_compute. reflexivity.
Defined.

(** *** Pausing, leaving and dying *)

Lemma dispatch_events_keeps (fuel : nat) : ∀ pb : Playback,
  let pb' := (dispatch_events fuel pb).1 in
  current_time (self pb') = current_time (self pb)
  ∧ is_playing (self pb') = is_playing (self pb)
  ∧ scan_position (self pb') = scan_position (self pb).
Proof.
  induction fuel as [|fuel IH]; intros pb; cbn [dispatch_events]; [auto |].
  destruct (_ <? _); [| auto].
  destruct (py_index _ _) as [event |]; [| auto].
  destruct (Qle_bool _ _); [| auto].
  destruct (trigger_keeps pb event) as (Hs & _).
  specialize (IH (with_self (assign_event_index
                               (event_index (self (_trigger_event pb event)) + 1)
                               (self (_trigger_event pb event)))
                    (_trigger_event pb event))).
  cbv zeta in IH. cbn [self with_self current_time is_playing scan_position
                       assign_event_index] in IH.
  rewrite Hs in IH. rewrite Hs. exact IH.
Qed.

Lemma check_end_keeps (pb : Playback) :
  current_time (self (check_end pb).1) = current_time (self pb)
  ∧ scan_position (self (check_end pb).1) = scan_position (self pb).
Proof.
  unfold check_end. destruct (Qle_bool _ _); [| auto]. cbn [fst].
  rewrite (proj1 (call_back_keeps _ _ _)). auto.
Qed.

Lemma loop_iteration_time (now : Q) (pb : Playback) :
  is_playing (self pb) = true → stop_event (self pb) = false →
  is_paused (self pb) = false →
  current_time (self (loop_iteration now pb).1)
  = ((now - start_time pb) * playback_speed (self pb))%Q.
Proof.
  intros Hplay Hstop Hpause.
  unfold loop_iteration. rewrite Hplay, Hstop, Hpause. cbn [negb andb].
  destruct (update_scan_position _) as [pb1 | e] eqn:Hupdate; [| reflexivity].
  apply update_scan_position_keeps in Hupdate as (Hs1 & _).
  pose proof (dispatch_events_keeps (events_left (self pb1)) pb1) as (Ht & _).
  destruct (dispatch_events _ pb1) as [pb2 [e |]]; cbn [fst] in *.
  - rewrite Ht, Hs1. reflexivity.
  - rewrite (proj1 (check_end_keeps pb2)), Ht, Hs1. reflexivity.
Qed.

(** X24: while the sequencer is paused an iteration changes nothing but
    [start_time], which it sets to the reading less [current_time]; the
    first iteration after [pause] has been called again therefore
    resumes at the time [current_time] plus the time since the last
    paused iteration, multiplied by the speed, which is a continuation
    of [current_time] when the speed is 1. *)
Theorem pause_resume (now now' : Q) (pb : Playback) :
  is_playing (self pb) = true → stop_event (self pb) = false →
  is_paused (self pb) = true →
  loop_iteration now pb
  = (with_start_time (now - current_time (self pb)) pb, Running)
  ∧ (let resumed :=
       with_self (pause (self pb))
         (with_start_time (now - current_time (self pb)) pb) in
     current_time (self (loop_iteration now' resumed).1)
     = ((now' - (now - current_time (self pb))) * playback_speed (self pb))%Q
     ∧ (playback_speed (self pb) == 1 →
        current_time (self (loop_iteration now' resumed).1)
        == current_time (self pb) + (now' - now))).
Proof.
  intros Hplay Hstop Hpause. split.
  - unfold loop_iteration. rewrite Hplay, Hstop, Hpause. reflexivity.
  - cbv zeta.
    rewrite loop_iteration_time;
      [| exact Hplay | exact Hstop | cbn; rewrite Hpause; reflexivity].
    cbn [self with_self start_time with_start_time playback_speed pause
         assign_is_paused].
    split; [reflexivity |].
    intros Hspeed. rewrite Hspeed. ring.
Qed.

Lemma pause_resume_witness :
  let s := pause (start (set_project new_sequencer one_stroke_project)).1 in
  let pb := with_self
              (assign_current_time 1.5 s)
              (playback_of s (music_engine.new_engine true (fun _ => true))) in
  let paused := with_start_time (20 - current_time (self pb)) pb in
  loop_iteration 20 pb = (paused, Running)
  ∧ current_time (self (loop_iteration 20.25 (with_self (pause (self pb)) paused)).1)
    == 1.75.
Proof.
  intros s pb paused.
  destruct (pause_resume 20 20.25 pb) as [Hpaused [_ Hresume]].
  - vm_compute. reflexivity.
  - vm_compute. reflexivity.
  - vm_compute. reflexivity.
  - split; [exact Hpaused |].
    eapply Qeq_trans; [apply Hresume; vm_compute; reflexivity |].
    vm_compute. reflexivity.
Defined.




(** *** The scan line *)

(** X26: in scan mode, with a positive [scan_duration], a non-negative
    [scan_width] and a non-negative playing time, an iteration puts the
    scan position at the integer part of the width's share of that
    time, capped at the width: it lies between 0 and [scan_width], is
    passed to [on_scan_position], and is the full width when the
    iteration ends the playback. *)
Theorem scan_position_range (now : Q) (pb : Playback) :
  is_playing (self pb) = true → stop_event (self pb) = false →
  is_paused (self pb) = false → 0 <= event_index (self pb) →
  mode (self pb) = SCAN → (0 < scan_duration (self pb))%Q →
  0 <= scan_width (self pb) →
  let t := ((now - start_time pb) * playback_speed (self pb))%Q in
  (0 <= t)%Q →
  let pb' := (loop_iteration now pb).1 in
  scan_position (self pb')
  = Z.min (Qfloor (t / scan_duration (self pb) * inject_Z (scan_width (self pb))))
          (scan_width (self pb))
  ∧ 0 <= scan_position (self pb') <= scan_width (self pb)
  ∧ ((loop_iteration now pb).2 = Exited →
     scan_position (self pb') = scan_width (self pb))
  ∧ (on_scan_position pb = true →
     OnScanPosition (scan_position (self pb')) ∈ called pb').
Proof.
  intros Hplay Hstop Hpause H0 Hmode Hdur Hwidth t Ht pb'.
  pose proof (loop_iteration_running now pb Hplay Hstop Hpause H0) as Hrun.
  cbv zeta in Hrun. fold t in Hrun.
  assert (Hshare : (0 <= t / scan_duration (self pb)
                         * inject_Z (scan_width (self pb)))%Q).
  { apply Qmult_le_0_compat.
    - apply Qle_shift_div_l; [exact Hdur |]. rewrite Qmult_0_l. exact Ht.
    - change 0%Q with (inject_Z 0). rewrite <- Zle_Qle. exact Hwidth. }
  unfold update_scan_position in Hrun.
  cbn [self with_self mode assign_current_time scan_duration current_time
       scan_width on_scan_position] in Hrun.
  rewrite Hmode in Hrun.
  destruct (Qeq_bool (scan_duration (self pb)) 0) eqn:Hz.
  { apply Qeq_bool_iff in Hz. rewrite Hz in Hdur. discriminate. }
  rewrite py_int_nonneg in Hrun by exact Hshare.
  set (position := Z.min (Qfloor (t / scan_duration (self pb)
                                  * inject_Z (scan_width (self pb))))
                         (scan_width (self pb))) in *.
  set (pb1 := call_back (on_scan_position pb) (OnScanPosition position) _) in Hrun.
  set (pb2 := with_self _ (foldl _trigger_event pb1 _)) in Hrun.
  assert (Hs1 : self pb1
                = assign_scan_position position (assign_current_time t (self pb)))
    by (subst pb1; apply call_back_keeps).
  assert (Hc1 : called pb1
                = called pb ++ (if on_scan_position pb
                                then [OnScanPosition position] else []))
    by (subst pb1;
        rewrite (proj2 (proj2 (proj2 (proj2 (proj2 (proj2 (call_back_keeps _ _ _)))))));
        reflexivity).
  assert (Hp2 : scan_position (self pb2) = position)
    by (subst pb2; cbn [self with_self]; rewrite Hs1; reflexivity).
  assert (Hpos : scan_position (self pb') = position).
  { subst pb'. rewrite Hrun, (proj2 (check_end_keeps pb2)). exact Hp2. }
  assert (Hfloor : 0 <= Qfloor (t / scan_duration (self pb)
                                * inject_Z (scan_width (self pb)))).
  { rewrite <- (Qfloor_Z 0). apply Qfloor_resp_le. exact Hshare. }
  rewrite Hpos. split; [reflexivity |]. split; [subst position; lia |]. split.
  - rewrite Hrun. unfold check_end.
    assert (Hmax : max_time (self pb2) = scan_duration (self pb)).
    { unfold max_time. subst pb2. cbn [self with_self]. rewrite Hs1. cbn.
      rewrite Hmode. reflexivity. }
    assert (Hct : current_time (self pb2) = t)
      by (subst pb2; cbn [self with_self]; rewrite Hs1; reflexivity).
    rewrite Hmax, Hct.
    destruct (Qle_bool (scan_duration (self pb)) t) eqn:Hend; [| discriminate].
    intros _. apply Qle_bool_iff in Hend.
    assert (Hfull : scan_width (self pb)
                    <= Qfloor (t / scan_duration (self pb)
                               * inject_Z (scan_width (self pb)))).
    { rewrite <- (Qfloor_Z (scan_width (self pb))) at 1. apply Qfloor_resp_le.
      rewrite <- (Qmult_1_l (inject_Z (scan_width (self pb)))) at 1.
      apply Qmult_le_compat_r.
      - apply Qle_shift_div_l; [exact Hdur |]. rewrite Qmult_1_l. exact Hend.
      - change 0%Q with (inject_Z 0). rewrite <- Zle_Qle. exact Hwidth. }
    subst position. lia.
  - intros Hset. subst pb'. rewrite Hrun.
    assert (Hin2 : OnScanPosition position ∈ called pb2).
    { subst pb2. cbn [called with_self].
      rewrite (proj2 (proj2 (proj2 (proj2 (proj2 (foldl_trigger_keeps _ pb1)))))).
      apply elem_of_app. left. rewrite Hc1, Hset.
      apply elem_of_app. right. apply elem_of_cons. auto. }
    unfold check_end. destruct (Qle_bool _ _); [| exact Hin2].
    cbn [fst].
    rewrite (proj2 (proj2 (proj2 (proj2 (proj2 (proj2 (call_back_keeps _ _ _))))))).
    apply elem_of_app. left. exact Hin2.
Qed.

Lemma scan_position_range_witness :
  let s := (start (set_project new_sequencer one_stroke_project)).1 in
  let pb := playback_of s (music_engine.new_engine true (fun _ => true)) in
  scan_position (self (loop_iteration 1.3 pb).1) = 208
  ∧ OnScanPosition 208 ∈ called (loop_iteration 1.3 pb).1.
Proof.
  intros s pb.
  destruct (scan_position_range 1.3 pb) as (Hpos & _ & _ & Hcalled).
  - vm_compute. reflexivity.
  - vm_compute. reflexivity.
  - vm_compute. reflexivity.
  - vm_compute. discriminate.
  - vm_compute. reflexivity.
  - vm_compute. reflexivity.
  - vm_compute. discriminate.
  - vm_compute. discriminate.
  - assert (Hvalue : scan_position (self (loop_iteration 1.3 pb).1) = 208).
    { rewrite Hpos. vm_compute. reflexivity. }
    split; [exact Hvalue |]. rewrite <- Hvalue. apply Hcalled. reflexivity.
Defined.

End Playback.

Section Sessions.

Import config music_engine.

Ltac split_trigger :=
  repeat match goal with
         | |- context [if ?b then _ else _] => destruct b eqn:?
         | |- context [match ?m with Return _ => _ | Raise _ => _ end] => destruct m eqn:?
         | |- context [match ?m with Some _ => _ | None => _ end] => destruct m eqn:?
         end.

Lemma record_note_recording (e : MusicEngine) (now : Q) (n v d x y : Z) :
  is_recording (record_note e now n v d x y) = is_recording e.
Proof.
  unfold record_note. destruct (is_recording e) eqn:Hrec; cbn; rewrite ?Hrec; reflexivity.
Qed.

Lemma do_call_keeps_recording (e : MusicEngine) (c : call) :
  is_recording (do_call e c) = is_recording e.
Proof.
  destruct c as [now x y th w h | now x y th w h |]; simpl.
  - pose proof (play_note_cases e now x y th w h) as Hcases. cbv zeta in Hcases.
    destruct Hcases as [-> | (raw & d & sound & _ & _ & _ & _ & _ & _ & _ & ->)];
      [reflexivity |].
    rewrite record_note_recording. reflexivity.
  - unfold play_preview_note.
    split_trigger; cbn [fst]; rewrite ?record_note_recording; reflexivity.
  - reflexivity.
Qed.

Lemma do_calls_keeps_recording (calls : list call) : ∀ e : MusicEngine,
  is_recording (do_calls e calls) = is_recording e.
Proof.
  induction calls as [|c calls IH]; intros e; [reflexivity |].
  change (do_calls e (c :: calls)) with (do_calls (do_call e c) calls).
  rewrite IH. apply do_call_keeps_recording.
Qed.

Lemma do_call_not_recording (e : MusicEngine) (c : call) :
  is_recording e = false → recorded_notes (do_call e c) = recorded_notes e.
Proof.
  intros Hrec.
  destruct (do_call_appends e c) as [[Hnew _] | (ev & now & [Hnew _] & Hc & _)].
  { rewrite Hnew. apply app_nil_r. }
  exfalso. destruct c as [t x y th w h | t x y th w h |]; simpl in Hnew.
  - pose proof (play_note_cases e t x y th w h) as Hcases. cbv zeta in Hcases.
    destruct Hcases as [Hsame | (raw & d & sound & _ & _ & _ & _ & _ & _ & _ & He')].
    + rewrite Hsame in Hnew. apply (f_equal length) in Hnew.
      rewrite length_app in Hnew. simpl in Hnew. lia.
    + rewrite He' in Hnew. unfold record_note in Hnew. simpl in Hnew.
      rewrite Hrec in Hnew. simpl in Hnew. apply (f_equal length) in Hnew.
      rewrite length_app in Hnew. simpl in Hnew. lia.
  - revert Hnew. unfold play_preview_note.
    split_trigger; simpl; unfold record_note; simpl; rewrite ?Hrec; simpl;
      intros Hnew; try congruence;
      apply (f_equal length) in Hnew; rewrite length_app in Hnew;
      simpl in Hnew; lia.
  - apply (f_equal length) in Hnew. rewrite length_app in Hnew. simpl in Hnew. lia.
Qed.

Lemma do_calls_not_recording (calls : list call) : ∀ e : MusicEngine,
  is_recording e = false → recorded_notes (do_calls e calls) = recorded_notes e.
Proof.
  induction calls as [|c calls IH]; intros e Hrec; [reflexivity |].
  change (do_calls e (c :: calls)) with (do_calls (do_call e c) calls).
  rewrite IH by (rewrite do_call_keeps_recording; exact Hrec).
  apply do_call_not_recording, Hrec.
Qed.

Lemma do_calls_stamps (calls : list call) : ∀ e : MusicEngine,
  ∃ new,
    appends e (do_calls e calls) new
    ∧ Forall (fun ev => ∃ now, now ∈ call_times calls
                               ∧ timestamp ev = (now - recording_start_time e)%Q)
        new.
Proof.
  induction calls as [|c calls IH]; intros e.
  { exists []. split; [apply appends_refl | constructor]. }
  change (do_calls e (c :: calls)) with (do_calls (do_call e c) calls).
  destruct (IH (do_call e c)) as (new2 & [Hnew2 Hstart2] & Hstamps2).
  assert (Hlater : ∀ start, Forall (fun ev => ∃ now, now ∈ call_times calls
                                      ∧ timestamp ev = (now - start)%Q) new2 →
                            Forall (fun ev => ∃ now, now ∈ call_times (c :: calls)
                                      ∧ timestamp ev = (now - start)%Q) new2).
  { intros start Hall. eapply Forall_impl; [exact Hall |].
    intros ev (now & Hin & Ht). exists now. split; [| exact Ht].
    unfold call_times. simpl.
    destruct (call_time c); [apply elem_of_cons; right |]; exact Hin. }
  destruct (do_call_appends e c)
    as [[Hnew1 Hstart1] | (ev & now & [Hnew1 Hstart1] & Hc & Ht)].
  - exists new2. split.
    + split; [| congruence]. rewrite Hnew2, Hnew1, app_nil_r. reflexivity.
    + apply Hlater. rewrite <- Hstart1. exact Hstamps2.
  - exists (ev :: new2). split.
    + split; [| congruence]. rewrite Hnew2, Hnew1, <- app_assoc. reflexivity.
    + constructor.
      * exists now. split; [| exact Ht].
        unfold call_times. simpl. rewrite Hc. apply elem_of_cons. left. reflexivity.
      * apply Hlater. rewrite <- Hstart1. exact Hstamps2.
Qed.

(** X27: [toggle_recording] on an engine that is not recording starts a
    recording with an empty buffer and returns [(None, True)]; the
    trigger calls leave the recording on; the next [toggle_recording]
    stops it and returns the buffer, which holds events stamped with
    the readings of the calls less the start time; and calls made after
    that record nothing. *)
Theorem toggle_recording_round_trip (e : MusicEngine) (t0 t1 : Q)
    (calls after : list call) :
  is_recording e = false →
  let started := toggle_recording e t0 in
  let e2 := do_calls started.1 calls in
  let stopped := toggle_recording e2 t1 in
  started.2 = (None, true)
  ∧ recorded_notes started.1 = []
  ∧ is_recording e2 = true
  ∧ stopped.2 = (Some (recorded_notes e2), false)
  ∧ is_recording stopped.1 = false
  ∧ Forall (fun ev => ∃ now, now ∈ call_times calls
                             ∧ timestamp ev = (now - t0)%Q) (recorded_notes e2)
  ∧ recorded_notes (do_calls stopped.1 after) = recorded_notes e2.
Proof.
  intros Hrec. cbv zeta.
  assert (Hstart : toggle_recording e t0 = (start_recording e t0, (None, true)))
    by (unfold toggle_recording; rewrite Hrec; reflexivity).
  rewrite Hstart. cbn [fst snd].
  assert (Hon : is_recording (do_calls (start_recording e t0) calls) = true)
    by (rewrite do_calls_keeps_recording; reflexivity).
  assert (Hstop : toggle_recording (do_calls (start_recording e t0) calls) t1
                  = (assign_is_recording false (do_calls (start_recording e t0) calls),
                     (Some (recorded_notes (do_calls (start_recording e t0) calls)),
                      false)))
    by (unfold toggle_recording, stop_recording; rewrite Hon; reflexivity).
  rewrite Hstop. cbn [fst snd].
  split; [reflexivity |]. split; [reflexivity |]. split; [exact Hon |].
  split; [reflexivity |]. split; [reflexivity |]. split.
  - destruct (do_calls_stamps calls (start_recording e t0))
      as (new & [Hnew _] & Hstamps).
    rewrite Hnew. exact Hstamps.
  - rewrite do_calls_not_recording by reflexivity. reflexivity.
Qed.

Lemma toggle_recording_round_trip_witness :
  let e := new_engine true (fun _ => true) in
  let e2 := do_calls (toggle_recording e 0).1 session in
  (toggle_recording e2 3).2 = (Some (recorded_notes e2), false)
  ∧ map (fun ev => Qred (timestamp ev)) (recorded_notes e2) = [1; 3 # 2; 8 # 5; 2]%Q
  ∧ recorded_notes (do_calls (toggle_recording e2 3).1 session) = recorded_notes e2.
Proof.
  intros e e2.
  destruct (toggle_recording_round_trip e 0 3 session session eq_refl)
    as (_ & _ & _ & Hstop & _ & _ & Hafter).
  split; [exact Hstop |]. split; [vm_compute; reflexivity | exact Hafter].
Defined.

End Sessions.

Section Strokes.

Import project_model.

Lemma add_point_fields (s : Stroke) (x y thickness : Z) (relative_t : Q) :
  let s' := add_point s x y thickness relative_t in
  points s' = points s ++ [drawn_point (x, y, thickness, relative_t)]
  ∧ start_t s' = (if bool_decide (points s = []) then relative_t else start_t s)
  ∧ end_t s' = relative_t
  ∧ instrument s' = instrument s ∧ color s' = color s
  ∧ stroke_id s' = stroke_id s.
Proof.
  cbv zeta. unfold add_point. cbn.
  destruct (points s) as [|p [|q l]]; cbn; repeat split.
Qed.

Lemma draw_snoc (s : Stroke) (drawn : list (Z * Z * Z * Q)) (d : Z * Z * Z * Q) :
  draw s (drawn ++ [d])
  = add_point (draw s drawn) d.1.1.1 d.1.1.2 d.1.2 d.2.
Proof.
  unfold draw. rewrite foldl_app. destruct d as [[[x y] th] t]. reflexivity.
Qed.

Lemma draw_fields (drawn : list (Z * Z * Z * Q)) : ∀ s : Stroke,
  points (draw s drawn) = points s ++ map drawn_point drawn
  ∧ instrument (draw s drawn) = instrument s ∧ color (draw s drawn) = color s
  ∧ stroke_id (draw s drawn) = stroke_id s
  ∧ (points s ≠ [] → start_t (draw s drawn) = start_t s).
Proof.
  induction drawn as [|[[[x y] th] t] drawn IH]; intros s.
  { cbn. rewrite app_nil_r. repeat split. }
  change (draw s ((x, y, th, t) :: drawn))
    with (draw (add_point s x y th t) drawn).
  destruct (IH (add_point s x y th t)) as (Hp & Hi & Hc & Hid & Hstart).
  destruct (add_point_fields s x y th t) as (Hp1 & Hs1 & _ & Hi1 & Hc1 & Hid1).
  cbv zeta in *. rewrite Hp, Hi, Hc, Hid, Hp1, Hi1, Hc1, Hid1.
  split; [rewrite <- app_assoc; reflexivity |]. repeat split.
  intros Hne. rewrite Hstart, Hs1.
  - rewrite bool_decide_false by exact Hne. reflexivity.
  - rewrite Hp1. intros H. apply app_eq_nil in H as [_ H]. discriminate.
Qed.

(** X28: a stroke that starts without points and receives a run of
    [add_point] calls holds the points in call order, starts at the
    time of the first point and ends at the time of the last, so that
    [get_duration] is their difference; a stroke that already has points
    keeps its [start_t]. *)
Theorem draw_stroke (s : Stroke) (first : Z * Z * Z * Q)
    (more : list (Z * Z * Z * Q)) :
  let s' := draw s (first :: more) in
  points s' = points s ++ map drawn_point (first :: more)
  ∧ instrument s' = instrument s ∧ color s' = color s
  ∧ end_t s' = (List.last (first :: more) first).2
  ∧ (points s = [] →
     start_t s' = first.2
     ∧ get_duration s' = ((List.last (first :: more) first).2 - first.2)%Q)
  ∧ (points s ≠ [] → start_t s' = start_t s).
Proof.
  cbv zeta.
  destruct (draw_fields (first :: more) s) as (Hp & Hi & Hc & _ & Hstart).
  assert (Hend : end_t (draw s (first :: more)) = (List.last (first :: more) first).2).
  { destruct (exists_last (l := first :: more) ltac:(discriminate))
      as (init & d & Hsplit).
    rewrite Hsplit, draw_snoc, List.last_last.
    apply (add_point_fields (draw s init)). }
  assert (Hfirst : points s = [] → start_t (draw s (first :: more)) = first.2).
  { intros Hnil. destruct first as [[[x y] th] t].
    change (draw s ((x, y, th, t) :: more))
      with (draw (add_point s x y th t) more).
    destruct (draw_fields more (add_point s x y th t)) as (_ & _ & _ & _ & Hkeep).
    destruct (add_point_fields s x y th t) as (Hp1 & Hs1 & _).
    cbv zeta in *. rewrite Hkeep.
    - rewrite Hs1, bool_decide_true by exact Hnil. reflexivity.
    - rewrite Hp1. intros H. apply app_eq_nil in H as [_ H]. discriminate. }
  split; [exact Hp |]. split; [exact Hi |]. split; [exact Hc |].
  split; [exact Hend |]. split; [| exact Hstart].
  intros Hnil. split; [apply Hfirst, Hnil |].
  unfold get_duration. rewrite Hend, (Hfirst Hnil). reflexivity.
Qed.

Lemma draw_stroke_witness :
  let s := draw (new_stroke "piano" (255, 200, 100) "stroke_1")
             [(40, 100, 10, 0.2%Q); (320, 200, 10, 0.5%Q); (600, 300, 20, 1.4%Q)] in
  map x (points s) = [40; 320; 600]
  ∧ start_t s = 0.2%Q ∧ end_t s = 1.4%Q
  ∧ get_duration s = (1.4 - 0.2)%Q.
Proof.
  intros s.
  destruct (draw_stroke (new_stroke "piano" (255, 200, 100) "stroke_1")
              (40, 100, 10, 0.2%Q) [(320, 200, 10, 0.5%Q); (600, 300, 20, 1.4%Q)])
    as (Hp & _ & _ & Hend & Hempty & _).
  destruct (Hempty eq_refl) as [Hstart Hdur].
  fold s in Hp, Hend, Hstart, Hdur.
  split; [rewrite Hp; reflexivity |].
  split; [exact Hstart |]. split; [exact Hend | exact Hdur].
Defined.

(** *** The duration of a project *)

Lemma py_max_spec (rest : list Q) : ∀ first : Q,
  (first <= py_max first rest)%Q
  ∧ Forall (fun v => (v <= py_max first rest)%Q) rest
  ∧ py_max first rest ∈ first :: rest.
Proof.
  induction rest as [|v rest IH]; intros first; cbn.
  { split; [apply Qle_refl |]. split; [constructor |].
    apply elem_of_cons. left. reflexivity. }
  change (foldl _ ?b rest) with (py_max b rest).
  destruct (Qltb first v) eqn:Hlt.
  - destruct (IH v) as (Hv & Hrest & Hin).
    apply Qltb_lt in Hlt.
    split; [apply Qlt_le_weak; eapply Qlt_le_trans; eassumption |].
    split; [constructor; assumption |].
    apply elem_of_cons. right. exact Hin.
  - destruct (IH first) as (Hf & Hrest & Hin).
    apply Qltb_ge in Hlt.
    split; [exact Hf |].
    split; [constructor; [eapply Qle_trans; eassumption | exact Hrest] |].
    apply elem_of_cons in Hin as [Hin | Hin].
    + apply elem_of_cons. left. exact Hin.
    + apply elem_of_cons. right. apply elem_of_cons. right. exact Hin.
Qed.

(** X29: [add_stroke] appends the stroke and sets the duration of the
    project to the greatest [end_t] of its strokes: no stroke ends
    later, and some stroke ends then; everything else stays, and
    [clear] leaves no stroke and duration 0. *)
Theorem add_stroke_duration (p : Project) (stroke : Stroke) :
  let p' := add_stroke p stroke in
  strokes p' = strokes p ++ [stroke]
  ∧ Forall (fun s => (end_t s <= duration p')%Q) (strokes p')
  ∧ (∃ s, s ∈ strokes p' ∧ duration p' = end_t s)
  ∧ (strokes p = [] → duration p' = end_t stroke)
  ∧ (bpm p', quantize p', scale p', root_note p', width p', height p')
    = (bpm p, quantize p, scale p, root_note p, width p, height p)
  ∧ strokes (clear p') = [] ∧ duration (clear p') = 0%Q.
Proof.
  cbv zeta. unfold add_stroke, _update_duration.
  cbn [strokes assign_strokes_duration].
  destruct (strokes p ++ [stroke]) as [|s0 rest] eqn:Hall.
  { apply app_eq_nil in Hall as [_ H]. discriminate. }
  cbn [strokes duration assign_strokes_duration bpm quantize scale root_note
       width height clear].
  destruct (py_max_spec (map end_t rest) (end_t s0)) as (Hfirst & Hrest & Hin).
  split; [reflexivity |]. split; [| split; [| split]].
  - constructor; [exact Hfirst |].
    rewrite Forall_map in Hrest. exact Hrest.
  - change (end_t s0 :: map end_t rest) with (map end_t (s0 :: rest)) in Hin.
    apply list_elem_of_fmap in Hin as (s & Hs & Hin). exists s. auto.
  - intros Hnil. rewrite Hnil in Hall. injection Hall as <- <-. reflexivity.
  - repeat split.
Qed.

End Strokes.

Section ExportFiles.

Import config music_engine.

(** *** File names *)






End ExportFiles.
